(** * FunnelTokenizer: truncation, special-token layout, offset rematching
      and the stride-based sliding-window batch encoder.

    Shallow embedding of [paddlenlp/transformers/funnel/tokenizer.py].
    Python lists are [list], Python ints are [Z], Python [str] values are
    lists of code points, the [encoded_inputs] dictionary is a record with one
    optional field per key, and a raised exception is a value of [result]. *)

From Stdlib Require Import ZArith Lia ZifyBool.
From stdpp Require Import strings list relations.

Local Open Scope Z_scope.

(** ** Exceptions and fallible computations *)

Inductive exn : Type :=
  | AssertionError
  | ValueError
  | IndexError.

(** [OutOfFuel] is only produced by the [while True] loop of [batch_encode];
    it stands for "no result yet after that many iterations". *)
Inductive result (A : Type) : Type :=
  | Ok (a : A)
  | Raise (e : exn)
  | OutOfFuel.
Arguments Ok {A} a.
Arguments Raise {A} e.
Arguments OutOfFuel {A}.

Global Instance result_ret : MRet result := λ A a, Ok a.
Global Instance result_bind : MBind result := λ A B f m,
  match m with
  | Ok a => f a
  | Raise e => Raise e
  | OutOfFuel => OutOfFuel
  end.

Definition assert (b : bool) : result unit :=
  if b then Ok tt else Raise AssertionError.

(** ** Python sequence operations *)

Section PySeq.
Context {A : Type}.

Definition len (l : list A) : Z := Z.of_nat (length l).

(** [l[:k]] *)
Definition slice_to (l : list A) (k : Z) : list A :=
  if 0 <=? k then take (Z.to_nat k) l
  else take (length l - Z.to_nat (- k))%nat l.

(** [l[k:]] *)
Definition slice_from (l : list A) (k : Z) : list A :=
  if 0 <=? k then drop (Z.to_nat k) l
  else drop (length l - Z.to_nat (- k))%nat l.

(** [l[k]] *)
Definition getitem (l : list A) (k : Z) : result A :=
  let i := if 0 <=? k then k else len l + k in
  if 0 <=? i then
    match l !! Z.to_nat i with
    | Some x => Ok x
    | None => Raise IndexError
    end
  else Raise IndexError.

(** [n * [x]] *)
Definition times (n : Z) (x : A) : list A := replicate (Z.to_nat n) x.

(** [for _ in range(n): st = body(st)], stopping at the first exception. *)
Fixpoint for_range {S : Type} (n : nat) (body : S → result S) (st : S) : result S :=
  match n with
  | O => Ok st
  | S n' => st' ← body st; for_range n' body st'
  end.

(** The last [k] items of [l] (all of [l] when it has fewer). *)
Definition last_tokens (k : nat) (l : list A) : list A :=
  drop (length l - k)%nat l.
End PySeq.

(** ** Truncation engine: [truncate_sequences] *)

Abbreviation trunc_state := (list Z * option (list Z) * list Z)%type.

(** One pass through the body of either [for _ in range(num_tokens_to_remove)]
    loop of the 'longest_first' branch.  The two loops differ only in the
    comparison between [len(ids)] and [len(pair_ids)]: [>=] in the first,
    [>] in the second; [ids_first] is that comparison. *)
Definition remove_one (ids_first : Z → Z → bool) (st : trunc_state) : result trunc_state :=
  let '(ids, pair_ids, overflowing_tokens) := st in
  if match pair_ids with
     | None => true
     | Some p => ids_first (len ids) (len p)
     end
  then
    x ← getitem ids (-1);
    Ok (slice_to ids (-1), pair_ids, [x] ++ overflowing_tokens)
  else
    Ok (ids, (λ p, slice_to p (-1)) <$> pair_ids, overflowing_tokens).

Definition truncate_sequences (ids : list Z) (pair_ids : option (list Z))
    (num_tokens_to_remove : Z) (truncation_strategy : string) (stride : Z)
    : result trunc_state :=
  if num_tokens_to_remove <=? 0 then Ok (ids, pair_ids, [])
  else if String.eqb truncation_strategy "longest_first" then
    st ← (if match pair_ids with
             | None => true
             | Some p => len ids <=? len p
             end
          then for_range (Z.to_nat num_tokens_to_remove) (remove_one Z.geb) (ids, pair_ids, [])
          else for_range (Z.to_nat num_tokens_to_remove) (remove_one Z.gtb) (ids, pair_ids, []));
    let '(ids, pair_ids, overflowing_tokens) := st in
    let window_len := Z.min (len ids) stride in
    if 0 <? window_len
    then Ok (ids, pair_ids, slice_from ids (- window_len) ++ overflowing_tokens)
    else Ok (ids, pair_ids, overflowing_tokens)
  else if String.eqb truncation_strategy "only_first" then
    _ ← assert (num_tokens_to_remove <? len ids);
    let window_len := Z.min (len ids) (stride + num_tokens_to_remove) in
    let overflowing_tokens := slice_from ids (- window_len) in
    Ok (slice_to ids (- num_tokens_to_remove), pair_ids, overflowing_tokens)
  else if String.eqb truncation_strategy "only_second" then
    match pair_ids with
    | None => Raise AssertionError
    | Some p =>
      _ ← assert (num_tokens_to_remove <? len p);
      let window_len := Z.min (len p) (stride + num_tokens_to_remove) in
      let overflowing_tokens := slice_from p (- window_len) in
      Ok (ids, Some (slice_to p (- num_tokens_to_remove)), overflowing_tokens)
    end
  else if String.eqb truncation_strategy "do_not_truncate" then Raise ValueError
  else Raise ValueError.

(** The 'longest_first' removal as the specification words it: at every step
    one token leaves the end of the currently longer sequence, and [ids]
    loses it whenever the lengths are equal or [pair_ids] is absent.  Only
    used to compare [truncate_sequences] with. *)
Definition ties_to_ids_step (st : trunc_state) : trunc_state :=
  let '(ids, pair_ids, overflow) := st in
  match pair_ids with
  | Some p =>
    if (length ids <? length p)%nat
    then (ids, Some (removelast p), overflow)
    else (removelast ids, pair_ids, drop (length ids - 1)%nat ids ++ overflow)
  | None => (removelast ids, pair_ids, drop (length ids - 1)%nat ids ++ overflow)
  end.

Definition longest_first_ties_to_ids (ids : list Z) (pair_ids : option (list Z))
    (num_tokens_to_remove : Z) : trunc_state :=
  Nat.iter (Z.to_nat num_tokens_to_remove) ties_to_ids_step (ids, pair_ids, []).

(** A removal step of 'longest_first', declaratively: [tie_ids] tells which
    sequence loses a token when both have the same length. *)
Inductive removal_step (tie_ids : bool) : trunc_state → trunc_state → Prop :=
  | remove_from_ids ids x pair_ids overflow :
      match pair_ids with
      | None => True
      | Some p => (length p < length (ids ++ [x]))%nat
                  ∨ (length p = length (ids ++ [x]) ∧ tie_ids = true)
      end →
      removal_step tie_ids (ids ++ [x], pair_ids, overflow) (ids, pair_ids, x :: overflow)
  | remove_from_pair ids p y overflow :
      (length ids < length (p ++ [y]))%nat
      ∨ (length ids = length (p ++ [y]) ∧ tie_ids = false) →
      removal_step tie_ids (ids, Some (p ++ [y]), overflow) (ids, Some p, overflow).

(** Which way the call breaks ties: decided once, before the loop. *)
Definition ties_go_to_ids (ids : list Z) (pair_ids : option (list Z)) : bool :=
  match pair_ids with
  | None => true
  | Some p => (length ids <=? length p)%nat
  end.

Definition pair_length (pair_ids : option (list Z)) : nat :=
  match pair_ids with
  | None => 0%nat
  | Some p => length p
  end.

(** ** Strings, spans and the [encoded_inputs] dictionary *)

(** A Python [str] is a list of code points ([ord] of each character). *)
Abbreviation str := (list Z).

(** An offset span [(start, end)] into the original text. *)
Abbreviation span := (nat * nat)%type.

(** [encoded_inputs]: the dictionary only ever holds these eight keys; a
    key that has not been set is [None]. *)
Record encoded : Type := {
  input_ids : option (list Z);
  token_type_ids : option (list Z);
  special_tokens_mask : option (list Z);
  seq_len : option Z;
  offset_mapping : option (list span);
  attention_mask : option (list Z);
  position_ids : option (list Z);
  overflow_to_sample : option Z
}.

(** [{}] *)
Definition empty_inputs : encoded := {|
  input_ids := None; token_type_ids := None; special_tokens_mask := None;
  seq_len := None; offset_mapping := None; attention_mask := None;
  position_ids := None; overflow_to_sample := None
|}.

(** [encoded_inputs[key] = v], key by key. *)
Definition set_input_ids (v : list Z) (e : encoded) : encoded := {|
  input_ids := Some v; token_type_ids := token_type_ids e;
  special_tokens_mask := special_tokens_mask e; seq_len := seq_len e;
  offset_mapping := offset_mapping e; attention_mask := attention_mask e;
  position_ids := position_ids e; overflow_to_sample := overflow_to_sample e
|}.

Definition set_token_type_ids (v : list Z) (e : encoded) : encoded := {|
  input_ids := input_ids e; token_type_ids := Some v;
  special_tokens_mask := special_tokens_mask e; seq_len := seq_len e;
  offset_mapping := offset_mapping e; attention_mask := attention_mask e;
  position_ids := position_ids e; overflow_to_sample := overflow_to_sample e
|}.

Definition set_special_tokens_mask (v : list Z) (e : encoded) : encoded := {|
  input_ids := input_ids e; token_type_ids := token_type_ids e;
  special_tokens_mask := Some v; seq_len := seq_len e;
  offset_mapping := offset_mapping e; attention_mask := attention_mask e;
  position_ids := position_ids e; overflow_to_sample := overflow_to_sample e
|}.

Definition set_seq_len (v : Z) (e : encoded) : encoded := {|
  input_ids := input_ids e; token_type_ids := token_type_ids e;
  special_tokens_mask := special_tokens_mask e; seq_len := Some v;
  offset_mapping := offset_mapping e; attention_mask := attention_mask e;
  position_ids := position_ids e; overflow_to_sample := overflow_to_sample e
|}.

Definition set_offset_mapping (v : list span) (e : encoded) : encoded := {|
  input_ids := input_ids e; token_type_ids := token_type_ids e;
  special_tokens_mask := special_tokens_mask e; seq_len := seq_len e;
  offset_mapping := Some v; attention_mask := attention_mask e;
  position_ids := position_ids e; overflow_to_sample := overflow_to_sample e
|}.

Definition set_attention_mask (v : list Z) (e : encoded) : encoded := {|
  input_ids := input_ids e; token_type_ids := token_type_ids e;
  special_tokens_mask := special_tokens_mask e; seq_len := seq_len e;
  offset_mapping := offset_mapping e; attention_mask := Some v;
  position_ids := position_ids e; overflow_to_sample := overflow_to_sample e
|}.

Definition set_position_ids (v : list Z) (e : encoded) : encoded := {|
  input_ids := input_ids e; token_type_ids := token_type_ids e;
  special_tokens_mask := special_tokens_mask e; seq_len := seq_len e;
  offset_mapping := offset_mapping e; attention_mask := attention_mask e;
  position_ids := Some v; overflow_to_sample := overflow_to_sample e
|}.

Definition set_overflow_to_sample (v : Z) (e : encoded) : encoded := {|
  input_ids := input_ids e; token_type_ids := token_type_ids e;
  special_tokens_mask := special_tokens_mask e; seq_len := seq_len e;
  offset_mapping := offset_mapping e; attention_mask := attention_mask e;
  position_ids := position_ids e; overflow_to_sample := Some v
|}.

(** [encoded_inputs[key]] for a key holding a list; every key the code
    reads has been set before it is read. *)
Definition get {A : Type} (field : option (list A)) : list A := default [] field.

(** The keyword arguments of [batch_encode]. [max_seq_len] is an int: with
    [None] the subtraction that opens the sliding-window path already fails. *)
Record batch_args : Type := {
  max_seq_len : Z;
  pad_to_max_seq_len : bool;
  stride : Z;
  truncation_strategy : string;
  return_position_ids : bool;
  return_token_type_ids : bool;
  return_attention_mask : bool;
  return_length : bool;
  return_overflowing_tokens : bool;
  return_special_tokens_mask : bool
}.

(** What [FunnelTokenizer] inherits or is configured with: the basic and
    WordPiece tokenizers, the vocabulary, the special-token registry, the
    special-token layout and single-example [encode] of the base classes,
    and the Unicode primitives [rematch] calls. *)
Class Tokenizer : Type := {
  do_lower_case : bool;
  basic_tokenize : str → list str;
  wordpiece_tokenize : str → list str;
  unk_token : str;
  (** Modelled from the spec: [vocab_lookup(token) -> id], with the fixed
      unknown-token id for a token that is absent. *)
  vocab_lookup : str → Z;
  cls_token_id : Z;
  sep_token_id : Z;
  pad_token_id : Z;
  pad_token_type_id : Z;
  padding_side : string;
  build_inputs_with_special_tokens : list Z → option (list Z) → list Z;
  encode : list Z → option (list Z) → batch_args → result encoded;
  (** [ch.lower()], [unicodedata.normalize("NFD", ch)],
      [unicodedata.category(c) == "Mn"] and [_is_control(c)]. *)
  str_lower : str → str;
  normalize_NFD : str → str;
  category_is_Mn : Z → bool;
  is_control : Z → bool
}.

(** Modelled from the spec: [build_inputs_with_special_tokens] of the base
    class, which is not part of this file; section 6 gives its layout,
    [[cls] A [sep]] or [[cls] A [sep] B [sep]]. *)
Definition bert_build_inputs_with_special_tokens (cls sep : Z)
    (token_ids_0 : list Z) (token_ids_1 : option (list Z)) : list Z :=
  match token_ids_1 with
  | None => [cls] ++ token_ids_0 ++ [sep]
  | Some token_ids_1 => [cls] ++ token_ids_0 ++ [sep] ++ token_ids_1 ++ [sep]
  end.

Definition stem (token : str) : str :=
  if decide (slice_to token 2 = [35; 35]) then slice_from token 2 else token.

(** [hay.index(needle)]: lowest index at which [needle] starts. *)
Fixpoint str_index (hay needle : str) : result nat :=
  if decide (take (length needle) hay = needle) then Ok O
  else match hay with
       | [] => Raise ValueError
       | _ :: hay' => i ← str_index hay' needle; Ok (S i)
       end.

Definition enumerate {A : Type} (l : list A) : list (nat * A) :=
  imap (λ i x, (i, x)) l.

Definition range (n : nat) : list Z := Z.of_nat <$> seq 0 n.

(** [for x in xs: st = body(st, x)], stopping at the first exception. *)
Fixpoint for_each {S X : Type} (body : S → X → result S) (xs : list X) (st : S) : result S :=
  match xs with
  | [] => Ok st
  | x :: xs' => st' ← body st x; for_each body xs' st'
  end.

Definition cls_token_type_id : Z := 2.

Section FunnelTokenizer.
Context `{Tokenizer}.

Definition convert_tokens_to_ids (tokens : list str) : list Z :=
  vocab_lookup <$> tokens.

Definition _tokenize (text : str) : list str :=
  token ← basic_tokenize text;
  sub_token ← wordpiece_tokenize token;
  [sub_token].

Definition tokenize (text : str) : list str := _tokenize text.

Definition num_special_tokens_to_add (pair : bool) : Z :=
  let token_ids_0 := [] in
  let token_ids_1 := [] in
  len (build_inputs_with_special_tokens token_ids_0 (if pair then Some token_ids_1 else None)).

Definition build_offset_mapping_with_special_tokens
    (offset_mapping_0 : list span) (offset_mapping_1 : option (list span)) : list span :=
  match offset_mapping_1 with
  | None => [(0, 0)%nat] ++ offset_mapping_0 ++ [(0, 0)%nat]
  | Some offset_mapping_1 =>
    [(0, 0)%nat] ++ offset_mapping_0 ++ [(0, 0)%nat] ++ offset_mapping_1 ++ [(0, 0)%nat]
  end.

Definition create_token_type_ids_from_sequences
    (token_ids_0 : list Z) (token_ids_1 : option (list Z)) : list Z :=
  let _sep := [sep_token_id] in
  let _cls := [cls_token_id] in
  match token_ids_1 with
  | None => times (len _cls) cls_token_type_id ++ times (len (token_ids_0 ++ _sep)) 0
  | Some token_ids_1 =>
    times (len _cls) cls_token_type_id ++ times (len (token_ids_0 ++ _sep)) 0
      ++ times (len (token_ids_1 ++ _sep)) 1
  end.

Definition get_special_tokens_mask (token_ids_0 : list Z) (token_ids_1 : option (list Z))
    (already_has_special_tokens : bool) : result (list Z) :=
  if already_has_special_tokens then
    match token_ids_1 with
    | Some _ => Raise ValueError
    | None =>
      Ok ((λ x, if decide (x ∈ [sep_token_id; cls_token_id]) then 1 else 0) <$> token_ids_0)
    end
  else
    match token_ids_1 with
    | Some token_ids_1 =>
      Ok ([1] ++ times (len token_ids_0) 0 ++ [1] ++ times (len token_ids_1) 0 ++ [1])
    | None => Ok ([1] ++ times (len token_ids_0) 0 ++ [1])
    end.

(** *** Offset rematcher *)

Definition custom_tokenize (text : str) : list str :=
  token ← basic_tokenize text;
  sub_token ← wordpiece_tokenize token;
  [if decide (sub_token ≠ unk_token) then sub_token else token].

(** What one character of [text] contributes to [normalized_text]. *)
Definition normalize_char (ch : Z) : str :=
  let ch := [ch] in
  let ch :=
    if do_lower_case then
      let ch := str_lower ch in
      let ch := normalize_NFD ch in
      List.filter (λ c, negb (category_is_Mn c)) ch
    else ch in
  List.filter (λ c, negb ((c =? 0) || (c =? 0xFFFD) || is_control c)) ch.

(** Body of [for i, ch in enumerate(text)]. *)
Definition char_mapping_step (st : str * list nat) (ich : nat * Z) : str * list nat :=
  let '(normalized_text, char_mapping) := st in
  let '(i, ch) := ich in
  let ch := normalize_char ch in
  (normalized_text ++ ch, char_mapping ++ times (len ch) i).

Definition build_char_mapping (text : str) : str * list nat :=
  foldl char_mapping_step ([], []) (enumerate text).

(** Body of [for token in tokens]. *)
Definition locate_token (text : str) (char_mapping : list nat)
    (st : list span * nat) (token : str) : result (list span * nat) :=
  let '(token_mapping, offset) := st in
  let token := stem token in
  i ← str_index (drop offset text) token;
  let start := (i + offset)%nat in
  let end_ := (start + length token)%nat in
  a ← getitem char_mapping (Z.of_nat start);
  b ← getitem char_mapping (Z.of_nat end_ - 1);
  Ok (token_mapping ++ [(a, (b + 1)%nat)], end_).

Definition rematch (text : str) : result (list span) :=
  let tokens := custom_tokenize text in
  let '(normalized_text, char_mapping) := build_char_mapping text in
  st ← for_each (locate_token normalized_text char_mapping) tokens ([], O);
  Ok st.1.

(** *** Sliding-window batch encoder *)

(** The body of the [while True] loop, from [encoded_inputs = {}] to
    [batch_encode_inputs.append(encoded_inputs)], for the pair slice the
    loop head selected. *)
Definition encode_window (args : batch_args) (example_id : nat)
    (ids : list Z) (mapping : list span)
    (pair_ids : list Z) (pair_mapping : list span) : result encoded :=
  let encoded_inputs := empty_inputs in
  let offset_mapping_ := build_offset_mapping_with_special_tokens mapping (Some pair_mapping) in
  let sequence := build_inputs_with_special_tokens ids (Some pair_ids) in
  let token_type_ids_ := create_token_type_ids_from_sequences ids (Some pair_ids) in
  let encoded_inputs := set_input_ids sequence encoded_inputs in
  let encoded_inputs :=
    if return_token_type_ids args
    then set_token_type_ids token_type_ids_ encoded_inputs
    else encoded_inputs in
  encoded_inputs ←
    (if return_special_tokens_mask args
     then mask ← get_special_tokens_mask ids (Some pair_ids) false;
          Ok (set_special_tokens_mask mask encoded_inputs)
     else Ok encoded_inputs);
  let encoded_inputs :=
    if return_length args
    then set_seq_len (len (get (input_ids encoded_inputs))) encoded_inputs
    else encoded_inputs in
  _ ← assert (len (get (input_ids encoded_inputs)) <=? max_seq_len args);
  let needs_to_be_padded :=
    pad_to_max_seq_len args && negb (max_seq_len args =? 0)
    && (len (get (input_ids encoded_inputs)) <? max_seq_len args) in
  let encoded_inputs := set_offset_mapping offset_mapping_ encoded_inputs in
  let encoded_inputs :=
    if needs_to_be_padded then
      let difference := max_seq_len args - len (get (input_ids encoded_inputs)) in
      if String.eqb padding_side "right" then
        let encoded_inputs :=
          if return_attention_mask args
          then set_attention_mask
                 (times (len (get (input_ids encoded_inputs))) 1 ++ times difference 0)
                 encoded_inputs
          else encoded_inputs in
        let encoded_inputs :=
          if return_token_type_ids args
          then set_token_type_ids
                 (get (token_type_ids encoded_inputs) ++ times difference pad_token_type_id)
                 encoded_inputs
          else encoded_inputs in
        let encoded_inputs :=
          if return_special_tokens_mask args
          then set_special_tokens_mask
                 (get (special_tokens_mask encoded_inputs) ++ times difference 1)
                 encoded_inputs
          else encoded_inputs in
        let encoded_inputs :=
          set_input_ids (get (input_ids encoded_inputs) ++ times difference pad_token_id)
            encoded_inputs in
        set_offset_mapping
          (get (offset_mapping encoded_inputs) ++ times difference (0, 0)%nat)
          encoded_inputs
      else if String.eqb padding_side "left" then
        let encoded_inputs :=
          if return_attention_mask args
          then set_attention_mask
                 (times difference 0 ++ times (len (get (input_ids encoded_inputs))) 1)
                 encoded_inputs
          else encoded_inputs in
        let encoded_inputs :=
          if return_token_type_ids args
          then set_token_type_ids
                 (times difference pad_token_type_id ++ get (token_type_ids encoded_inputs))
                 encoded_inputs
          else encoded_inputs in
        let encoded_inputs :=
          if return_special_tokens_mask args
          then set_special_tokens_mask
                 (times difference 1 ++ get (special_tokens_mask encoded_inputs))
                 encoded_inputs
          else encoded_inputs in
        let encoded_inputs :=
          set_input_ids (times difference pad_token_id ++ get (input_ids encoded_inputs))
            encoded_inputs in
        set_offset_mapping
          (times difference (0, 0)%nat ++ get (offset_mapping encoded_inputs))
          encoded_inputs
      else encoded_inputs
    else
      if return_attention_mask args
      then set_attention_mask (times (len (get (input_ids encoded_inputs))) 1) encoded_inputs
      else encoded_inputs in
  let encoded_inputs :=
    if return_position_ids args
    then set_position_ids (range (length (get (input_ids encoded_inputs)))) encoded_inputs
    else encoded_inputs in
  let encoded_inputs := set_overflow_to_sample (Z.of_nat example_id) encoded_inputs in
  Ok encoded_inputs.

(** The [while True] loop; [fuel] bounds the number of passes. *)
Fixpoint sliding_windows (fuel : nat) (args : batch_args) (example_id : nat)
    (first_ids : list Z) (token_offset_mapping : list span) (max_len_for_pair : Z)
    (second_ids : list Z) (token_pair_offset_mapping : list span)
    (batch_encode_inputs : list encoded) : result (list encoded) :=
  match fuel with
  | O => OutOfFuel
  | S fuel' =>
    let ids := first_ids in
    let mapping := token_offset_mapping in
    let '(pair_ids, pair_mapping) :=
      if len second_ids <=? max_len_for_pair
      then (second_ids, token_pair_offset_mapping)
      else (slice_to second_ids max_len_for_pair,
            slice_to token_pair_offset_mapping max_len_for_pair) in
    encoded_inputs ← encode_window args example_id ids mapping pair_ids pair_mapping;
    let batch_encode_inputs := batch_encode_inputs ++ [encoded_inputs] in
    if len second_ids <=? max_len_for_pair then Ok batch_encode_inputs
    else
      let second_ids := slice_from second_ids (max_len_for_pair - stride args) in
      let token_pair_offset_mapping :=
        slice_from token_pair_offset_mapping (max_len_for_pair - stride args) in
      sliding_windows fuel' args example_id first_ids token_offset_mapping max_len_for_pair
        second_ids token_pair_offset_mapping batch_encode_inputs
  end.

(** [get_input_ids] on a string. *)
Definition get_input_ids (text : str) : list Z :=
  let tokens := _tokenize text in
  convert_tokens_to_ids tokens.

(** The budget left for the pair in one window. *)
Definition max_len_for_pair_of (args : batch_args) (first_ids : list Z) : Z :=
  max_seq_len args - len first_ids - num_special_tokens_to_add true.

(** One pass of [for example_id, tokens_or_pair_tokens in enumerate(...)]
    for an item given as strings: a text and an optional text pair. *)
Definition encode_item (fuel : nat) (args : batch_args) (example_id : nat)
    (text : str) (text_pair : option str)
    (batch_encode_inputs : list encoded) : result (list encoded) :=
  let first_ids := get_input_ids text in
  match text_pair with
  | Some text_pair =>
    let second_ids := get_input_ids text_pair in
    if 0 <? stride args then
      let max_len_for_pair := max_len_for_pair_of args first_ids in
      token_offset_mapping ← rematch text;
      token_pair_offset_mapping ← rematch text_pair;
      sliding_windows fuel args example_id first_ids token_offset_mapping max_len_for_pair
        second_ids token_pair_offset_mapping batch_encode_inputs
    else
      encoded_inputs ← encode first_ids (Some second_ids) args;
      Ok (batch_encode_inputs ++ [encoded_inputs])
  | None =>
    encoded_inputs ← encode first_ids None args;
    Ok (batch_encode_inputs ++ [encoded_inputs])
  end.

Definition batch_encode (fuel : nat) (args : batch_args)
    (batch_text_or_text_pairs : list (str * option str)) : result (list encoded) :=
  for_each (λ batch_encode_inputs '(example_id, (text, text_pair)),
              encode_item fuel args example_id text text_pair batch_encode_inputs)
           (enumerate batch_text_or_text_pairs) [].
End FunnelTokenizer.

(** ** Detokenizer *)

(** [sep.join(tokens)] *)
Fixpoint str_join (sep : str) (tokens : list str) : str :=
  match tokens with
  | [] => []
  | token :: tokens' =>
    match tokens' with
    | [] => token
    | _ :: _ => token ++ sep ++ str_join sep tokens'
    end
  end.

(** The scan of [s.replace(old, new)] for a non-empty [old]: left to right,
    an occurrence of [old] gives [new] and the scan goes on behind it
    ([skip] counts the characters of the occurrence still to pass). *)
Fixpoint replace_from (old new : str) (skip : nat) (s : str) : str :=
  match s with
  | [] => []
  | c :: s' =>
    match skip with
    | S skip' => replace_from old new skip' s'
    | O =>
      if decide (take (length old) s = old)
      then new ++ replace_from old new (length old - 1) s'
      else c :: replace_from old new O s'
    end
  end.

(** [s.replace(old, new)]; an empty [old] matches before every character
    and at the end. *)
Definition str_replace (old new s : str) : str :=
  match old with
  | [] => new ++ (c ← s; c :: new)
  | _ :: _ => replace_from old new O s
  end.

(** [c.isspace()]: the characters [strip()] removes. *)
Definition is_space (c : Z) : bool :=
  (9 <=? c) && (c <=? 13) || (28 <=? c) && (c <=? 32)
  || (c =? 133) || (c =? 160) || (c =? 5760)
  || (8192 <=? c) && (c <=? 8202)
  || (c =? 8232) || (c =? 8233) || (c =? 8239) || (c =? 8287) || (c =? 12288).

Fixpoint str_lstrip (s : str) : str :=
  match s with
  | [] => []
  | c :: s' => if is_space c then str_lstrip s' else s
  end.

Definition str_rstrip (s : str) : str := reverse (str_lstrip (reverse s)).

(** [s.strip()] *)
Definition str_strip (s : str) : str := str_rstrip (str_lstrip s).

(** [" ##"] is [[32; 35; 35]]; the marks are ".", "?", "!", "," and the
    apostrophe forms " ' ", " n't", " 'm", " 's", " 've", " 're". *)
Definition convert_tokens_to_string (tokens : list str) : str :=
  let out_string := str_strip (str_replace [32; 35; 35] [] (str_join [32] tokens)) in
  let out_string :=
    str_replace [32; 39; 114; 101] [39; 114; 101]
      (str_replace [32; 39; 118; 101] [39; 118; 101]
         (str_replace [32; 39; 115] [39; 115]
            (str_replace [32; 39; 109] [39; 109]
               (str_replace [32; 110; 39; 116] [110; 39; 116]
                  (str_replace [32; 39; 32] [39]
                     (str_replace [32; 44] [44]
                        (str_replace [32; 33] [33]
                           (str_replace [32; 63] [63]
                              (str_replace [32; 46] [46] out_string))))))))) in
  out_string.

(** ** Vocabulary of the statements *)

(** The special-token layout of a pair: the same markers around every pair. *)
Definition pair_layout `{Tokenizer} (pre mid post : list Z) : Prop :=
  ∀ a b, build_inputs_with_special_tokens a (Some b) = pre ++ a ++ mid ++ b ++ post.

(** The coarse word every sub-token position of [_tokenize text] comes from. *)
Definition source_words `{Tokenizer} (text : str) : list str :=
  token ← basic_tokenize text;
  (λ _, token) <$> wordpiece_tokenize token.

(** The token kept at a position: the coarse word instead of the unknown
    marker, the sub-token otherwise. *)
Definition searched_token `{Tokenizer} (word sub_token : str) : str :=
  if decide (sub_token = unk_token) then word else sub_token.

(** Ranges [(start, stop)] of pair tokens, half-open: [n] windows of [m]
    tokens, each starting [d] tokens after the one before, then a last
    window from where the next one would start up to [L]. *)
Fixpoint window_ranges (n m d L o : nat) : list (nat * nat) :=
  match n with
  | O => [(o, L)]
  | S n' => (o, o + m)%nat :: window_ranges n' m d L (o + d)
  end.

Definition pair_range {A : Type} (r : nat * nat) (l : list A) : list A :=
  take (r.2 - r.1) (drop r.1 l).

(** [wins] are the encoded examples of the windows at [ranges]: each is what
    one pass makes of [first_ids] and the pair tokens in its range. *)
Definition windows_at `{Tokenizer} (args : batch_args) (example_id : nat)
    (first_ids : list Z) (token_offset_mapping : list span) (second_ids : list Z)
    (ranges : list (nat * nat)) (wins : list encoded) : Prop :=
  Forall2 (λ r encoded_inputs,
             ∃ pair_mapping,
               encode_window args example_id first_ids token_offset_mapping
                 (pair_range r second_ids) pair_mapping = Ok encoded_inputs)
          ranges wins.

Definition ceil_div (a b : Z) : Z := (a + b - 1) / b.

(** Number of passes of the window loop that do not end it. *)
Definition full_windows (L m d : nat) : nat := ((L - m + d - 1) / d)%nat.

(** The sequence-valued fields an encoded example holds, each with its
    length. *)
Definition sequence_fields (e : encoded) : list (string * nat) :=
  omap (λ '(key, field), (λ n, (key, n)) <$> field)
    [("input_ids", length <$> input_ids e);
     ("token_type_ids", length <$> token_type_ids e);
     ("attention_mask", length <$> attention_mask e);
     ("special_tokens_mask", length <$> special_tokens_mask e);
     ("position_ids", length <$> position_ids e);
     ("offset_mapping", length <$> offset_mapping e)].

(** All sequence-valued fields present are as long as [input_ids], which is
    present, as is [offset_mapping]. *)
Definition fields_aligned (e : encoded) : Prop :=
  ∃ ids spans,
    input_ids e = Some ids
    ∧ offset_mapping e = Some spans
    ∧ length spans = length ids
    ∧ ∀ key n, (key, n) ∈ sequence_fields e → n = length ids.

(** Where [rematch] finds its tokens in the normalized text: each token,
    without its continuation marker, at its first occurrence at or after the
    end of the one before; [ranges] are the [(start, end)] of the matches. *)
Inductive located (text : str) : nat → list str → list (nat * nat) → Prop :=
  | located_nil offset : located text offset [] []
  | located_cons offset token tokens start ranges :
      (offset ≤ start)%nat →
      take (length (stem token)) (drop start text) = stem token →
      (∀ k, (offset ≤ k < start)%nat → take (length (stem token)) (drop k text) ≠ stem token) →
      located text (start + length (stem token)) tokens ranges →
      located text offset (token :: tokens) ((start, start + length (stem token))%nat :: ranges).

(** The tokens ",", "!", "?" and ".". *)
Definition marks : list str := [[44]; [33]; [63]; [46]].

(** A character of a word: no white space, none of [. ? ! ,] and no
    apostrophe. *)
Definition word_char (c : Z) : Prop :=
  is_space c = false ∧ c ∉ [46; 63; 33; 44; 39].

(** What a token after the first adds to the detokenized string: a
    continuation piece comes without its marker, a mark in [attached] as it
    is, any other token after a space. *)
Definition detokenized_up_to (attached : list str) (token : str) : str :=
  if decide (take 2 token = [35; 35]) then drop 2 token
  else if decide (token ∈ attached) then token
  else 32 :: token.

Definition detokenized (token : str) : str := detokenized_up_to marks token.

(** ** A small tokenizer to run the definitions on

    Every character is a coarse word; lower-case ASCII letters are in the
    vocabulary (their code point is their id), anything else is unknown.
    [infix] is what the layout puts between the two sequences of a pair. *)
Definition sample_unk : str := [60; 117; 110; 107; 62].

Definition ascii_lower (c : Z) : Z :=
  if (65 <=? c) && (c <=? 90) then c + 32 else c.

Definition is_lower_letter (c : Z) : bool := (97 <=? c) && (c <=? 122).

Definition sample_tokenizer (infix : list Z) (side : string) : Tokenizer := {|
  do_lower_case := true;
  basic_tokenize := λ text, (λ c, [ascii_lower c]) <$> text;
  wordpiece_tokenize := λ word,
    if forallb is_lower_letter word then [word] else [sample_unk];
  unk_token := sample_unk;
  vocab_lookup := λ token,
    match token with
    | [c] => if is_lower_letter c then c else 1
    | _ => 1
    end;
  cls_token_id := 2;
  sep_token_id := 3;
  pad_token_id := 0;
  pad_token_type_id := 0;
  padding_side := side;
  build_inputs_with_special_tokens := λ a b,
    match b with
    | None => [2] ++ a ++ [3]
    | Some b => [2] ++ a ++ infix ++ b ++ [3]
    end;
  encode := λ a b _,
    Ok (set_input_ids match b with
                      | None => [2] ++ a ++ [3]
                      | Some b => [2] ++ a ++ infix ++ b ++ [3]
                      end empty_inputs);
  str_lower := fmap ascii_lower;
  normalize_NFD := λ s, s;
  category_is_Mn := λ c, (768 <=? c) && (c <=? 879);
  is_control := λ c, c <? 32
|}.

(** The layout of section 6 of the specification, [[cls] A [sep] B [sep]],
    and one with four special tokens around a pair, as the comment on
    [max_len_for_pair] counts them. *)
Definition sample_bert : Tokenizer := sample_tokenizer [3] "right".
Definition sample_four : Tokenizer := sample_tokenizer [3; 3] "right".

Definition sample_args (max_len stride : Z) (pad : bool) : batch_args := {|
  max_seq_len := max_len;
  pad_to_max_seq_len := pad;
  stride := stride;
  truncation_strategy := "longest_first";
  return_position_ids := true;
  return_token_type_ids := true;
  return_attention_mask := true;
  return_length := true;
  return_overflowing_tokens := false;
  return_special_tokens_mask := true
|}.

(** "A", the control character BEL, "b". *)
Definition sample_mixed : str := [65; 7; 98].

(** What [rematch] makes of it: "ab", whose characters come from the
    characters 0 and 2 of the text. *)
Definition sample_mixed_normalized : str := [97; 98].
Definition sample_mixed_mapping : list nat := [0; 2]%nat.

(** "abcde" and the twenty letters "abcdefghijklmnopqrst". *)
Definition sample_text : str := [97; 98; 99; 100; 101].
Definition sample_pair : str :=
  [97; 98; 99; 100; 101; 102; 103; 104; 105; 106;
   107; 108; 109; 110; 111; 112; 113; 114; 115; 116].

(** A batch of two pairs, ("a", "bcd") and ("b", "c"), and what the
    sliding-window path makes of it with [max_seq_len = 6] and [stride = 1]. *)
Definition sample_batch : list (str * option str) :=
  [([97], Some [98; 99; 100]); ([98], Some [99])].

Definition sample_batch_windows : list encoded := Eval vm_compute in
    match @batch_encode sample_bert 3 (sample_args 6 1 false) sample_batch with
    | Ok batch_encode_inputs => batch_encode_inputs
    | _ => []
    end.

(** * Properties *)

(** A chain of binds that returned [Ok] ran its first computation to an
    [Ok]: case on that computation and drop the failing cases. *)
Ltac bind_ok H :=
  match type of H with
  | context [?m ≫= _] =>
    lazymatch m with
    | _ ≫= _ => fail
    | _ => let E := fresh "E" in destruct m eqn:E; simpl in H; try discriminate H
    end
  end.

(** ** Python sequence operations *)

Section PySeqFacts.
Context {A : Type}.
Implicit Types l : list A.

Lemma len_app l1 l2 : len (l1 ++ l2) = len l1 + len l2.
Proof. unfold len. rewrite length_app. lia. Qed.

Lemma len_nonneg l : 0 ≤ len l.
Proof. unfold len. lia. Qed.

Lemma getitem_last l x : getitem (l ++ [x]) (-1) = Ok x.
Proof.
  unfold getitem. change (0 <=? -1) with false. cbv iota.
  assert (len (l ++ [x]) + -1 = Z.of_nat (length l)) as ->
    by (rewrite len_app; unfold len; simpl; lia).
  destruct (0 <=? Z.of_nat (length l)) eqn:E; [| lia].
  by rewrite Nat2Z.id, list_lookup_middle.
Qed.

Lemma slice_to_last l x : slice_to (l ++ [x]) (-1) = l.
Proof.
  unfold slice_to. change (0 <=? -1) with false. cbv iota.
  rewrite length_app. simpl.
  replace (length l + 1 - Z.to_nat (- -1))%nat with (length l) by lia.
  by rewrite take_app_length.
Qed.

Lemma slice_to_nonneg l (k : nat) : slice_to l (Z.of_nat k) = take k l.
Proof.
  unfold slice_to. destruct (0 <=? Z.of_nat k) eqn:E; [| lia]. by rewrite Nat2Z.id.
Qed.

Lemma slice_from_nonneg l (k : nat) : slice_from l (Z.of_nat k) = drop k l.
Proof.
  unfold slice_from. destruct (0 <=? Z.of_nat k) eqn:E; [| lia]. by rewrite Nat2Z.id.
Qed.

(** [l[-k:]] for [k > 0] is the last [k] items. *)
Lemma slice_from_neg l (k : Z) :
  0 < k → slice_from l (- k) = last_tokens (Z.to_nat k) l.
Proof.
  intros Hk. unfold slice_from, last_tokens.
  destruct (0 <=? - k) eqn:E; [lia |]. by rewrite Z.opp_involutive.
Qed.

(** [l[:-k]] for [k > 0] drops the last [k] items. *)
Lemma slice_to_neg l (k : Z) :
  0 < k → slice_to l (- k) = take (length l - Z.to_nat k) l.
Proof.
  intros Hk. unfold slice_to.
  destruct (0 <=? - k) eqn:E; [lia |]. by rewrite Z.opp_involutive.
Qed.

Lemma last_tokens_ge l (k : nat) : (length l ≤ k)%nat → last_tokens k l = l.
Proof. intros Hk. unfold last_tokens. by replace (length l - k)%nat with O by lia. Qed.

Lemma last_tokens_0 l : last_tokens 0 l = [].
Proof. unfold last_tokens. rewrite Nat.sub_0_r. apply drop_all. Qed.
End PySeqFacts.

(** ** Truncation engine *)

Lemma removal_step_length tie st st' :
  removal_step tie st st' →
  (length st.1.1 + pair_length st.1.2 = S (length st'.1.1 + pair_length st'.1.2))%nat.
Proof.
  destruct 1 as [ids x pair_ids overflow _ | ids p y overflow _]; simpl.
  - rewrite length_app. simpl. lia.
  - rewrite length_app. simpl. lia.
Qed.

Lemma removal_steps_length tie n st st' :
  nsteps (removal_step tie) n st st' →
  (length st.1.1 + pair_length st.1.2 = n + (length st'.1.1 + pair_length st'.1.2))%nat.
Proof.
  induction 1 as [| n x y z Hstep _ IH]; [done |].
  apply removal_step_length in Hstep. lia.
Qed.

(** The loop of either branch: as long as tokens remain, every pass removes
    one token the way [removal_step] says, and the tokens [ids] lost are
    collected in front of the overflow, in their original order. *)
Lemma for_range_remove_one (ids_first : Z → Z → bool) (tie : bool) :
  (∀ a b, ids_first a b = if tie then a >=? b else a >? b) →
  ∀ (n : nat) ids pair_ids overflow,
    (n ≤ length ids + pair_length pair_ids)%nat →
    ∃ kept kept_pair removed,
      for_range n (remove_one ids_first) (ids, pair_ids, overflow)
        = Ok (kept, kept_pair, removed ++ overflow)
      ∧ nsteps (removal_step tie) n (ids, pair_ids, overflow) (kept, kept_pair, removed ++ overflow)
      ∧ ids = kept ++ removed.
Proof.
  intros Hcmp n. induction n as [| n IH]; intros ids pair_ids overflow Hn.
  { exists ids, pair_ids, []. simpl. split_and!; [done | constructor | by rewrite app_nil_r]. }
  assert (Hids : ∀ ids' x, ids = ids' ++ [x] →
            match pair_ids with
            | None => True
            | Some p => (length p < length (ids' ++ [x]))%nat
                        ∨ (length p = length (ids' ++ [x]) ∧ tie = true)
            end →
            remove_one ids_first (ids, pair_ids, overflow) = Ok (ids', pair_ids, x :: overflow)
            → ∃ kept kept_pair removed,
                for_range (S n) (remove_one ids_first) (ids, pair_ids, overflow)
                  = Ok (kept, kept_pair, removed ++ overflow)
                ∧ nsteps (removal_step tie) (S n) (ids, pair_ids, overflow)
                    (kept, kept_pair, removed ++ overflow)
                ∧ ids = kept ++ removed).
  { intros ids' x -> Hc Hstep.
    destruct (IH ids' pair_ids (x :: overflow)) as (kept & kept_pair & removed & Hrun & Hsteps & ->).
    { rewrite length_app in Hn. simpl in Hn. lia. }
    exists kept, kept_pair, (removed ++ [x]).
    replace ((removed ++ [x]) ++ overflow) with (removed ++ x :: overflow)
      by (by rewrite <- (assoc_L (++))).
    split_and!; [| | by rewrite (assoc_L (++))].
    - change (for_range (S n) ?f ?s) with (f s ≫= for_range n f). by rewrite Hstep.
    - eapply nsteps_l; [| exact Hsteps]. by constructor. }
  assert (Hpair : ∀ p y, pair_ids = Some (p ++ [y]) →
            (length ids < length (p ++ [y]))%nat
            ∨ (length ids = length (p ++ [y]) ∧ tie = false) →
            remove_one ids_first (ids, pair_ids, overflow) = Ok (ids, Some p, overflow)
            → ∃ kept kept_pair removed,
                for_range (S n) (remove_one ids_first) (ids, pair_ids, overflow)
                  = Ok (kept, kept_pair, removed ++ overflow)
                ∧ nsteps (removal_step tie) (S n) (ids, pair_ids, overflow)
                    (kept, kept_pair, removed ++ overflow)
                ∧ ids = kept ++ removed).
  { intros p y -> Hc Hstep.
    destruct (IH ids (Some p) overflow) as (kept & kept_pair & removed & Hrun & Hsteps & ->).
    { simpl in *. rewrite length_app in Hn. simpl in Hn. lia. }
    exists kept, kept_pair, removed.
    split_and!; [| | done].
    - change (for_range (S n) ?f ?s) with (f s ≫= for_range n f). by rewrite Hstep.
    - eapply nsteps_l; [| exact Hsteps]. by constructor. }
  destruct pair_ids as [p |].
  - destruct (ids_first (len ids) (len p)) eqn:E; rewrite Hcmp in E.
    + destruct ids as [| x ids' _] using rev_ind.
      { exfalso. destruct tie; simpl in *; unfold len in E; simpl in E; lia. }
      apply (Hids ids' x); [done | |].
      * rewrite length_app in *. unfold len in E. rewrite length_app in E. simpl in *.
        destruct tie; [destruct (decide (length p = length ids' + 1)%nat); [by right | left; lia]
                      | left; lia].
      * unfold remove_one. rewrite Hcmp, E. simpl.
        rewrite getitem_last. simpl. by rewrite slice_to_last.
    + destruct p as [| y p' _] using rev_ind.
      { exfalso. destruct tie; simpl in *; unfold len in E; simpl in E; lia. }
      apply (Hpair p' y); [done | |].
      * rewrite length_app in *. unfold len in E. rewrite length_app in E. simpl in *.
        destruct tie; [left; lia
                      | destruct (decide (length ids = length p' + 1)%nat); [by right | left; lia]].
      * unfold remove_one. rewrite Hcmp, E. simpl. by rewrite slice_to_last.
  - destruct ids as [| x ids' _] using rev_ind.
    { simpl in Hn. lia. }
    apply (Hids ids' x); [done | done |].
    unfold remove_one. rewrite getitem_last. simpl. by rewrite slice_to_last.
Qed.

(** C2 (as stated) fails: with [ids = [1; 2; 3]] and [pair_ids = [4; 5]] the
    call starts with [ids] the longer sequence, so the second loop runs; its
    second pass meets equal lengths and takes the token from [pair_ids],
    where removing from [ids] on every tie gives another result. *)
Lemma longest_first_tie_counterexample :
  truncate_sequences [1; 2; 3] (Some [4; 5]) 2 "longest_first" 0 = Ok ([1; 2], Some [4], [3])
  ∧ remove_one Z.gtb ([1; 2], Some [4; 5], [3]) = Ok ([1; 2], Some [4], [3])
  ∧ longest_first_ties_to_ids [1; 2; 3] (Some [4; 5]) 2 = ([1], Some [4; 5], [2; 3])
  ∧ truncate_sequences [1; 2; 3] (Some [4; 5]) 2 "longest_first" 0
      ≠ Ok (longest_first_ties_to_ids [1; 2; 3] (Some [4; 5]) 2).
Proof. split_and!; [reflexivity | reflexivity | reflexivity | discriminate]. Qed.

(** Past the last token the first loop raises instead of removing. *)
Example longest_first_exhausted :
  truncate_sequences [] (Some []) 1 "longest_first" 0 = Raise IndexError.
Proof. reflexivity. Qed.

Example truncate_longest_first_single :
  truncate_sequences [1; 2; 3; 4; 5] None 2 "longest_first" 0 = Ok ([1; 2; 3], None, [4; 5]).
Proof. reflexivity. Qed.

Lemma ties_go_to_ids_geb ids pair_ids :
  (match pair_ids with
   | None => true
   | Some p => len ids <=? len p
   end) = ties_go_to_ids ids pair_ids.
Proof.
  destruct pair_ids as [p |]; [| done]. unfold ties_go_to_ids, len.
  destruct (length ids <=? length p)%nat eqn:E; lia.
Qed.

(** What the 'longest_first' branch returns while tokens remain. *)
Lemma longest_first_run ids pair_ids n stride :
  0 < n → (Z.to_nat n ≤ length ids + pair_length pair_ids)%nat →
  ∃ kept kept_pair removed,
    nsteps (removal_step (ties_go_to_ids ids pair_ids)) (Z.to_nat n)
      (ids, pair_ids, []) (kept, kept_pair, removed)
    ∧ ids = kept ++ removed
    ∧ truncate_sequences ids pair_ids n "longest_first" stride
        = Ok (kept, kept_pair, last_tokens (Z.to_nat stride) kept ++ removed).
Proof.
  intros Hn Hle. unfold truncate_sequences.
  destruct (n <=? 0) eqn:E; [lia |]. clear E. simpl String.eqb. cbv iota.
  rewrite ties_go_to_ids_geb.
  assert (∃ kept kept_pair removed,
            (if ties_go_to_ids ids pair_ids
             then for_range (Z.to_nat n) (remove_one Z.geb) (ids, pair_ids, [])
             else for_range (Z.to_nat n) (remove_one Z.gtb) (ids, pair_ids, []))
              = Ok (kept, kept_pair, removed)
            ∧ nsteps (removal_step (ties_go_to_ids ids pair_ids)) (Z.to_nat n)
                (ids, pair_ids, []) (kept, kept_pair, removed)
            ∧ ids = kept ++ removed) as (kept & kept_pair & removed & Hrun & Hsteps & Hids).
  { destruct (ties_go_to_ids ids pair_ids).
    - destruct (for_range_remove_one Z.geb true (λ _ _, eq_refl) (Z.to_nat n) ids pair_ids [] Hle)
        as (kept & kept_pair & removed & Hrun & Hsteps & Hids).
      rewrite app_nil_r in *. eauto 10.
    - destruct (for_range_remove_one Z.gtb false (λ _ _, eq_refl) (Z.to_nat n) ids pair_ids [] Hle)
        as (kept & kept_pair & removed & Hrun & Hsteps & Hids).
      rewrite app_nil_r in *. eauto 10. }
  exists kept, kept_pair, removed. split_and!; [done | done |]. rewrite Hrun. simpl.
  destruct (0 <? Z.min (len kept) stride) eqn:E.
  - rewrite slice_from_neg by lia. do 3 f_equal.
    destruct (Z.le_ge_cases (len kept) stride) as [Hk | Hk].
    + rewrite Z.min_l by done. unfold len in *. rewrite Nat2Z.id.
      rewrite !last_tokens_ge; [done | lia | lia].
    + by rewrite Z.min_r.
  - do 2 f_equal.
    destruct (decide (stride ≤ 0)) as [Hs | Hs].
    + replace (Z.to_nat stride) with O by lia. by rewrite last_tokens_0.
    + assert (kept = []) as -> by (apply length_zero_iff_nil; unfold len in E; lia). done.
Qed.

(** C2 (amended): while tokens remain, 'longest_first' performs
    [num_tokens_to_remove] removal steps, each taking one token from the end
    of the currently longer sequence; on equal lengths the token comes from
    [ids] when the call started with [len(ids) <= len(pair_ids)] (or without
    a pair) and from [pair_ids] when it started with [len(ids) > len(pair_ids)].
    Only the tokens removed from [ids] are collected, in their original
    order, into the overflow, after the [stride] look-back tokens. *)
Theorem longest_first_removal_steps ids pair_ids n stride :
  0 < n → (Z.to_nat n ≤ length ids + pair_length pair_ids)%nat →
  ∃ kept kept_pair removed,
    nsteps (removal_step (ties_go_to_ids ids pair_ids)) (Z.to_nat n)
      (ids, pair_ids, []) (kept, kept_pair, removed)
    ∧ ids = kept ++ removed
    ∧ truncate_sequences ids pair_ids n "longest_first" stride
        = Ok (kept, kept_pair, last_tokens (Z.to_nat stride) kept ++ removed).
Proof. apply longest_first_run. Qed.

Lemma longest_first_removal_steps_witness :
  ∃ kept kept_pair removed,
    nsteps (removal_step (ties_go_to_ids [1; 2; 3] (Some [4; 5]))) (Z.to_nat 2)
      ([1; 2; 3], Some [4; 5], []) (kept, kept_pair, removed)
    ∧ [1; 2; 3] = kept ++ removed
    ∧ truncate_sequences [1; 2; 3] (Some [4; 5]) 2 "longest_first" 1
        = Ok (kept, kept_pair, last_tokens (Z.to_nat 1) kept ++ removed).
Proof. apply (longest_first_removal_steps [1; 2; 3] (Some [4; 5]) 2 1); [lia | simpl; lia]. Defined.

(** C6: 'longest_first' with [0 < num_tokens_to_remove <= len(ids) +
    len(pair_ids)] returns, and what it keeps plus what it was asked to
    remove is what it was given (an absent pair counting for nothing). *)
Theorem longest_first_conservation ids pair_ids n stride :
  0 < n → n ≤ len ids + Z.of_nat (pair_length pair_ids) →
  ∃ kept kept_pair overflow,
    truncate_sequences ids pair_ids n "longest_first" stride = Ok (kept, kept_pair, overflow)
    ∧ len kept + Z.of_nat (pair_length kept_pair) + n
      = len ids + Z.of_nat (pair_length pair_ids).
Proof.
  intros Hn Hle.
  destruct (longest_first_run ids pair_ids n stride Hn)
    as (kept & kept_pair & removed & Hsteps & _ & Hrun).
  { unfold len in Hle. lia. }
  exists kept, kept_pair, (last_tokens (Z.to_nat stride) kept ++ removed).
  split; [done |].
  apply removal_steps_length in Hsteps. simpl in Hsteps. unfold len. lia.
Qed.

Lemma longest_first_conservation_witness :
  ∃ kept kept_pair overflow,
    truncate_sequences [1; 2; 3] (Some [4; 5]) 4 "longest_first" 0 = Ok (kept, kept_pair, overflow)
    ∧ len kept + Z.of_nat (pair_length kept_pair) + 4
      = len [1; 2; 3] + Z.of_nat (pair_length (Some [4; 5])).
Proof.
  apply (longest_first_conservation [1; 2; 3] (Some [4; 5]) 4 0); [lia | vm_compute; discriminate].
Defined.

(** C5: 'only_first' fails its assertion when [len(ids) <=
    num_tokens_to_remove]; otherwise it cuts exactly that many tokens off the
    end of [ids], leaves [pair_ids] alone, and the overflow is the last
    [stride + num_tokens_to_remove] tokens of the [ids] it was given. *)
Theorem only_first_truncation ids pair_ids n stride :
  0 < n → 0 ≤ stride →
  (len ids ≤ n → truncate_sequences ids pair_ids n "only_first" stride = Raise AssertionError)
  ∧ (n < len ids →
     ∃ kept removed,
       ids = kept ++ removed ∧ len removed = n
       ∧ truncate_sequences ids pair_ids n "only_first" stride
           = Ok (kept, pair_ids, last_tokens (Z.to_nat (stride + n)) ids)).
Proof.
  intros Hn Hs. unfold truncate_sequences.
  destruct (n <=? 0) eqn:E; [lia |]. clear E. simpl String.eqb. cbv iota.
  split; intros Hlen.
  - destruct (n <? len ids) eqn:E; [lia | done].
  - destruct (n <? len ids) eqn:E; [| lia]. simpl.
    exists (take (length ids - Z.to_nat n) ids), (drop (length ids - Z.to_nat n) ids).
    split_and!.
    + by rewrite take_drop.
    + unfold len in *. rewrite length_drop. lia.
    + rewrite slice_to_neg by done. rewrite slice_from_neg by lia.
      do 2 f_equal.
      destruct (Z.le_ge_cases (len ids) (stride + n)) as [Hk | Hk].
      * rewrite Z.min_l by done. unfold len in *. rewrite Nat2Z.id.
        rewrite !last_tokens_ge; [done | lia | lia].
      * by rewrite Z.min_r.
Qed.

Lemma only_first_truncation_witness :
  (len [1; 2; 3; 4; 5] ≤ 2 →
   truncate_sequences [1; 2; 3; 4; 5] (Some [6]) 2 "only_first" 1 = Raise AssertionError)
  ∧ (2 < len [1; 2; 3; 4; 5] →
     ∃ kept removed,
       [1; 2; 3; 4; 5] = kept ++ removed ∧ len removed = 2
       ∧ truncate_sequences [1; 2; 3; 4; 5] (Some [6]) 2 "only_first" 1
           = Ok (kept, Some [6], last_tokens (Z.to_nat (1 + 2)) [1; 2; 3; 4; 5])).
Proof. apply (only_first_truncation [1; 2; 3; 4; 5] (Some [6]) 2 1); lia. Defined.

Example only_first_runs :
  truncate_sequences [1; 2; 3; 4; 5] (Some [6]) 2 "only_first" 1 = Ok ([1; 2; 3], Some [6], [3; 4; 5])
  ∧ truncate_sequences [1; 2] (Some [6]) 2 "only_first" 1 = Raise AssertionError.
Proof. split; reflexivity. Qed.

(** ** Token type ids *)

(** C10: the CLS position gets token type id 2, not 0: the result is [2],
    then one 0 for each token of the first sequence and its SEP, then, with
    a second sequence, one 1 for each of its tokens and its SEP. *)
Theorem token_type_ids_layout `{Tokenizer} (token_ids_0 token_ids_1 : list Z) :
  create_token_type_ids_from_sequences token_ids_0 None
    = [2] ++ replicate (length token_ids_0 + 1) 0
  ∧ create_token_type_ids_from_sequences token_ids_0 (Some token_ids_1)
    = [2] ++ replicate (length token_ids_0 + 1) 0 ++ replicate (length token_ids_1 + 1) 1
  ∧ length (create_token_type_ids_from_sequences token_ids_0 None)
    = (1 + (length token_ids_0 + 1))%nat
  ∧ length (create_token_type_ids_from_sequences token_ids_0 (Some token_ids_1))
    = (1 + (length token_ids_0 + 1) + (length token_ids_1 + 1))%nat.
Proof.
  assert (Htimes : ∀ (l : list Z) (x y : Z), times (len (l ++ [x])) y = replicate (length l + 1) y).
  { intros l x y. unfold times, len. rewrite Nat2Z.id, length_app. done. }
  unfold create_token_type_ids_from_sequences. rewrite !Htimes.
  change (times (len [cls_token_id]) cls_token_type_id) with [2].
  split_and!; [done | done | |]; simpl; rewrite ?length_app, !length_replicate; lia.
Qed.

(** ** Offset rematcher *)

Section RematchFacts.
Context `{Tokenizer}.

Lemma bind_singleton {A B : Type} (g : A → B) (l : list A) :
  (x ← l; [g x]) = g <$> l.
Proof. induction l as [| x l IH]; [done |]. csimpl. by rewrite IH. Qed.

Lemma custom_tokenize_zip text :
  length (source_words text) = length (_tokenize text)
  ∧ custom_tokenize text
    = zip_with (λ sub_token word, searched_token word sub_token)
        (_tokenize text) (source_words text).
Proof.
  unfold custom_tokenize, _tokenize, source_words.
  induction (basic_tokenize text) as [| token words [IHlen IH]]; [done |].
  csimpl. rewrite IH, !bind_singleton, !length_app, !length_fmap, IHlen.
  split; [done |].
  rewrite zip_with_app by (by rewrite !length_fmap).
  f_equal. rewrite list_fmap_id.
  induction (wordpiece_tokenize token) as [| sub_token subs IHs]; [done |].
  csimpl. rewrite IHs. f_equal. unfold searched_token.
  destruct (decide (sub_token = unk_token)), (decide (sub_token ≠ unk_token)); done.
Qed.

Lemma source_words_basic text word :
  word ∈ source_words text → word ∈ basic_tokenize text.
Proof.
  unfold source_words. intros (token & Hin & Htoken)%list_elem_of_bind.
  apply list_elem_of_fmap in Hin as (? & -> & _). done.
Qed.

(** Closed form of the first loop of [rematch], started in the middle of
    a text: [k] characters have been read already. *)
Lemma char_mapping_fold text : ∀ (k : nat) normalized_text char_mapping,
  foldl char_mapping_step (normalized_text, char_mapping) (imap (λ i x, ((k + i)%nat, x)) text)
  = (normalized_text ++ mjoin (normalize_char <$> text),
     char_mapping ++ mjoin (imap (λ i ch, replicate (length (normalize_char ch)) (k + i)%nat) text)).
Proof.
  induction text as [| ch text IH]; intros k normalized_text char_mapping.
  { simpl. by rewrite !app_nil_r. }
  csimpl. rewrite Nat.add_0_r.
  rewrite (imap_ext _ (λ i x, ((S k + i)%nat, x))) by (intros; simpl; f_equal; lia).
  rewrite IH, <- !(assoc_L (++)). unfold times, len. rewrite Nat2Z.id.
  do 4 f_equal. apply imap_ext. intros. simpl. f_equal. lia.
Qed.

Lemma build_char_mapping_eq text :
  build_char_mapping text
  = (mjoin (normalize_char <$> text),
     mjoin (imap (λ i ch, replicate (length (normalize_char ch)) i) text)).
Proof. unfold build_char_mapping, enumerate. apply (char_mapping_fold text O [] []). Qed.

Lemma char_mapping_blocks text : ∀ (k : nat),
  let normalized_text := mjoin (normalize_char <$> text) in
  let char_mapping :=
    mjoin (imap (λ i ch, replicate (length (normalize_char ch)) (k + i)%nat) text) in
  length char_mapping = length normalized_text
  ∧ ∀ (p i : nat), char_mapping !! p = Some i →
      (k ≤ i)%nat
      ∧ ∃ ch j, text !! (i - k)%nat = Some ch
        ∧ p = (length (mjoin (normalize_char <$> take (i - k) text)) + j)%nat
        ∧ is_Some (normalize_char ch !! j)
        ∧ normalized_text !! p = normalize_char ch !! j.
Proof.
  induction text as [| ch text IH]; intros k; csimpl.
  { split; [done |]. intros p i Hp. by rewrite lookup_nil in Hp. }
  rewrite (imap_ext _ (λ i x, replicate (length (normalize_char x)) (S k + i)%nat))
    by (intros; simpl; f_equal; lia).
  pose proof (IH (S k)) as IHk. cbv zeta in IHk. destruct IHk as [IHlen IHpos].
  rewrite !length_app, length_replicate, IHlen. split; [done |].
  intros p i Hp. rewrite Nat.add_0_r in Hp.
  destruct (decide (p < length (normalize_char ch))%nat) as [Hlt | Hge].
  - rewrite lookup_app_l in Hp by (by rewrite length_replicate).
    apply lookup_replicate in Hp as [-> _].
    split; [done |]. exists ch, p. rewrite Nat.sub_diag. csimpl.
    split_and!; [done | done | by apply lookup_lt_is_Some | by rewrite lookup_app_l].
  - rewrite lookup_app_r in Hp by (rewrite length_replicate; lia).
    rewrite length_replicate in Hp.
    destruct (IHpos _ _ Hp) as (Hki & c & j & Hc & Hpj & Hj & Hnt).
    split; [lia |]. exists c, j.
    replace (i - k)%nat with (S (i - S k)) by lia. csimpl.
    rewrite length_app. split_and!; [done | lia | done |].
    rewrite lookup_app_r by lia. done.
Qed.

Lemma char_mapping_sorted text : ∀ (k : nat) (p q i1 i2 : nat),
  let char_mapping :=
    mjoin (imap (λ i ch, replicate (length (normalize_char ch)) (k + i)%nat) text) in
  (p ≤ q)%nat → char_mapping !! p = Some i1 → char_mapping !! q = Some i2 → (i1 ≤ i2)%nat.
Proof.
  induction text as [| ch text IH]; intros k p q i1 i2; csimpl.
  { intros _ Hp. by rewrite lookup_nil in Hp. }
  rewrite (imap_ext _ (λ i x, replicate (length (normalize_char x)) (S k + i)%nat))
    by (intros; simpl; f_equal; lia).
  rewrite Nat.add_0_r. intros Hpq Hp Hq.
  destruct (decide (p < length (normalize_char ch))%nat) as [Hlt | Hge].
  - rewrite lookup_app_l in Hp by (by rewrite length_replicate).
    apply lookup_replicate in Hp as [-> _].
    destruct (decide (q < length (normalize_char ch))%nat) as [Hlt' | Hge'].
    + rewrite lookup_app_l in Hq by (by rewrite length_replicate).
      apply lookup_replicate in Hq as [-> _]. done.
    + rewrite lookup_app_r in Hq by (rewrite length_replicate; lia).
      destruct (char_mapping_blocks text (S k)) as [_ Hpos].
      apply Hpos in Hq as [Hq _]. lia.
  - rewrite lookup_app_r in Hp by (rewrite length_replicate; lia).
    rewrite lookup_app_r in Hq by (rewrite length_replicate; lia).
    eapply (IH (S k)); [| exact Hp | exact Hq]. lia.
Qed.

(** [rematch] returns one span per token it searched for. *)
Lemma for_each_locate_length normalized_text char_mapping tokens :
  ∀ token_mapping offset st,
    for_each (locate_token normalized_text char_mapping) tokens (token_mapping, offset) = Ok st →
    length st.1 = (length token_mapping + length tokens)%nat.
Proof.
  induction tokens as [| token tokens IH]; intros token_mapping offset st Hrun.
  { simpl in Hrun. injection Hrun as <-. simpl. lia. }
  simpl in Hrun. do 3 bind_ok Hrun.
  apply IH in Hrun. rewrite Hrun, length_app. simpl. lia.
Qed.

Lemma rematch_length text token_mapping :
  rematch text = Ok token_mapping → length token_mapping = length (get_input_ids text).
Proof.
  unfold rematch, get_input_ids, convert_tokens_to_ids.
  destruct (build_char_mapping text) as [normalized_text char_mapping].
  destruct (for_each _ _ _) as [st | |] eqn:Hrun; simpl; [| discriminate | discriminate].
  intros [= <-]. apply for_each_locate_length in Hrun. rewrite Hrun. simpl.
  rewrite length_fmap.
  destruct (custom_tokenize_zip text) as [Hlen ->].
  rewrite length_zip_with. lia.
Qed.
End RematchFacts.

(** C7: the tokens [rematch] goes through are those of [custom_tokenize]:
    position by position the sub-tokens of [_tokenize], except that a
    position where the WordPiece tokenizer gave the unknown token holds the
    coarse word of the basic tokenizer that this position comes from. *)
Theorem custom_tokenize_unknown_as_word `{Tokenizer} (text : str) :
  length (custom_tokenize text) = length (_tokenize text)
  ∧ (∀ (i : nat) sub_token, _tokenize text !! i = Some sub_token →
       ∃ word, source_words text !! i = Some word
         ∧ word ∈ basic_tokenize text
         ∧ custom_tokenize text !! i
           = Some (if decide (sub_token = unk_token) then word else sub_token))
  ∧ rematch text
    = (let '(normalized_text, char_mapping) := build_char_mapping text in
       st ← for_each (locate_token normalized_text char_mapping) (custom_tokenize text) ([], O);
       Ok st.1).
Proof.
  destruct (custom_tokenize_zip text) as [Hlen Hzip].
  split_and!; [| | done].
  - rewrite Hzip, length_zip_with. lia.
  - intros i sub_token Hsub.
    destruct (lookup_lt_is_Some_2 (source_words text) i) as [word Hword].
    { rewrite Hlen. by eapply lookup_lt_Some. }
    exists word. split_and!; [done | |].
    + apply source_words_basic. by eapply list_elem_of_lookup_2.
    + rewrite Hzip, lookup_zip_with, Hsub. simpl. rewrite Hword. done.
Qed.

(** C8: [char_mapping] has one entry per character of [normalized_text];
    entry [k] is the index [i] of the character of [text] whose normalization
    put character [k] there (the [j]-th one it produced, right after what
    the [i] characters before it produced); and the entries never decrease. *)
Theorem char_mapping_invariant `{Tokenizer} (text normalized_text : str) (char_mapping : list nat) :
  build_char_mapping text = (normalized_text, char_mapping) →
  length char_mapping = length normalized_text
  ∧ (∀ (k i : nat), char_mapping !! k = Some i →
       ∃ ch j, text !! i = Some ch
         ∧ k = (length (build_char_mapping (take i text)).1 + j)%nat
         ∧ is_Some (normalize_char ch !! j)
         ∧ normalized_text !! k = normalize_char ch !! j)
  ∧ (∀ (k1 k2 i1 i2 : nat), (k1 ≤ k2)%nat →
       char_mapping !! k1 = Some i1 → char_mapping !! k2 = Some i2 → (i1 ≤ i2)%nat).
Proof.
  rewrite build_char_mapping_eq. intros [= <- <-].
  pose proof (char_mapping_blocks text O) as Hblocks. cbv zeta in Hblocks.
  destruct Hblocks as [Hlen Hpos].
  split_and!; [done | |].
  - intros k i Hk. destruct (Hpos k i Hk) as (_ & ch & j & Hch & Hkj & Hj & Hnt).
    rewrite Nat.sub_0_r in *. exists ch, j. rewrite build_char_mapping_eq. done.
  - intros k1 k2 i1 i2. apply (char_mapping_sorted text O).
Qed.

Lemma char_mapping_invariant_witness :
  length sample_mixed_mapping = length sample_mixed_normalized
  ∧ (∀ (k i : nat), sample_mixed_mapping !! k = Some i →
       ∃ ch j, sample_mixed !! i = Some ch
         ∧ k = (length (@build_char_mapping sample_bert (take i sample_mixed)).1 + j)%nat
         ∧ is_Some (@normalize_char sample_bert ch !! j)
         ∧ sample_mixed_normalized !! k = @normalize_char sample_bert ch !! j)
  ∧ (∀ (k1 k2 i1 i2 : nat), (k1 ≤ k2)%nat →
       sample_mixed_mapping !! k1 = Some i1 → sample_mixed_mapping !! k2 = Some i2 → (i1 ≤ i2)%nat).
Proof.
  apply (@char_mapping_invariant sample_bert sample_mixed sample_mixed_normalized
           sample_mixed_mapping).
  reflexivity.
Defined.

Lemma custom_tokenize_unknown_as_word_witness :
  ∃ word, @source_words sample_bert sample_mixed !! 1%nat = Some word
    ∧ word ∈ @basic_tokenize sample_bert sample_mixed
    ∧ @custom_tokenize sample_bert sample_mixed !! 1%nat
      = Some (if decide (sample_unk = @unk_token sample_bert) then word else sample_unk).
Proof.
  apply (proj1 (proj2 (@custom_tokenize_unknown_as_word sample_bert sample_mixed)) 1%nat sample_unk).
  reflexivity.
Defined.

Example custom_tokenize_sample :
  @_tokenize sample_bert sample_mixed = [[97]; sample_unk; [98]]
  ∧ @custom_tokenize sample_bert sample_mixed = [[97]; [7]; [98]].
Proof. split; reflexivity. Qed.

Example char_mapping_sample :
  @build_char_mapping sample_bert sample_mixed = (sample_mixed_normalized, sample_mixed_mapping).
Proof. reflexivity. Qed.

(** ** The encoded example of one window *)

Section WindowFacts.
Context `{Tokenizer}.

Lemma length_times {A : Type} (n : Z) (x : A) : length (times n x) = Z.to_nat n.
Proof. apply length_replicate. Qed.

Lemma length_range (n : nat) : length (range n) = n.
Proof. unfold range. by rewrite length_fmap, length_seq. Qed.

Lemma length_token_type_ids (ids pair_ids : list Z) :
  length (create_token_type_ids_from_sequences ids (Some pair_ids))
  = (length ids + length pair_ids + 3)%nat.
Proof.
  unfold create_token_type_ids_from_sequences, times, len.
  repeat (rewrite length_app || rewrite length_replicate || rewrite Nat2Z.id). simpl. lia.
Qed.

Lemma length_offset_mapping (mapping pair_mapping : list span) :
  length (build_offset_mapping_with_special_tokens mapping (Some pair_mapping))
  = (length mapping + length pair_mapping + 3)%nat.
Proof.
  unfold build_offset_mapping_with_special_tokens. rewrite !length_app. simpl. lia.
Qed.

Lemma special_tokens_mask_pair (ids pair_ids : list Z) :
  ∃ mask, get_special_tokens_mask ids (Some pair_ids) false = Ok mask
    ∧ length mask = (length ids + length pair_ids + 3)%nat.
Proof.
  eexists. split; [reflexivity |].
  unfold times, len.
  repeat (rewrite length_app || rewrite length_replicate || rewrite Nat2Z.id). simpl. lia.
Qed.

Ltac lengths :=
  unfold len in *;
  repeat first
    [ rewrite length_app | rewrite length_times | rewrite length_range
    | rewrite length_nil | rewrite app_nil_r ].

Ltac field_length Hin :=
  injection Hin as -> ->; lengths;
  first [left; lia | right; left; lia | right; right; lia].

Ltac window_case padl padr :=
  solve
    [ eexists; exists padl, padr; eexists;
      split_and!;
      [ reflexivity
      | cbn; rewrite ?app_nil_r; reflexivity
      | reflexivity
      | reflexivity
      | cbn; lengths; lia
      | cbn; lengths; lia
      | let Hin := fresh "Hin" in
        intros key n Hin; cbn in Hin;
        repeat (apply elem_of_cons in Hin as [Hin | Hin]; [field_length Hin |]);
        by apply elem_of_nil in Hin ] ].

(** What one pass puts into [encoded_inputs]: it fails exactly when the
    sequence with its special tokens exceeds [max_seq_len]; otherwise
    [input_ids] is that sequence between two runs of padding, and every
    sequence field is one of three unpadded lengths plus that padding. *)
Lemma encode_window_spec args example_id ids mapping pair_ids pair_mapping :
  let sequence := build_inputs_with_special_tokens ids (Some pair_ids) in
  if len sequence <=? max_seq_len args then
    ∃ encoded_inputs padl padr spans,
      encode_window args example_id ids mapping pair_ids pair_mapping = Ok encoded_inputs
      ∧ input_ids encoded_inputs = Some (padl ++ sequence ++ padr)
      ∧ overflow_to_sample encoded_inputs = Some (Z.of_nat example_id)
      ∧ offset_mapping encoded_inputs = Some spans
      ∧ length spans = (length padl + (length mapping + length pair_mapping + 3) + length padr)%nat
      ∧ (length (padl ++ sequence ++ padr) = length sequence
         ∨ len (padl ++ sequence ++ padr) = max_seq_len args)
      ∧ ∀ key n, (key, n) ∈ sequence_fields encoded_inputs →
          n = (length padl + length sequence + length padr)%nat
          ∨ n = (length padl + (length ids + length pair_ids + 3) + length padr)%nat
          ∨ n = (length padl + (length mapping + length pair_mapping + 3) + length padr)%nat
  else encode_window args example_id ids mapping pair_ids pair_mapping = Raise AssertionError.
Proof.
  intros sequence. unfold encode_window.
  destruct (special_tokens_mask_pair ids pair_ids) as (mask & -> & Hmask).
  pose proof (length_token_type_ids ids pair_ids) as Htti.
  pose proof (length_offset_mapping mapping pair_mapping) as Hom.
  fold sequence.
  set (tti := create_token_type_ids_from_sequences ids (Some pair_ids)) in *.
  set (om := build_offset_mapping_with_special_tokens mapping (Some pair_mapping)) in *.
  clearbody tti om.
  destruct (return_token_type_ids args), (return_special_tokens_mask args),
    (return_length args), (return_attention_mask args), (return_position_ids args),
    (pad_to_max_seq_len args).
  all: cbn -[Z.leb Z.ltb Z.eqb String.eqb len times range sequence_fields].
  all: destruct (len sequence <=? max_seq_len args) eqn:Hle;
    cbn -[Z.leb Z.ltb Z.eqb String.eqb len times range sequence_fields]; [| reflexivity].
  all: repeat match goal with
         | |- context [if ?c then _ else _] =>
           destruct c eqn:?; cbn -[Z.leb Z.ltb Z.eqb String.eqb len times range sequence_fields]
         end.
  all: first
    [ window_case (@nil Z) (@nil Z)
    | window_case (@nil Z) (times (max_seq_len args - len sequence) pad_token_id)
    | window_case (times (max_seq_len args - len sequence) pad_token_id) (@nil Z) ].
Qed.
End WindowFacts.

(** ** The window loop *)

Section SliceFacts.
Context {A B : Type}.

Lemma length_slice_to (l : list A) (l' : list B) (k : Z) :
  length l = length l' → length (slice_to l k) = length (slice_to l' k).
Proof. intros Hlen. unfold slice_to. destruct (0 <=? k); rewrite !length_take; lia. Qed.

Lemma length_slice_from (l : list A) (l' : list B) (k : Z) :
  length l = length l' → length (slice_from l k) = length (slice_from l' k).
Proof. intros Hlen. unfold slice_from. destruct (0 <=? k); rewrite !length_drop; lia. Qed.
End SliceFacts.

(** Where the windows lie. *)
Section RangeFacts.
Variables m d L : nat.

Lemma length_window_ranges n o : length (window_ranges n m d L o) = S n.
Proof. revert o. induction n as [| n IH]; intros o; simpl; [done | by rewrite IH]. Qed.

Lemma window_ranges_full n : ∀ o k,
  (k < n)%nat → window_ranges n m d L o !! k = Some (o + k * d, o + k * d + m)%nat.
Proof.
  induction n as [| n IH]; intros o k Hk; [lia |].
  destruct k as [| k]; simpl.
  - do 2 f_equal; lia.
  - rewrite IH by lia. do 2 f_equal; lia.
Qed.

Lemma window_ranges_last n : ∀ o,
  window_ranges n m d L o !! n = Some (o + n * d, L)%nat.
Proof.
  induction n as [| n IH]; intros o; simpl.
  - do 2 f_equal; lia.
  - rewrite IH. do 2 f_equal; lia.
Qed.

Lemma window_ranges_lookup n o k r :
  window_ranges n m d L o !! k = Some r →
  (k < n ∧ r = (o + k * d, o + k * d + m))%nat ∨ (k = n ∧ r = (o + n * d, L)%nat).
Proof.
  intros Hk. pose proof (lookup_lt_Some _ _ _ Hk) as Hlt.
  rewrite length_window_ranges in Hlt.
  destruct (decide (k < n)%nat) as [Hkn | Hkn].
  - left. rewrite window_ranges_full in Hk by done. by injection Hk as <-.
  - right. assert (k = n) as -> by lia.
    rewrite window_ranges_last in Hk. by injection Hk as <-.
Qed.

Lemma window_ranges_cover n : ∀ o p,
  (d ≤ m)%nat → (o ≤ p < L)%nat →
  ∃ r, r ∈ window_ranges n m d L o ∧ (r.1 ≤ p < r.2)%nat.
Proof.
  induction n as [| n IH]; intros o p Hd Hp; simpl.
  - exists (o, L). split; [apply list_elem_of_here | done].
  - destruct (decide (p < o + m)%nat) as [Hlt | Hge].
    + exists (o, (o + m)%nat). split; [apply list_elem_of_here | simpl; lia].
    + destruct (IH (o + d)%nat p Hd) as (r & Hr & Hpr); [lia |].
      exists r. split; [by apply list_elem_of_further | done].
Qed.

(** [full_windows] is the number of windows that leave pair tokens over. *)
Lemma full_windows_spec :
  (0 < d)%nat →
  (∀ k, k < full_windows L m d → k * d + m < L)%nat
  ∧ (L ≤ full_windows L m d * d + m)%nat.
Proof.
  intros Hd. unfold full_windows.
  pose proof (Nat.div_mod (L - m + d - 1) d ltac:(lia)) as Hdiv.
  pose proof (Nat.mod_upper_bound (L - m + d - 1) d ltac:(lia)) as Hmod.
  set (q := ((L - m + d - 1) / d)%nat) in *.
  set (r := ((L - m + d - 1) mod d)%nat) in *.
  split.
  - intros k Hk. assert (k * d + d ≤ q * d)%nat by nia. nia.
  - nia.
Qed.
End RangeFacts.

Section LoopFacts.
Context `{Tokenizer}.

Lemma pair_layout_length pre mid post (a b : list Z) :
  pair_layout pre mid post →
  len (build_inputs_with_special_tokens a (Some b))
  = len a + len b + num_special_tokens_to_add true.
Proof.
  intros Hlayout. unfold num_special_tokens_to_add. rewrite !Hlayout.
  unfold len. repeat rewrite length_app. simpl. lia.
Qed.

(** With the budget the loop computes, a pair slice within the budget
    passes the length assertion. *)
Lemma pair_layout_fits pre mid post args (first_ids pair_ids : list Z) :
  pair_layout pre mid post →
  len pair_ids ≤ max_len_for_pair_of args first_ids →
  len (build_inputs_with_special_tokens first_ids (Some pair_ids)) ≤ max_seq_len args.
Proof.
  intros Hlayout Hle. rewrite (pair_layout_length pre mid post) by done.
  unfold max_len_for_pair_of in Hle. lia.
Qed.

Lemma sliding_windows_S fuel args example_id first_ids token_offset_mapping
    max_len_for_pair second_ids token_pair_offset_mapping batch_encode_inputs :
  sliding_windows (S fuel) args example_id first_ids token_offset_mapping
    max_len_for_pair second_ids token_pair_offset_mapping batch_encode_inputs
  = (let '(pair_ids, pair_mapping) :=
       if len second_ids <=? max_len_for_pair
       then (second_ids, token_pair_offset_mapping)
       else (slice_to second_ids max_len_for_pair,
             slice_to token_pair_offset_mapping max_len_for_pair) in
     encoded_inputs ←
       encode_window args example_id first_ids token_offset_mapping pair_ids pair_mapping;
     if len second_ids <=? max_len_for_pair
     then Ok (batch_encode_inputs ++ [encoded_inputs])
     else sliding_windows fuel args example_id first_ids token_offset_mapping
            max_len_for_pair
            (slice_from second_ids (max_len_for_pair - stride args))
            (slice_from token_pair_offset_mapping (max_len_for_pair - stride args))
            (batch_encode_inputs ++ [encoded_inputs])).
Proof. reflexivity. Qed.

Variables (args : batch_args) (example_id : nat).
Variables (first_ids : list Z) (token_offset_mapping : list span).
Variables (second_ids : list Z) (token_pair_offset_mapping : list span).
Variables (m d : nat).

Hypothesis fits : ∀ pair_ids : list Z,
  (length pair_ids ≤ m)%nat →
  len (build_inputs_with_special_tokens first_ids (Some pair_ids)) ≤ max_seq_len args.

Hypothesis step : Z.of_nat m - stride args = Z.of_nat d.

Lemma encode_window_fits pair_ids pair_mapping :
  (length pair_ids ≤ m)%nat →
  ∃ encoded_inputs,
    encode_window args example_id first_ids token_offset_mapping pair_ids pair_mapping
    = Ok encoded_inputs.
Proof.
  intros Hle.
  pose proof (encode_window_spec args example_id first_ids token_offset_mapping
                pair_ids pair_mapping) as Hspec.
  cbv zeta in Hspec. apply fits in Hle.
  destruct (len (build_inputs_with_special_tokens first_ids (Some pair_ids))
            <=? max_seq_len args) eqn:E; [| lia].
  destruct Hspec as (encoded_inputs & _ & _ & _ & Hrun & _). eauto.
Qed.

(** The loop started [o] tokens into the pair, when [n] more windows leave
    tokens over: it needs [n + 1] passes and appends the windows at
    [window_ranges n m d L o]. *)
Lemma sliding_windows_run (n : nat) : ∀ (o : nat) batch_encode_inputs,
  (∀ k, k < n → o + k * d + m < length second_ids)%nat →
  (length second_ids ≤ o + n * d + m)%nat →
  ∃ wins,
    windows_at args example_id first_ids token_offset_mapping second_ids
      (window_ranges n m d (length second_ids) o) wins
    ∧ ∀ fuel,
        sliding_windows fuel args example_id first_ids token_offset_mapping (Z.of_nat m)
          (drop o second_ids) (drop o token_pair_offset_mapping) batch_encode_inputs
        = if decide (n < fuel)%nat then Ok (batch_encode_inputs ++ wins) else OutOfFuel.
Proof.
  induction n as [| n IH]; intros o batch_encode_inputs Hfull Hlast.
  - destruct (encode_window_fits (drop o second_ids) (drop o token_pair_offset_mapping))
      as [encoded_inputs Hrun].
    { rewrite length_drop. lia. }
    exists [encoded_inputs]. split.
    + repeat constructor. exists (drop o token_pair_offset_mapping).
      unfold pair_range. simpl. rewrite take_ge by (rewrite length_drop; lia). done.
    + intros [| fuel]; [done |].
      rewrite sliding_windows_S.
      assert ((len (drop o second_ids) <=? Z.of_nat m) = true) as ->
        by (unfold len; rewrite length_drop; lia).
      rewrite Hrun. done.
  - pose proof (Hfull O ltac:(lia)) as Hfirst.
    destruct (encode_window_fits (take m (drop o second_ids))
                (take m (drop o token_pair_offset_mapping))) as [encoded_inputs Hrun].
    { rewrite length_take. lia. }
    destruct (IH (o + d)%nat (batch_encode_inputs ++ [encoded_inputs]))
      as (wins & Hwins & Hloop).
    { intros k Hk. pose proof (Hfull (S k) ltac:(lia)). lia. }
    { lia. }
    exists (encoded_inputs :: wins). split.
    + constructor; [| done]. exists (take m (drop o token_pair_offset_mapping)).
      unfold pair_range. simpl. by replace (o + m - o)%nat with m by lia.
    + intros [| fuel]; [done |].
      rewrite sliding_windows_S.
      assert ((len (drop o second_ids) <=? Z.of_nat m) = false) as ->
        by (unfold len; rewrite length_drop; lia).
      rewrite !slice_to_nonneg, Hrun, step, !slice_from_nonneg, !drop_drop.
      cbn [mbind result_bind]. rewrite Hloop, <- (assoc_L (++)). simpl.
      destruct (decide (n < fuel)%nat), (decide (S n < S fuel)%nat); done || lia.
Qed.

(** With a stride as large as the budget the loop never moves on. *)
Lemma sliding_windows_stuck : ∀ fuel batch_encode_inputs,
  d = O → (0 < m < length second_ids)%nat →
  sliding_windows fuel args example_id first_ids token_offset_mapping (Z.of_nat m)
    second_ids token_pair_offset_mapping batch_encode_inputs
  = OutOfFuel.
Proof.
  induction fuel as [| fuel IH]; intros batch_encode_inputs Hd Hm; [done |].
  rewrite sliding_windows_S.
  assert ((len second_ids <=? Z.of_nat m) = false) as -> by (unfold len; lia).
  destruct (encode_window_fits (take m second_ids) (take m token_pair_offset_mapping))
    as [encoded_inputs Hrun].
  { rewrite length_take. lia. }
  rewrite !slice_to_nonneg, Hrun, step, Hd, !slice_from_nonneg.
  cbn [mbind result_bind]. simpl drop. by apply IH.
Qed.
End LoopFacts.

(** ** One batch item on the sliding-window path *)

Section ItemFacts.
Context `{Tokenizer}.

Lemma windows_at_length args example_id first_ids token_offset_mapping second_ids ranges wins :
  windows_at args example_id first_ids token_offset_mapping second_ids ranges wins →
  length wins = length ranges.
Proof. intros Hwins. symmetry. by eapply Forall2_length. Qed.

(** A window that was emitted: its [input_ids] hold the special-token
    layout of [first_ids] and the pair slice, inside the padding, and it
    points back to the batch item. *)
Lemma encode_window_emitted args example_id ids mapping pair_ids pair_mapping encoded_inputs :
  encode_window args example_id ids mapping pair_ids pair_mapping = Ok encoded_inputs →
  (∃ padl padr,
     input_ids encoded_inputs
     = Some (padl ++ build_inputs_with_special_tokens ids (Some pair_ids) ++ padr))
  ∧ overflow_to_sample encoded_inputs = Some (Z.of_nat example_id).
Proof.
  intros Hrun.
  pose proof (encode_window_spec args example_id ids mapping pair_ids pair_mapping) as Hspec.
  cbv zeta in Hspec.
  destruct (len (build_inputs_with_special_tokens ids (Some pair_ids)) <=? max_seq_len args);
    [| congruence].
  destruct Hspec as (e & padl & padr & spans & Hrun' & Hids & Hsample & _).
  assert (e = encoded_inputs) as -> by congruence. eauto.
Qed.

(** Under the layout of section 6 every field of an emitted window is as
    long as its [input_ids]. *)
Lemma encode_window_aligned args example_id ids mapping pair_ids pair_mapping encoded_inputs :
  (∀ a b, build_inputs_with_special_tokens a (Some b)
          = bert_build_inputs_with_special_tokens cls_token_id sep_token_id a (Some b)) →
  length mapping = length ids → length pair_mapping = length pair_ids →
  encode_window args example_id ids mapping pair_ids pair_mapping = Ok encoded_inputs →
  fields_aligned encoded_inputs.
Proof.
  intros Hbert Hmapping Hpair Hrun.
  pose proof (encode_window_spec args example_id ids mapping pair_ids pair_mapping) as Hspec.
  cbv zeta in Hspec.
  assert (length (build_inputs_with_special_tokens ids (Some pair_ids))
          = (length ids + length pair_ids + 3)%nat) as Hseq.
  { rewrite Hbert. simpl. rewrite !length_app. simpl. rewrite length_app. simpl. lia. }
  destruct (len (build_inputs_with_special_tokens ids (Some pair_ids)) <=? max_seq_len args);
    [| congruence].
  destruct Hspec as (e & padl & padr & spans & Hrun' & Hids & _ & Hspans & Hlen & _ & Hfields).
  assert (e = encoded_inputs) as -> by congruence.
  exists (padl ++ build_inputs_with_special_tokens ids (Some pair_ids) ++ padr), spans.
  rewrite !length_app, Hseq.
  split_and!; [done | done | lia |].
  intros key n Hin. destruct (Hfields key n Hin) as [-> | [-> | ->]]; lia.
Qed.

Lemma sliding_windows_aligned args example_id first_ids token_offset_mapping max_len_for_pair :
  (∀ a b, build_inputs_with_special_tokens a (Some b)
          = bert_build_inputs_with_special_tokens cls_token_id sep_token_id a (Some b)) →
  length token_offset_mapping = length first_ids →
  ∀ fuel second_ids token_pair_offset_mapping batch_encode_inputs out,
    length token_pair_offset_mapping = length second_ids →
    sliding_windows fuel args example_id first_ids token_offset_mapping max_len_for_pair
      second_ids token_pair_offset_mapping batch_encode_inputs = Ok out →
    ∃ wins, out = batch_encode_inputs ++ wins ∧ Forall fields_aligned wins.
Proof.
  intros Hbert Hfirst.
  induction fuel as [| fuel IH];
    intros second_ids token_pair_offset_mapping batch_encode_inputs out Hlen Hrun; [done |].
  rewrite sliding_windows_S in Hrun.
  destruct (len second_ids <=? max_len_for_pair) eqn:Hfit.
  - bind_ok Hrun. injection Hrun as <-.
    eexists [_]. split; [done |]. constructor; [| done].
    eapply encode_window_aligned; [exact Hbert | exact Hfirst | | exact E]. exact Hlen.
  - bind_ok Hrun.
    apply IH in Hrun as (wins & -> & Hwins); [| by apply length_slice_from].
    eexists (_ :: wins). split; [by rewrite <- (assoc_L (++)) |].
    constructor; [| done].
    eapply encode_window_aligned; [exact Hbert | exact Hfirst | | exact E].
    by apply length_slice_to.
Qed.

(** The sliding-window path of one item, for a stride below the budget. *)
Lemma encode_item_windows args example_id text text_pair pre mid post
    token_offset_mapping token_pair_offset_mapping batch_encode_inputs (m d : nat) :
  pair_layout pre mid post →
  max_len_for_pair_of args (get_input_ids text) = Z.of_nat m →
  stride args = Z.of_nat m - Z.of_nat d →
  (0 < d < m)%nat →
  rematch text = Ok token_offset_mapping →
  rematch text_pair = Ok token_pair_offset_mapping →
  ∃ wins,
    windows_at args example_id (get_input_ids text) token_offset_mapping
      (get_input_ids text_pair)
      (window_ranges (full_windows (length (get_input_ids text_pair)) m d) m d
         (length (get_input_ids text_pair)) O) wins
    ∧ ∀ fuel,
        encode_item fuel args example_id text (Some text_pair) batch_encode_inputs
        = if decide (full_windows (length (get_input_ids text_pair)) m d < fuel)%nat
          then Ok (batch_encode_inputs ++ wins) else OutOfFuel.
Proof.
  intros Hlayout Hm Hstride Hd Htext Hpair.
  destruct (full_windows_spec m d (length (get_input_ids text_pair))) as [Hfull Hlast]; [lia |].
  destruct (sliding_windows_run args example_id (get_input_ids text) token_offset_mapping
              (get_input_ids text_pair) token_pair_offset_mapping m d) with
    (n := full_windows (length (get_input_ids text_pair)) m d) (o := O)
    (batch_encode_inputs := batch_encode_inputs) as (wins & Hwins & Hloop).
  - intros pair_ids Hle. apply (pair_layout_fits pre mid post); [done |].
    rewrite Hm. unfold len. lia.
  - lia.
  - intros k Hk. apply Hfull in Hk. lia.
  - lia.
  - exists wins. split; [done |]. intros fuel.
    unfold encode_item. rewrite Htext, Hpair, Hm.
    destruct (0 <? stride args) eqn:E; [| lia].
    cbn [mbind result_bind]. apply Hloop.
Qed.
End ItemFacts.

(** ** The claims about the sliding-window path *)

(** C1: with [0 < stride < max_len_for_pair], the windows of a batch item
    all hold the whole of [first_ids]; the first starts at pair token 0, the
    last ends with the last pair token, each next window starts exactly
    [stride] tokens before the one before it ends (the last window too) and
    reaches further, and every pair token lies in some window. *)
Theorem sliding_windows_cover `{Tokenizer} (args : batch_args) (example_id : nat)
    (text text_pair : str) (pre mid post : list Z)
    (token_offset_mapping token_pair_offset_mapping : list span)
    (batch_encode_inputs : list encoded) :
  pair_layout pre mid post →
  0 < stride args < max_len_for_pair_of args (get_input_ids text) →
  rematch text = Ok token_offset_mapping →
  rematch text_pair = Ok token_pair_offset_mapping →
  ∃ ranges wins,
    (∀ fuel, (length wins ≤ fuel)%nat →
       encode_item fuel args example_id text (Some text_pair) batch_encode_inputs
       = Ok (batch_encode_inputs ++ wins))
    ∧ Forall2 (λ r encoded_inputs,
                 ∃ padl padr,
                   input_ids encoded_inputs
                   = Some (padl ++ pre ++ get_input_ids text ++ mid
                             ++ pair_range r (get_input_ids text_pair) ++ post ++ padr))
              ranges wins
    ∧ (∃ stop, ranges !! O = Some (O, stop))
    ∧ (∃ start, last ranges = Some (start, length (get_input_ids text_pair)))
    ∧ (∀ k r r', ranges !! k = Some r → ranges !! S k = Some r' →
         (r.1 < r'.1)%nat ∧ Z.of_nat r'.1 + stride args = Z.of_nat r.2 ∧ (r.2 < r'.2)%nat)
    ∧ (∀ p, (p < length (get_input_ids text_pair))%nat →
         ∃ r, r ∈ ranges ∧ (r.1 ≤ p < r.2)%nat).
Proof.
  intros Hlayout Hstride Htext Hpair.
  set (L := length (get_input_ids text_pair)).
  set (m := Z.to_nat (max_len_for_pair_of args (get_input_ids text))).
  set (d := Z.to_nat (max_len_for_pair_of args (get_input_ids text) - stride args)).
  destruct (encode_item_windows args example_id text text_pair pre mid post
              token_offset_mapping token_pair_offset_mapping batch_encode_inputs m d)
    as (wins & Hwins & Hloop); [done | lia | lia | lia | done | done |].
  fold L in Hwins, Hloop.
  destruct (full_windows_spec m d L) as [Hfull Hlast]; [lia |].
  set (n := full_windows L m d) in *.
  exists (window_ranges n m d L O), wins.
  pose proof (windows_at_length _ _ _ _ _ _ _ Hwins) as Hlen.
  rewrite length_window_ranges in Hlen.
  split_and!.
  - intros fuel Hfuel. rewrite Hloop. destruct (decide (n < fuel)%nat); [done | lia].
  - eapply Forall2_impl; [exact Hwins |].
    intros r encoded_inputs [pair_mapping Hrun].
    apply encode_window_emitted in Hrun as [(padl & padr & Hids) _].
    exists padl, padr. rewrite Hids, Hlayout. by rewrite <- !(assoc_L (++)).
  - destruct n as [| n'] eqn:En.
    + exists L. apply (window_ranges_last m d L O O).
    + exists m. by rewrite window_ranges_full by lia.
  - exists (n * d)%nat. rewrite last_lookup, length_window_ranges. simpl.
    apply window_ranges_last.
  - intros k r r' Hr Hr'.
    apply window_ranges_lookup in Hr as [[Hk ->] | [-> ->]];
      apply window_ranges_lookup in Hr' as [[Hk' ->] | [Hk' ->]]; simpl; try lia.
    apply Hfull in Hk. lia.
  - intros p Hp. apply window_ranges_cover; lia.
Qed.

Lemma sliding_windows_cover_witness :
  ∃ ranges wins,
    (∀ fuel, (length wins ≤ fuel)%nat →
       @encode_item sample_bert fuel (sample_args 12 2 true) 0 sample_text (Some sample_pair) []
       = Ok ([] ++ wins))
    ∧ Forall2 (λ r encoded_inputs,
                 ∃ padl padr,
                   input_ids encoded_inputs
                   = Some (padl ++ [2] ++ @get_input_ids sample_bert sample_text ++ [3]
                             ++ pair_range r (@get_input_ids sample_bert sample_pair)
                             ++ [3] ++ padr))
              ranges wins
    ∧ (∃ stop, ranges !! O = Some (O, stop))
    ∧ (∃ start, last ranges = Some (start, length (@get_input_ids sample_bert sample_pair)))
    ∧ (∀ k r r', ranges !! k = Some r → ranges !! S k = Some r' →
         (r.1 < r'.1)%nat ∧ Z.of_nat r'.1 + stride (sample_args 12 2 true) = Z.of_nat r.2
         ∧ (r.2 < r'.2)%nat)
    ∧ (∀ p, (p < length (@get_input_ids sample_bert sample_pair))%nat →
         ∃ r, r ∈ ranges ∧ (r.1 ≤ p < r.2)%nat).
Proof.
  apply (@sliding_windows_cover sample_bert (sample_args 12 2 true) 0 sample_text sample_pair
           [2] [3] [3]
           [(0, 1); (1, 2); (2, 3); (3, 4); (4, 5)]%nat
           ((λ i, (i, S i)) <$> seq 0 20) []).
  - intros a b. reflexivity.
  - vm_compute. split; reflexivity.
  - reflexivity.
  - reflexivity.
Defined.

(** C3 (as stated) fails: the layout [[cls] A [sep] B [sep]] puts three
    special tokens around a pair, not four.  With 5 first tokens, 20 pair
    tokens, [max_seq_len = 12] and [stride = 2] the budget is 4, not 3, the
    window moves on by two tokens, and the run emits 9 windows, not 8. *)
Lemma sliding_windows_example_counterexample :
  len (@get_input_ids sample_bert sample_text) = 5
  ∧ len (@get_input_ids sample_bert sample_pair) = 20
  ∧ (∀ a b, @build_inputs_with_special_tokens sample_bert a (Some b)
            = bert_build_inputs_with_special_tokens
                (@cls_token_id sample_bert) (@sep_token_id sample_bert) a (Some b))
  ∧ @num_special_tokens_to_add sample_bert true = 3
  ∧ @num_special_tokens_to_add sample_bert true ≠ 4
  ∧ @max_len_for_pair_of sample_bert (sample_args 12 2 false)
      (@get_input_ids sample_bert sample_text) = 4
  ∧ @max_len_for_pair_of sample_bert (sample_args 12 2 false)
      (@get_input_ids sample_bert sample_text) ≠ 3
  ∧ ∃ wins,
      @batch_encode sample_bert 9 (sample_args 12 2 false) [(sample_text, Some sample_pair)]
      = Ok wins
      ∧ length wins = 9%nat
      ∧ length wins ≠ 8%nat.
Proof.
  split_and!;
    [reflexivity | reflexivity | by intros a b | reflexivity | discriminate
    | reflexivity | discriminate |].
  eexists. split_and!; [vm_compute; reflexivity | reflexivity | discriminate].
Qed.

(** C3 (amended): under the layout [[cls] A [sep] B [sep]] a pair costs
    three special tokens, so for such an item [max_len_for_pair] is 4 and
    the loop makes exactly 9 passes, emitting 9 windows; the last one (as
    every one) has the item's batch index as [overflow_to_sample]. *)
Theorem sliding_windows_example `{Tokenizer} (args : batch_args) (example_id : nat)
    (text text_pair : str)
    (token_offset_mapping token_pair_offset_mapping : list span)
    (batch_encode_inputs : list encoded) :
  (∀ a b, build_inputs_with_special_tokens a (Some b)
          = bert_build_inputs_with_special_tokens cls_token_id sep_token_id a (Some b)) →
  len (get_input_ids text) = 5 →
  len (get_input_ids text_pair) = 20 →
  max_seq_len args = 12 →
  stride args = 2 →
  rematch text = Ok token_offset_mapping →
  rematch text_pair = Ok token_pair_offset_mapping →
  num_special_tokens_to_add true = 3
  ∧ max_len_for_pair_of args (get_input_ids text) = 4
  ∧ ∃ wins,
      length wins = 9%nat
      ∧ (∀ fuel,
           encode_item fuel args example_id text (Some text_pair) batch_encode_inputs
           = if decide (9 ≤ fuel)%nat then Ok (batch_encode_inputs ++ wins) else OutOfFuel)
      ∧ ∃ encoded_inputs,
          last wins = Some encoded_inputs
          ∧ overflow_to_sample encoded_inputs = Some (Z.of_nat example_id).
Proof.
  intros Hbert Hfirst Hsecond Hmax Hstride Htext Hpair.
  assert (pair_layout [cls_token_id] [sep_token_id] [sep_token_id]) as Hlayout
    by (intros a b; by rewrite Hbert).
  assert (num_special_tokens_to_add true = 3) as Hspecial
    by (unfold num_special_tokens_to_add; by rewrite Hbert).
  assert (max_len_for_pair_of args (get_input_ids text) = 4) as Hm
    by (unfold max_len_for_pair_of; lia).
  split_and!; [done | done |].
  destruct (encode_item_windows args example_id text text_pair
              [cls_token_id] [sep_token_id] [sep_token_id]
              token_offset_mapping token_pair_offset_mapping batch_encode_inputs 4 2)
    as (wins & Hwins & Hloop); [done | done | lia | lia | done | done |].
  assert (length (get_input_ids text_pair) = 20%nat) as HL by (unfold len in Hsecond; lia).
  rewrite HL in Hwins, Hloop.
  change (full_windows 20 4 2) with 8%nat in Hwins, Hloop.
  exists wins.
  pose proof (windows_at_length _ _ _ _ _ _ _ Hwins) as Hlen.
  rewrite length_window_ranges in Hlen.
  split_and!; [done | |].
  - intros fuel. rewrite Hloop.
    destruct (decide (8 < fuel)%nat), (decide (9 ≤ fuel)%nat); done || lia.
  - destruct (lookup_lt_is_Some_2 wins 8) as [encoded_inputs He]; [lia |].
    exists encoded_inputs. split; [by rewrite last_lookup, Hlen |].
    eapply Forall2_lookup_r in Hwins as (r & _ & pair_mapping & Hrun); [| exact He].
    by apply encode_window_emitted in Hrun as [_ Hsample].
Qed.

Lemma sliding_windows_example_witness :
  @num_special_tokens_to_add sample_bert true = 3
  ∧ @max_len_for_pair_of sample_bert (sample_args 12 2 false)
      (@get_input_ids sample_bert sample_text) = 4
  ∧ ∃ wins,
      length wins = 9%nat
      ∧ (∀ fuel,
           @encode_item sample_bert fuel (sample_args 12 2 false) 4 sample_text
             (Some sample_pair) []
           = if decide (9 ≤ fuel)%nat then Ok ([] ++ wins) else OutOfFuel)
      ∧ ∃ encoded_inputs,
          last wins = Some encoded_inputs
          ∧ overflow_to_sample encoded_inputs = Some (Z.of_nat 4).
Proof.
  apply (@sliding_windows_example sample_bert (sample_args 12 2 false) 4 sample_text sample_pair
           [(0, 1); (1, 2); (2, 3); (3, 4); (4, 5)]%nat
           ((λ i, (i, S i)) <$> seq 0 20) []).
  - intros a b. reflexivity.
  - reflexivity.
  - reflexivity.
  - reflexivity.
  - reflexivity.
  - reflexivity.
  - reflexivity.
Defined.

(** C4: under the layout [[cls] A [sep] B [sep]], every encoded example the
    sliding-window path emits has all its sequence fields ([input_ids],
    [token_type_ids], [attention_mask], [special_tokens_mask],
    [position_ids], [offset_mapping]) of one length, that of [input_ids];
    [offset_mapping] is always there. *)
Theorem sliding_windows_fields_aligned `{Tokenizer} (args : batch_args) (example_id fuel : nat)
    (text text_pair : str) (batch_encode_inputs out : list encoded) :
  (∀ a b, build_inputs_with_special_tokens a (Some b)
          = bert_build_inputs_with_special_tokens cls_token_id sep_token_id a (Some b)) →
  0 < stride args →
  encode_item fuel args example_id text (Some text_pair) batch_encode_inputs = Ok out →
  ∃ wins, out = batch_encode_inputs ++ wins ∧ Forall fields_aligned wins.
Proof.
  intros Hbert Hstride Hrun. unfold encode_item in Hrun.
  destruct (0 <? stride args) eqn:E; [| lia].
  destruct (rematch text) as [token_offset_mapping | |] eqn:Htext; [| done | done].
  destruct (rematch text_pair) as [token_pair_offset_mapping | |] eqn:Hpair; [| done | done].
  cbn [mbind result_bind] in Hrun.
  eapply sliding_windows_aligned; [exact Hbert | | | exact Hrun].
  - by apply rematch_length.
  - by apply rematch_length.
Qed.

Lemma sliding_windows_fields_aligned_witness :
  ∃ out wins,
    @encode_item sample_bert 9 (sample_args 13 2 true) 0 sample_text (Some sample_pair) []
    = Ok out
    ∧ out = [] ++ wins ∧ Forall fields_aligned wins.
Proof.
  eexists.
  assert (@encode_item sample_bert 9 (sample_args 13 2 true) 0 sample_text (Some sample_pair) []
          = Ok _) as Hrun by (vm_compute; reflexivity).
  destruct (@sliding_windows_fields_aligned sample_bert (sample_args 13 2 true) 0 9
              sample_text sample_pair [] _ (λ a b, eq_refl) ltac:(reflexivity) Hrun)
    as (wins & Hout & Haligned).
  exists wins. split_and!; [exact Hrun | exact Hout | exact Haligned].
Defined.

(** C9: entered with more pair tokens than [max_len_for_pair], the loop
    ends when [0 < stride < max_len_for_pair], after exactly
    [1 + ceil((len(second_ids) - max_len_for_pair) / (max_len_for_pair - stride))]
    passes, one window each; with [stride = max_len_for_pair] a pass leaves
    [second_ids] as it was and the loop never ends. *)
Theorem sliding_windows_termination `{Tokenizer} (args : batch_args) (example_id : nat)
    (first_ids second_ids : list Z) (pre mid post : list Z)
    (token_offset_mapping token_pair_offset_mapping : list span)
    (batch_encode_inputs : list encoded) :
  pair_layout pre mid post →
  0 < stride args →
  max_len_for_pair_of args first_ids < len second_ids →
  (stride args < max_len_for_pair_of args first_ids →
   ∃ wins,
     Z.of_nat (length wins)
     = 1 + ceil_div (len second_ids - max_len_for_pair_of args first_ids)
             (max_len_for_pair_of args first_ids - stride args)
     ∧ ∀ fuel,
         sliding_windows fuel args example_id first_ids token_offset_mapping
           (max_len_for_pair_of args first_ids) second_ids token_pair_offset_mapping
           batch_encode_inputs
         = if decide (length wins ≤ fuel)%nat
           then Ok (batch_encode_inputs ++ wins) else OutOfFuel)
  ∧ (stride args = max_len_for_pair_of args first_ids →
     slice_from second_ids (max_len_for_pair_of args first_ids - stride args) = second_ids
     ∧ ∀ fuel,
         sliding_windows fuel args example_id first_ids token_offset_mapping
           (max_len_for_pair_of args first_ids) second_ids token_pair_offset_mapping
           batch_encode_inputs
         = OutOfFuel).
Proof.
  intros Hlayout Hstride Hlong.
  set (mZ := max_len_for_pair_of args first_ids) in *.
  set (m := Z.to_nat mZ).
  set (d := Z.to_nat (mZ - stride args)).
  assert (Hfits : 0 < mZ → ∀ pair_ids : list Z, (length pair_ids ≤ m)%nat →
            len (build_inputs_with_special_tokens first_ids (Some pair_ids)) ≤ max_seq_len args).
  { intros Hpos pair_ids Hle. apply (pair_layout_fits pre mid post); [done |].
    fold mZ. unfold len. lia. }
  split; intros Hcase; specialize (Hfits ltac:(lia)).
  - destruct (full_windows_spec m d (length second_ids)) as [Hfull Hlast]; [lia |].
    destruct (sliding_windows_run args example_id first_ids token_offset_mapping
                second_ids token_pair_offset_mapping m d Hfits ltac:(lia)
                (full_windows (length second_ids) m d) O batch_encode_inputs)
      as (wins & Hwins & Hloop).
    { intros k Hk. apply Hfull in Hk. lia. }
    { lia. }
    pose proof (windows_at_length _ _ _ _ _ _ _ Hwins) as Hlen.
    rewrite length_window_ranges in Hlen.
    exists wins. split.
    + rewrite Hlen. unfold ceil_div, full_windows, len in *.
      rewrite Nat2Z.inj_succ, Nat2Z.inj_div.
      replace (Z.of_nat (length second_ids - m + d - 1))
        with (Z.of_nat (length second_ids) - mZ + (mZ - stride args) - 1) by lia.
      replace (Z.of_nat d) with (mZ - stride args) by lia. lia.
    + intros fuel. replace mZ with (Z.of_nat m) by lia.
      simpl in Hloop. rewrite Hloop, Hlen.
      destruct (decide (full_windows (length second_ids) m d < fuel)%nat),
        (decide (S (full_windows (length second_ids) m d) ≤ fuel)%nat); done || lia.
  - split.
    + rewrite Hcase, Z.sub_diag. reflexivity.
    + intros fuel. replace mZ with (Z.of_nat m) by lia.
      apply (sliding_windows_stuck args example_id first_ids token_offset_mapping
               second_ids token_pair_offset_mapping m O Hfits); [lia | done |].
      unfold len in Hlong. lia.
Qed.

Lemma sliding_windows_termination_witness :
  (∃ wins,
     Z.of_nat (length wins)
     = 1 + ceil_div (len sample_pair - @max_len_for_pair_of sample_four (sample_args 12 2 false) sample_text)
             (@max_len_for_pair_of sample_four (sample_args 12 2 false) sample_text
              - stride (sample_args 12 2 false))
     ∧ ∀ fuel,
         @sliding_windows sample_four fuel (sample_args 12 2 false) 0 sample_text []
           (@max_len_for_pair_of sample_four (sample_args 12 2 false) sample_text)
           sample_pair [] []
         = if decide (length wins ≤ fuel)%nat then Ok ([] ++ wins) else OutOfFuel)
  ∧ (slice_from sample_pair
       (@max_len_for_pair_of sample_four (sample_args 12 3 false) sample_text
        - stride (sample_args 12 3 false)) = sample_pair
     ∧ ∀ fuel,
         @sliding_windows sample_four fuel (sample_args 12 3 false) 0 sample_text []
           (@max_len_for_pair_of sample_four (sample_args 12 3 false) sample_text)
           sample_pair [] []
         = OutOfFuel).
Proof.
  split.
  - apply (proj1 (@sliding_windows_termination sample_four (sample_args 12 2 false) 0
                    sample_text sample_pair [2] [3; 3] [3] [] [] []
                    (λ a b, eq_refl) ltac:(reflexivity) ltac:(reflexivity))).
    reflexivity.
  - apply (proj2 (@sliding_windows_termination sample_four (sample_args 12 3 false) 0
                    sample_text sample_pair [2] [3; 3] [3] [] [] []
                    (λ a b, eq_refl) ltac:(reflexivity) ltac:(reflexivity))).
    reflexivity.
Defined.

Example sliding_windows_count_sample :
  1 + ceil_div (20 - 3) (3 - 2) = 18 ∧ 1 + ceil_div (20 - 4) (4 - 2) = 9.
Proof. split; reflexivity. Qed.

(** * Further properties *)

(** ** Truncation engine: the other strategies and the edges *)

Lemma for_range_add {S : Type} (body : S → result S) (a b : nat) (st : S) :
  for_range (a + b) body st = for_range a body st ≫= for_range b body.
Proof.
  revert st. induction a as [| a IH]; intros st; [done |].
  simpl. destruct (body st) as [st' | |]; simpl; [apply IH | done | done].
Qed.

Lemma removal_step_pair tie ids pair_ids overflow st' :
  removal_step tie (ids, pair_ids, overflow) st' →
  match pair_ids with
  | None => st'.1.2 = None
  | Some p => ∃ p', st'.1.2 = Some p' ∧ p' `prefix_of` p
  end ∧ st'.1.1 `prefix_of` ids.
Proof.
  inversion 1 as [ids' x pair' overflow' Hc | ids' p y overflow' Hc]; subst; simpl.
  - split; [| by eexists].
    destruct pair_ids as [p |]; [| done]. by exists p.
  - split; [| done]. exists p. split; [done | by eexists].
Qed.

Lemma removal_steps_pair tie n st st' :
  nsteps (removal_step tie) n st st' →
  match st.1.2 with
  | None => st'.1.2 = None
  | Some p => ∃ p', st'.1.2 = Some p' ∧ p' `prefix_of` p
  end ∧ st'.1.1 `prefix_of` st.1.1.
Proof.
  induction 1 as [[[ids pair_ids] overflow] | n [[ids pair_ids] overflow] y z Hstep _ IH]; simpl.
  - split; [| done]. destruct pair_ids as [p |]; [| done]. by exists p.
  - apply removal_step_pair in Hstep as [Hpair Hids]. simpl in IH.
    destruct IH as [IHpair IHids]. split; [| by etrans].
    destruct pair_ids as [p |].
    + destruct Hpair as (p' & Hp' & Hpre). rewrite Hp' in IHpair.
      destruct IHpair as (p'' & -> & Hpre'). exists p''. split; [done | by etrans].
    + by rewrite Hpair in IHpair.
Qed.

(** What 'only_first' returns when it returns. *)
Lemma only_first_run ids pair_ids n stride :
  0 < n < len ids → 0 ≤ stride →
  truncate_sequences ids pair_ids n "only_first" stride
  = Ok (take (length ids - Z.to_nat n) ids, pair_ids, last_tokens (Z.to_nat (stride + n)) ids).
Proof.
  intros Hn Hs. unfold truncate_sequences.
  destruct (n <=? 0) eqn:E; [lia |]. clear E. simpl String.eqb. cbv iota.
  destruct (n <? len ids) eqn:E; [| lia]. simpl.
  rewrite slice_to_neg by lia. rewrite slice_from_neg by lia. do 2 f_equal.
  destruct (Z.le_ge_cases (len ids) (stride + n)) as [Hk | Hk].
  - rewrite Z.min_l by done. unfold len in *. rewrite Nat2Z.id.
    rewrite !last_tokens_ge; [done | lia | lia].
  - by rewrite Z.min_r.
Qed.

(** X1: 'only_second' mirrors 'only_first' on the pair: it fails its
    assertion without a pair or with a pair of at most
    [num_tokens_to_remove] tokens; otherwise it cuts exactly that many
    tokens off the end of [pair_ids], leaves [ids] alone, and the overflow
    is the last [stride + num_tokens_to_remove] tokens of the pair given. *)
Theorem only_second_truncation (ids : list Z) (pair_ids : option (list Z)) (n stride : Z) :
  0 < n → 0 ≤ stride →
  (Z.of_nat (pair_length pair_ids) ≤ n →
   truncate_sequences ids pair_ids n "only_second" stride = Raise AssertionError)
  ∧ (∀ p, pair_ids = Some p → n < len p →
     ∃ kept removed,
       p = kept ++ removed ∧ len removed = n
       ∧ truncate_sequences ids pair_ids n "only_second" stride
         = Ok (ids, Some kept, last_tokens (Z.to_nat (stride + n)) p)).
Proof.
  intros Hn Hs. unfold truncate_sequences.
  destruct (n <=? 0) eqn:E; [lia |]. clear E. simpl String.eqb. cbv iota.
  split.
  - intros Hlen. destruct pair_ids as [p |]; [| done]. simpl in Hlen.
    destruct (n <? len p) eqn:E; [unfold len in E; lia | done].
  - intros p -> Hlen. destruct (n <? len p) eqn:E; [| lia]. simpl.
    exists (take (length p - Z.to_nat n) p), (drop (length p - Z.to_nat n) p).
    split_and!.
    + by rewrite take_drop.
    + unfold len in *. rewrite length_drop. lia.
    + rewrite slice_to_neg by done. rewrite slice_from_neg by lia. do 2 f_equal.
      destruct (Z.le_ge_cases (len p) (stride + n)) as [Hk | Hk].
      * rewrite Z.min_l by done. unfold len in *. rewrite Nat2Z.id.
        rewrite !last_tokens_ge; [done | lia | lia].
      * by rewrite Z.min_r.
Qed.

Lemma only_second_truncation_witness :
  truncate_sequences [1; 2] (Some [6; 7]) 2 "only_second" 0 = Raise AssertionError
  ∧ ∃ kept removed,
      [6; 7; 8] = kept ++ removed ∧ len removed = 2
      ∧ truncate_sequences [1; 2] (Some [6; 7; 8]) 2 "only_second" 0
        = Ok ([1; 2], Some kept, last_tokens (Z.to_nat (0 + 2)) [6; 7; 8]).
Proof.
  split.
  - apply (proj1 (only_second_truncation [1; 2] (Some [6; 7]) 2 0 ltac:(lia) ltac:(lia))).
    simpl. lia.
  - apply (proj2 (only_second_truncation [1; 2] (Some [6; 7; 8]) 2 0 ltac:(lia) ltac:(lia))
             [6; 7; 8] eq_refl).
    reflexivity.
Defined.

(** X2: with nothing to remove the call returns its inputs and an empty
    overflow without looking at the strategy, so even an unknown strategy
    passes; with something to remove, a strategy other than the three
    truncating ones ('do_not_truncate' included) raises [ValueError]. *)
Theorem truncation_strategy_checked_late (ids : list Z) (pair_ids : option (list Z))
    (n stride : Z) (strategy : string) :
  (n ≤ 0 → truncate_sequences ids pair_ids n strategy stride = Ok (ids, pair_ids, []))
  ∧ (0 < n → strategy ∉ ["longest_first"; "only_first"; "only_second"] →
     truncate_sequences ids pair_ids n strategy stride = Raise ValueError).
Proof.
  unfold truncate_sequences. split.
  - intros Hn. destruct (n <=? 0) eqn:E; [done | lia].
  - intros Hn Hstrategy. destruct (n <=? 0) eqn:E; [lia |].
    assert (∀ s : string, s ∈ ["longest_first"; "only_first"; "only_second"] →
              String.eqb strategy s = false) as Hne.
    { intros s Hs. apply String.eqb_neq. by intros ->. }
    rewrite !Hne by set_solver.
    by destruct (String.eqb strategy "do_not_truncate").
Qed.

Lemma truncation_strategy_checked_late_witness :
  truncate_sequences [1; 2] None 0 "nearest" 3 = Ok ([1; 2], None, [])
  ∧ truncate_sequences [1; 2] None 1 "do_not_truncate" 3 = Raise ValueError.
Proof.
  split.
  - apply (proj1 (truncation_strategy_checked_late [1; 2] None 0 3 "nearest")). lia.
  - apply (proj2 (truncation_strategy_checked_late [1; 2] None 1 3 "do_not_truncate")); [lia |].
    intros Hin. repeat (apply elem_of_cons in Hin as [Hin | Hin]; [discriminate Hin |]).
    by apply elem_of_nil in Hin.
Defined.

Lemma slice_to_prefix {A : Type} (l : list A) (k : Z) : slice_to l k `prefix_of` l.
Proof. unfold slice_to. destruct (0 <=? k); apply prefix_take. Qed.

Lemma remove_one_prefix ids_first ids pair_ids overflow st' :
  remove_one ids_first (ids, pair_ids, overflow) = Ok st' →
  st'.1.1 `prefix_of` ids ∧ option_Forall2 prefix st'.1.2 pair_ids.
Proof.
  unfold remove_one.
  assert (option_Forall2 prefix pair_ids pair_ids) as Hrefl
    by (destruct pair_ids; by constructor).
  destruct (match pair_ids with None => true | Some p => ids_first (len ids) (len p) end).
  - destruct (getitem ids (-1)); simpl; intros [= <-]; simpl.
    split; [apply slice_to_prefix | done].
  - intros [= <-]. simpl. split; [done |].
    destruct pair_ids as [p |]; constructor. apply slice_to_prefix.
Qed.

Lemma for_range_remove_one_prefix ids_first (n : nat) : ∀ ids pair_ids overflow st',
  for_range n (remove_one ids_first) (ids, pair_ids, overflow) = Ok st' →
  st'.1.1 `prefix_of` ids ∧ option_Forall2 prefix st'.1.2 pair_ids.
Proof.
  induction n as [| n IH]; intros ids pair_ids overflow st' Hrun.
  - injection Hrun as <-. simpl. split; [done |]. destruct pair_ids; by constructor.
  - change (for_range (S n) ?f ?s) with (f s ≫= for_range n f) in Hrun.
    destruct (remove_one ids_first (ids, pair_ids, overflow)) as [[[ids1 pair1] ov1] | |] eqn:Hstep;
      simpl in Hrun; try discriminate Hrun.
    apply remove_one_prefix in Hstep as [Hids Hpair]. simpl in Hids, Hpair.
    apply IH in Hrun as [Hids' Hpair']. split; [by etrans |].
    destruct Hpair' as [kp p1 Hkp |]; inversion Hpair; subst; constructor. by etrans.
Qed.

(** X3: whatever the strategy, the removal count and the stride, a call
    that returns gives back a prefix of [ids] and a prefix of [pair_ids]
    (no pair when none was given): tokens only ever leave from the end. *)
Theorem truncation_keeps_prefixes (ids : list Z) (pair_ids : option (list Z))
    (n stride : Z) (strategy : string) (kept : list Z) (kept_pair : option (list Z))
    (overflow : list Z) :
  truncate_sequences ids pair_ids n strategy stride = Ok (kept, kept_pair, overflow) →
  kept `prefix_of` ids ∧ option_Forall2 prefix kept_pair pair_ids.
Proof.
  assert (option_Forall2 prefix pair_ids pair_ids) as Hrefl
    by (destruct pair_ids; by constructor).
  unfold truncate_sequences.
  destruct (n <=? 0); [by intros [= <- <- <-] |].
  destruct (String.eqb strategy "longest_first").
  { intros Hrun.
    assert (∃ ids_first st,
              for_range (Z.to_nat n) (remove_one ids_first) (ids, pair_ids, []) = Ok st
              ∧ st.1.1 = kept ∧ st.1.2 = kept_pair) as (ids_first & st & Hloop & <- & <-).
    { destruct (match pair_ids with None => true | Some p => len ids <=? len p end).
      - exists Z.geb. destruct (for_range _ _ _) as [[[i p] o] | |]; simpl in Hrun; try discriminate Hrun.
        exists (i, p, o). destruct (0 <? Z.min (len i) stride); by injection Hrun as <- <- <-.
      - exists Z.gtb. destruct (for_range _ _ _) as [[[i p] o] | |]; simpl in Hrun; try discriminate Hrun.
        exists (i, p, o). destruct (0 <? Z.min (len i) stride); by injection Hrun as <- <- <-. }
    by eapply for_range_remove_one_prefix. }
  destruct (String.eqb strategy "only_first").
  { destruct (assert _); simpl; [| discriminate | discriminate]. intros [= <- <- <-].
    split; [apply slice_to_prefix | done]. }
  destruct (String.eqb strategy "only_second").
  { destruct pair_ids as [p |]; [| done].
    destruct (assert _); simpl; [| discriminate | discriminate]. intros [= <- <- <-].
    split; [done |]. constructor. apply slice_to_prefix. }
  by destruct (String.eqb strategy "do_not_truncate").
Qed.

Lemma truncation_keeps_prefixes_witness :
  [1; 2] `prefix_of` [1; 2; 3] ∧ option_Forall2 prefix (Some [4]) (Some [4; 5]).
Proof.
  apply (truncation_keeps_prefixes [1; 2; 3] (Some [4; 5]) 2 0 "longest_first" [1; 2] (Some [4]) [3]).
  reflexivity.
Defined.

(** How far apart the two lengths are after a step. *)
Lemma removal_step_gap tie ids p overflow st' :
  removal_step tie (ids, Some p, overflow) st' →
  ∃ ids' p' overflow',
    st' = (ids', Some p', overflow')
    ∧ Z.abs (len ids' - len p') ≤ Z.max (Z.abs (len ids - len p) - 1) 1.
Proof.
  inversion 1 as [ids' x pair' overflow' Hc | ids' p' y overflow' Hc]; subst.
  - exists ids', p, (x :: overflow). split; [done |].
    unfold len in *. rewrite length_app in *. simpl in *. lia.
  - exists ids, p', overflow. split; [done |].
    unfold len in *. rewrite length_app in *. simpl in *. lia.
Qed.

Lemma removal_steps_gap tie (n : nat) st st' :
  nsteps (removal_step tie) n st st' →
  ∀ ids p overflow, st = (ids, Some p, overflow) →
  ∃ ids' p' overflow',
    st' = (ids', Some p', overflow')
    ∧ Z.abs (len ids' - len p') ≤ Z.max (Z.abs (len ids - len p) - Z.of_nat n) 1.
Proof.
  induction 1 as [st | n st y z Hstep _ IH]; intros ids p overflow ->.
  - exists ids, p, overflow. split; [done | lia].
  - apply removal_step_gap in Hstep as (ids1 & p1 & ov1 & -> & Hgap).
    destruct (IH ids1 p1 ov1 eq_refl) as (ids' & p' & ov' & -> & Hgap').
    exists ids', p', ov'. split; [done | lia].
Qed.

(** X4: 'longest_first' evens the two sequences out: what is kept of [ids]
    and of [pair_ids] differs in length by at most the original difference
    less [num_tokens_to_remove], and by at most one once
    [num_tokens_to_remove] reaches that difference. *)
Theorem longest_first_balances (ids p : list Z) (n stride : Z) :
  0 < n → n ≤ len ids + len p →
  ∃ kept kept_pair overflow,
    truncate_sequences ids (Some p) n "longest_first" stride = Ok (kept, Some kept_pair, overflow)
    ∧ Z.abs (len kept - len kept_pair) ≤ Z.max (Z.abs (len ids - len p) - n) 1.
Proof.
  intros Hn Hle.
  destruct (longest_first_run ids (Some p) n stride Hn)
    as (kept & kept_pair & removed & Hsteps & _ & Hrun).
  { simpl. unfold len in Hle. lia. }
  destruct (removal_steps_gap _ _ _ _ Hsteps ids p [] eq_refl)
    as (ids' & p' & ov' & [= -> -> ->] & Hgap).
  exists ids', p', (last_tokens (Z.to_nat stride) ids' ++ ov'). split; [done | lia].
Qed.

Lemma longest_first_balances_witness :
  ∃ kept kept_pair overflow,
    truncate_sequences [1; 2; 3; 4; 5; 6] (Some [7; 8]) 5 "longest_first" 0
    = Ok (kept, Some kept_pair, overflow)
    ∧ Z.abs (len kept - len kept_pair)
      ≤ Z.max (Z.abs (len [1; 2; 3; 4; 5; 6] - len [7; 8]) - 5) 1.
Proof.
  apply (longest_first_balances [1; 2; 3; 4; 5; 6] [7; 8] 5 0); [lia | vm_compute; discriminate].
Defined.

Lemma getitem_nil_last {A : Type} : getitem (@nil A) (-1) = Raise IndexError.
Proof. reflexivity. Qed.

(** X5: started with [ids] no longer than the pair (or without a pair),
    'longest_first' asked to remove more tokens than there are raises
    [IndexError]: after the last token is gone the loop reads [ids[-1]] of
    an empty list. *)
Theorem longest_first_exhausts (ids : list Z) (pair_ids : option (list Z)) (n stride : Z) :
  ties_go_to_ids ids pair_ids = true →
  len ids + Z.of_nat (pair_length pair_ids) < n →
  truncate_sequences ids pair_ids n "longest_first" stride = Raise IndexError.
Proof.
  intros Hties Hn. unfold truncate_sequences.
  destruct (n <=? 0) eqn:E; [unfold len in Hn; lia |]. clear E. simpl String.eqb. cbv iota.
  rewrite ties_go_to_ids_geb, Hties.
  set (total := (length ids + pair_length pair_ids)%nat).
  replace (Z.to_nat n) with (total + S (Z.to_nat n - total - 1))%nat
    by (unfold len in Hn; subst total; lia).
  rewrite for_range_add.
  destruct (for_range_remove_one Z.geb true (λ _ _, eq_refl) total ids pair_ids [])
    as (kept & kept_pair & removed & -> & Hsteps & _); [done |].
  apply removal_steps_length in Hsteps. simpl in Hsteps.
  assert (kept = []) as -> by (apply length_zero_iff_nil; subst total; lia).
  assert (pair_length kept_pair = O) as Hpair by (subst total; simpl in *; lia).
  simpl. unfold remove_one.
  destruct kept_pair as [kp |]; [| done].
  apply length_zero_iff_nil in Hpair as ->. done.
Qed.

Lemma longest_first_exhausts_witness :
  truncate_sequences [1] (Some [2; 3]) 4 "longest_first" 0 = Raise IndexError.
Proof.
  apply (longest_first_exhausts [1] (Some [2; 3]) 4 0); [reflexivity | vm_compute; reflexivity].
Defined.

Lemma remove_one_gtb_total ids p overflow :
  ∃ ids' p' overflow', remove_one Z.gtb (ids, Some p, overflow) = Ok (ids', Some p', overflow').
Proof.
  unfold remove_one. destruct (len ids >? len p) eqn:E.
  - destruct ids as [| x ids _] using rev_ind.
    { unfold len in E. simpl in E. lia. }
    rewrite getitem_last. simpl. eauto.
  - simpl. eauto.
Qed.

Lemma for_range_gtb_total (n : nat) : ∀ ids p overflow,
  ∃ ids' p' overflow',
    for_range n (remove_one Z.gtb) (ids, Some p, overflow) = Ok (ids', Some p', overflow').
Proof.
  induction n as [| n IH]; intros ids p overflow; [simpl; eauto |].
  change (for_range (S n) ?f ?s) with (f s ≫= for_range n f).
  destruct (remove_one_gtb_total ids p overflow) as (ids1 & p1 & ov1 & ->).
  simpl. apply IH.
Qed.

(** X6: started with [ids] longer than the pair, 'longest_first' never
    raises, however many tokens it is asked to remove: its loop only reads
    [ids[-1]] while [ids] is the longer one, and cutting an empty pair
    leaves it empty. *)
Theorem longest_first_second_loop_total (ids p : list Z) (n stride : Z) :
  len p < len ids →
  ∃ kept kept_pair overflow,
    truncate_sequences ids (Some p) n "longest_first" stride = Ok (kept, Some kept_pair, overflow).
Proof.
  intros Hlen. unfold truncate_sequences.
  destruct (n <=? 0); [eauto |]. simpl String.eqb. cbv iota.
  destruct (len ids <=? len p) eqn:E; [lia |].
  destruct (for_range_gtb_total (Z.to_nat n) ids p []) as (kept & kp & ov & ->). simpl.
  destruct (0 <? Z.min (len kept) stride); eauto.
Qed.

Lemma longest_first_second_loop_total_witness :
  ∃ kept kept_pair overflow,
    truncate_sequences [1; 2] (Some [3]) 7 "longest_first" 0 = Ok (kept, Some kept_pair, overflow).
Proof. apply (longest_first_second_loop_total [1; 2] [3] 7 0). reflexivity. Defined.

(** X7: for a single sequence, 'longest_first' and 'only_first' return the
    same thing whenever 'only_first' accepts the input: the first
    [len(ids) - num_tokens_to_remove] tokens, and as overflow the last
    [stride + num_tokens_to_remove] tokens of [ids]. *)
Theorem single_sequence_strategies_agree (ids : list Z) (n stride : Z) :
  0 < n < len ids → 0 ≤ stride →
  truncate_sequences ids None n "longest_first" stride
  = truncate_sequences ids None n "only_first" stride
  ∧ truncate_sequences ids None n "longest_first" stride
    = Ok (take (length ids - Z.to_nat n) ids, None, last_tokens (Z.to_nat (stride + n)) ids).
Proof.
  intros Hn Hs. rewrite only_first_run by done.
  assert (truncate_sequences ids None n "longest_first" stride
          = Ok (take (length ids - Z.to_nat n) ids, None,
                last_tokens (Z.to_nat (stride + n)) ids)) as ->; [| done].
  destruct (longest_first_run ids None n stride ltac:(lia))
    as (kept & kept_pair & removed & Hsteps & Hids & ->).
  { simpl. unfold len in Hn. lia. }
  pose proof (removal_steps_length _ _ _ _ Hsteps) as Hlen.
  apply removal_steps_pair in Hsteps as [Hpair _]. simpl in Hpair, Hlen. subst kept_pair.
  simpl in Hlen.
  assert (length ids = length kept + length removed)%nat as Hsplit
    by (by rewrite Hids, length_app).
  assert (take (length ids - Z.to_nat n) ids = kept) as ->.
  { rewrite Hids at 2. replace (length ids - Z.to_nat n)%nat with (length kept) by lia.
    by rewrite take_app_length. }
  do 2 f_equal. unfold last_tokens. rewrite Hids at 2.
  rewrite drop_app_le by lia. f_equal. f_equal. lia.
Qed.

Lemma single_sequence_strategies_agree_witness :
  truncate_sequences [1; 2; 3; 4; 5] None 2 "longest_first" 1
  = truncate_sequences [1; 2; 3; 4; 5] None 2 "only_first" 1
  ∧ truncate_sequences [1; 2; 3; 4; 5] None 2 "longest_first" 1
    = Ok (take (length [1; 2; 3; 4; 5] - Z.to_nat 2) [1; 2; 3; 4; 5], None,
          last_tokens (Z.to_nat (1 + 2)) [1; 2; 3; 4; 5]).
Proof.
  apply (single_sequence_strategies_agree [1; 2; 3; 4; 5] 2 1); [vm_compute; split; reflexivity | lia].
Defined.

(** ** Special-token helpers *)

Lemma zip_layout {X Y : Type} (l1 l2 : list X) (k1 k2 : list Y) (x1 x2 x3 : X) (y1 y2 y3 : Y) :
  length l1 = length k1 → length l2 = length k2 →
  zip ([x1] ++ l1 ++ [x2] ++ l2 ++ [x3]) ([y1] ++ k1 ++ [y2] ++ k2 ++ [y3])
  = [(x1, y1)] ++ zip l1 k1 ++ [(x2, y2)] ++ zip l2 k2 ++ [(x3, y3)].
Proof.
  intros H1 H2. simpl. f_equal.
  rewrite zip_with_app by done. f_equal. simpl. f_equal.
  by rewrite zip_with_app.
Qed.

Lemma zip_replicate_l {X Y : Type} (x : X) (k : list Y) :
  zip (replicate (length k) x) k = pair x <$> k.
Proof. by apply zip_with_replicate_l. Qed.

(** X8: the three helpers that lay out a pair agree position by position:
    the CLS slot has type 2, mask 1 and offset (0, 0); every token of the
    first sequence has type 0, mask 0 and its own offset; the two SEP slots
    have mask 1 and offset (0, 0), with types 0 and 1; every token of the
    second sequence has type 1, mask 0 and its own offset. *)
Theorem pair_helpers_agree `{Tokenizer} (token_ids_0 token_ids_1 : list Z)
    (offset_mapping_0 offset_mapping_1 : list span) :
  length offset_mapping_0 = length token_ids_0 →
  length offset_mapping_1 = length token_ids_1 →
  ∃ mask,
    get_special_tokens_mask token_ids_0 (Some token_ids_1) false = Ok mask
    ∧ zip (create_token_type_ids_from_sequences token_ids_0 (Some token_ids_1))
          (zip mask (build_offset_mapping_with_special_tokens offset_mapping_0
                       (Some offset_mapping_1)))
      = [(2, (1, (0, 0)%nat))] ++ ((λ o, (0, (0, o))) <$> offset_mapping_0)
          ++ [(0, (1, (0, 0)%nat))] ++ ((λ o, (1, (0, o))) <$> offset_mapping_1)
          ++ [(1, (1, (0, 0)%nat))].
Proof.
  intros H0 H1. eexists. split; [reflexivity |].
  unfold create_token_type_ids_from_sequences, build_offset_mapping_with_special_tokens.
  unfold times, len. rewrite !Nat2Z.id, !length_app. simpl length.
  change (replicate 1 cls_token_type_id) with [2].
  rewrite !Nat.add_1_r, !replicate_S_end, <- !(assoc_L (++)).
  rewrite <- H0, <- H1.
  rewrite zip_layout by (by rewrite length_replicate).
  rewrite zip_layout by (by rewrite length_zip_with, !length_replicate, Nat.min_id).
  rewrite !zip_replicate_l.
  rewrite <- (length_fmap (pair 0) offset_mapping_0), <- (length_fmap (pair 0) offset_mapping_1).
  rewrite !zip_replicate_l, <- !list_fmap_compose. done.
Qed.

Lemma pair_helpers_agree_witness :
  ∃ mask,
    @get_special_tokens_mask sample_bert [97; 98] (Some [99]) false = Ok mask
    ∧ zip (@create_token_type_ids_from_sequences sample_bert [97; 98] (Some [99]))
          (zip mask (build_offset_mapping_with_special_tokens [(0, 1); (1, 2)]%nat
                       (Some [(0, 1)%nat])))
      = [(2, (1, (0, 0)%nat))] ++ ((λ o, (0, (0, o))) <$> [(0, 1); (1, 2)]%nat)
          ++ [(0, (1, (0, 0)%nat))] ++ ((λ o, (1, (0, o))) <$> [(0, 1)%nat])
          ++ [(1, (1, (0, 0)%nat))].
Proof.
  apply (@pair_helpers_agree sample_bert [97; 98] [99] [(0, 1); (1, 2)]%nat [(0, 1)%nat]);
    reflexivity.
Defined.

(** X9: told that the sequence already has its special tokens,
    [get_special_tokens_mask] refuses a second sequence with [ValueError],
    and otherwise marks exactly the positions that hold the SEP or the CLS
    id.  So on [cls A sep B sep] it gives the mask computed from [A] and [B]
    separately as long as neither contains the SEP or CLS id. *)
Theorem special_tokens_mask_already (token_ids_0 token_ids_1 : list Z) `{Tokenizer} :
  get_special_tokens_mask token_ids_0 (Some token_ids_1) true = Raise ValueError
  ∧ (∃ mask,
       get_special_tokens_mask token_ids_0 None true = Ok mask
       ∧ length mask = length token_ids_0
       ∧ ∀ i x, token_ids_0 !! i = Some x →
           mask !! i = Some (if decide (x = sep_token_id ∨ x = cls_token_id) then 1 else 0))
  ∧ (Forall (λ x, x ≠ sep_token_id ∧ x ≠ cls_token_id) (token_ids_0 ++ token_ids_1) →
     get_special_tokens_mask
       ([cls_token_id] ++ token_ids_0 ++ [sep_token_id] ++ token_ids_1 ++ [sep_token_id])
       None true
     = get_special_tokens_mask token_ids_0 (Some token_ids_1) false).
Proof.
  assert (Hspecial : ∀ x, x ∈ [sep_token_id; cls_token_id] ↔ x = sep_token_id ∨ x = cls_token_id).
  { intros x. rewrite !elem_of_cons, elem_of_nil. tauto. }
  split_and!; [done | |].
  - eexists. split; [reflexivity |]. split; [by rewrite length_fmap |].
    intros i x Hx. rewrite list_lookup_fmap, Hx. simpl. f_equal.
    destruct (decide (x ∈ [sep_token_id; cls_token_id])) as [Hin | Hin],
      (decide (x = sep_token_id ∨ x = cls_token_id)) as [Hor | Hor];
      rewrite Hspecial in Hin; tauto.
  - intros Hplain. apply Forall_app in Hplain as [H0 H1].
    assert (∀ l : list Z, Forall (λ x, x ≠ sep_token_id ∧ x ≠ cls_token_id) l →
              (λ x, if decide (x ∈ [sep_token_id; cls_token_id]) then 1 else 0) <$> l
              = times (len l) 0) as Hzero.
    { intros l Hl. unfold times, len. rewrite Nat2Z.id. apply const_fmap.
      intros i x Hx. eapply Forall_lookup_1 in Hl; [| exact Hx].
      destruct (decide (x ∈ [sep_token_id; cls_token_id])) as [Hin | Hin]; [| done].
      rewrite Hspecial in Hin. tauto. }
    unfold get_special_tokens_mask. f_equal.
    rewrite !fmap_app, (Hzero token_ids_0 H0), (Hzero token_ids_1 H1). simpl.
    destruct (decide (cls_token_id ∈ [sep_token_id; cls_token_id])) as [_ | Hn];
      [| rewrite Hspecial in Hn; tauto].
    destruct (decide (sep_token_id ∈ [sep_token_id; cls_token_id])) as [_ | Hn];
      [| rewrite Hspecial in Hn; tauto].
    done.
Qed.

Lemma special_tokens_mask_already_witness :
  @get_special_tokens_mask sample_bert ([2] ++ [97; 98] ++ [3] ++ [99] ++ [3]) None true
  = @get_special_tokens_mask sample_bert [97; 98] (Some [99]) false.
Proof.
  apply (proj2 (proj2 (@special_tokens_mask_already [97; 98] [99] sample_bert))).
  repeat constructor; discriminate.
Defined.

(** ** Offset rematcher: where the spans come from *)

Lemma str_index_Ok (hay needle : str) : ∀ i,
  str_index hay needle = Ok i →
  take (length needle) (drop i hay) = needle
  ∧ ∀ k, (k < i)%nat → take (length needle) (drop k hay) ≠ needle.
Proof.
  induction hay as [| c hay IH]; intros i; simpl.
  - destruct (decide (take (length needle) [] = needle)) as [Heq | Hne]; [| done].
    intros [= <-]. split; [done | lia].
  - destruct (decide (take (length needle) (c :: hay) = needle)) as [Heq | Hne].
    + intros [= <-]. split; [done | lia].
    + destruct (str_index hay needle) as [j | |]; simpl; [| done | done].
      intros [= <-]. destruct (IH j eq_refl) as [Hfound Hfirst].
      split; [done |]. intros [| k] Hk; [done |]. apply Hfirst. lia.
Qed.

Lemma str_index_found (hay needle : str) : ∀ k,
  take (length needle) (drop k hay) = needle →
  ∃ i, str_index hay needle = Ok i ∧ (i ≤ k)%nat.
Proof.
  induction hay as [| c hay IH]; intros k Hk; simpl.
  - destruct (decide (take (length needle) [] = needle)) as [Heq | Hne].
    + exists O. split; [done | lia].
    + rewrite drop_nil in Hk. done.
  - destruct (decide (take (length needle) (c :: hay) = needle)) as [Heq | Hne].
    + exists O. split; [done | lia].
    + destruct k as [| k]; [done |].
      destruct (IH k Hk) as (i & -> & Hi). exists (S i). split; [done | lia].
Qed.

Lemma getitem_nonneg {A : Type} (l : list A) (k : nat) (x : A) :
  getitem l (Z.of_nat k) = Ok x ↔ l !! k = Some x.
Proof.
  unfold getitem. destruct (0 <=? Z.of_nat k) eqn:E; [| lia]. rewrite E, Nat2Z.id.
  destruct (l !! k); split; congruence.
Qed.

Lemma getitem_Ok_elem {A : Type} (l : list A) (k : Z) (x : A) :
  getitem l k = Ok x → x ∈ l.
Proof.
  unfold getitem.
  destruct (0 <=? (if 0 <=? k then k else len l + k)); [| done].
  destruct (l !! _) eqn:E; [| done]. intros [= <-]. by eapply list_elem_of_lookup_2.
Qed.

Section LocateFacts.
Context `{Tokenizer}.

(** One pass of the second loop of [rematch]. *)
Lemma locate_token_Ok normalized_text char_mapping token_mapping offset token st :
  locate_token normalized_text char_mapping (token_mapping, offset) token = Ok st →
  ∃ start a b,
    (offset ≤ start)%nat
    ∧ take (length (stem token)) (drop start normalized_text) = stem token
    ∧ (∀ k, (offset ≤ k < start)%nat →
         take (length (stem token)) (drop k normalized_text) ≠ stem token)
    ∧ getitem char_mapping (Z.of_nat start) = Ok a
    ∧ getitem char_mapping (Z.of_nat (start + length (stem token)) - 1) = Ok b
    ∧ st = (token_mapping ++ [(a, (b + 1)%nat)], (start + length (stem token))%nat).
Proof.
  unfold locate_token. intros Hrun.
  destruct (str_index (drop offset normalized_text) (stem token)) as [i | |] eqn:Hi;
    simpl in Hrun; try discriminate Hrun.
  destruct (getitem char_mapping (Z.of_nat (i + offset))) as [a | |] eqn:Ha;
    simpl in Hrun; try discriminate Hrun.
  destruct (getitem char_mapping (Z.of_nat (i + offset + length (stem token)) - 1))
    as [b | |] eqn:Hb; simpl in Hrun; try discriminate Hrun.
  injection Hrun as <-.
  apply str_index_Ok in Hi as [Hfound Hfirst]. rewrite drop_drop in Hfound.
  exists (i + offset)%nat, a, b.
  split_and!; [lia | by rewrite Nat.add_comm | | done | done | done].
  intros k Hk. specialize (Hfirst (k - offset)%nat ltac:(lia)).
  rewrite drop_drop in Hfirst. by replace (offset + (k - offset))%nat with k in Hfirst by lia.
Qed.

Lemma for_each_locate normalized_text char_mapping tokens :
  ∀ token_mapping offset st,
    for_each (locate_token normalized_text char_mapping) tokens (token_mapping, offset) = Ok st →
    ∃ ranges spans,
      st.1 = token_mapping ++ spans
      ∧ located normalized_text offset tokens ranges
      ∧ Forall2 (λ r span,
                   getitem char_mapping (Z.of_nat r.1) = Ok span.1
                   ∧ ∃ b, getitem char_mapping (Z.of_nat r.2 - 1) = Ok b ∧ span.2 = S b)
                ranges spans.
Proof.
  induction tokens as [| token tokens IH]; intros token_mapping offset st Hrun.
  - injection Hrun as <-. exists [], []. simpl. rewrite app_nil_r.
    split_and!; [done | constructor | constructor].
  - change (for_each ?f (?x :: ?xs) ?s) with (f s x ≫= for_each f xs) in Hrun.
    destruct (locate_token normalized_text char_mapping (token_mapping, offset) token)
      as [st1 | |] eqn:Hstep; simpl in Hrun; try discriminate Hrun.
    apply locate_token_Ok in Hstep
      as (start & a & b & Hstart & Hfound & Hfirst & Ha & Hb & ->).
    apply IH in Hrun as (ranges & spans & -> & Hlocated & Hspans).
    exists ((start, start + length (stem token))%nat :: ranges), ((a, S b) :: spans).
    split_and!.
    + by rewrite <- (assoc_L (++)), Nat.add_1_r.
    + by constructor.
    + constructor; [| done]. simpl. split; [done |]. by exists b.
Qed.
End LocateFacts.

(** X10: [rematch] returns one span per token [tokenize] gives, hence one
    per input id: offsets and ids line up. *)
Theorem rematch_one_span_per_token `{Tokenizer} (text : str) (token_mapping : list span) :
  rematch text = Ok token_mapping →
  length token_mapping = length (tokenize text)
  ∧ length token_mapping = length (get_input_ids text).
Proof.
  intros Hrun. apply rematch_length in Hrun. split; [| done].
  rewrite Hrun. unfold get_input_ids, convert_tokens_to_ids, tokenize. apply length_fmap.
Qed.

Lemma rematch_one_span_per_token_witness :
  length [(0, 1); (1, 2); (2, 3); (3, 4); (4, 5)]%nat = length (@tokenize sample_bert sample_text)
  ∧ length [(0, 1); (1, 2); (2, 3); (3, 4); (4, 5)]%nat
    = length (@get_input_ids sample_bert sample_text).
Proof. apply (@rematch_one_span_per_token sample_bert sample_text). reflexivity. Defined.

(** X11: a [rematch] that returns has found every token, without its [##],
    in the normalized text, at its first occurrence at or after the end of
    the match before; the span of a token starts at the source character of
    the first matched character and ends one past the source character of
    the last. *)
Theorem rematch_locates `{Tokenizer} (text normalized_text : str) (char_mapping : list nat)
    (token_mapping : list span) :
  build_char_mapping text = (normalized_text, char_mapping) →
  rematch text = Ok token_mapping →
  ∃ ranges,
    located normalized_text O (custom_tokenize text) ranges
    ∧ Forall2 (λ r span,
                 getitem char_mapping (Z.of_nat r.1) = Ok span.1
                 ∧ ∃ b, getitem char_mapping (Z.of_nat r.2 - 1) = Ok b ∧ span.2 = S b)
              ranges token_mapping.
Proof.
  intros Hmap. unfold rematch. rewrite Hmap.
  destruct (for_each _ _ _) as [st | |] eqn:Hrun; simpl; [| discriminate | discriminate].
  intros [= <-].
  apply for_each_locate in Hrun as (ranges & spans & -> & Hlocated & Hspans). eauto.
Qed.

Lemma rematch_locates_witness :
  ∃ ranges,
    located sample_mixed_normalized O (@custom_tokenize sample_bert [65; 98]) ranges
    ∧ Forall2 (λ r span,
                 getitem [0; 1]%nat (Z.of_nat r.1) = Ok span.1
                 ∧ ∃ b, getitem [0; 1]%nat (Z.of_nat r.2 - 1) = Ok b ∧ span.2 = S b)
              ranges [(0, 1); (1, 2)]%nat.
Proof.
  apply (@rematch_locates sample_bert [65; 98] sample_mixed_normalized [0; 1]%nat
           [(0, 1); (1, 2)]%nat); reflexivity.
Defined.

Section SpanFacts.
Context `{Tokenizer}.

(** What the spans rely on in [char_mapping]. *)
Lemma char_mapping_facts (text normalized_text : str) (char_mapping : list nat) :
  build_char_mapping text = (normalized_text, char_mapping) →
  length char_mapping = length normalized_text
  ∧ (∀ p i, char_mapping !! p = Some i → (i < length text)%nat)
  ∧ (∀ p q i j, (p ≤ q)%nat → char_mapping !! p = Some i → char_mapping !! q = Some j → (i ≤ j)%nat).
Proof.
  rewrite build_char_mapping_eq. intros [= <- <-].
  pose proof (char_mapping_blocks text O) as Hblocks. cbv zeta in Hblocks.
  destruct Hblocks as [Hlen Hpos]. split_and!; [done | |].
  - intros p i Hp. destruct (Hpos p i Hp) as (_ & ch & j & Hch & _).
    apply lookup_lt_Some in Hch. lia.
  - intros p q i j. apply (char_mapping_sorted text O).
Qed.

Lemma located_Forall2 normalized_text offset tokens ranges :
  located normalized_text offset tokens ranges →
  Forall2 (λ token r,
             (offset ≤ r.1)%nat ∧ r.2 = (r.1 + length (stem token))%nat
             ∧ take (length (stem token)) (drop r.1 normalized_text) = stem token)
          tokens ranges.
Proof.
  induction 1 as [| offset token tokens start ranges Hstart Hfound _ _ IH]; constructor.
  - done.
  - eapply Forall2_impl; [exact IH |]. intros t r (Hle & ? & ?). split; [lia | done].
Qed.

Lemma located_consecutive normalized_text offset tokens ranges :
  located normalized_text offset tokens ranges →
  ∀ i r r', ranges !! i = Some r → ranges !! S i = Some r' → (r.2 ≤ r'.1)%nat.
Proof.
  induction 1 as [| offset token tokens start ranges Hstart Hfound _ Hrest IH];
    intros i r r' Hr Hr'; [done |].
  destruct i as [| i]; simpl in Hr, Hr'.
  - injection Hr as <-. simpl.
    apply located_Forall2 in Hrest.
    destruct (Forall2_lookup_r _ _ _ _ _ Hrest Hr') as (t & _ & Hle & _). done.
  - by eapply IH.
Qed.

(** A non-empty token that occurs at [start] lies inside the text. *)
Lemma occurrence_in_bounds (text token : str) (start : nat) :
  token ≠ [] → take (length token) (drop start text) = token →
  (start + length token ≤ length text)%nat.
Proof.
  intros Hne Hfound. apply (f_equal length) in Hfound.
  rewrite length_take, length_drop in Hfound.
  assert (0 < length token)%nat by (destruct token; [done | simpl; lia]). lia.
Qed.

(** The spans of a run whose tokens are all non-empty once unmarked: every
    match lies inside the normalized text, so both reads of [char_mapping]
    are plain lookups. *)
Lemma rematch_spans (text normalized_text : str) (char_mapping : list nat)
    (token_mapping : list span) :
  build_char_mapping text = (normalized_text, char_mapping) →
  rematch text = Ok token_mapping →
  Forall (λ token, stem token ≠ []) (custom_tokenize text) →
  ∃ ranges,
    located normalized_text O (custom_tokenize text) ranges
    ∧ Forall2 (λ r span,
                 (r.1 < r.2 ≤ length normalized_text)%nat
                 ∧ char_mapping !! r.1 = Some span.1
                 ∧ char_mapping !! (r.2 - 1)%nat = Some (span.2 - 1)%nat
                 ∧ (0 < span.2)%nat)
              ranges token_mapping.
Proof.
  intros Hmap Hrun Hstems. unfold rematch in Hrun. rewrite Hmap in Hrun.
  destruct (for_each _ _ _) as [st | |] eqn:Hloop; simpl in Hrun; try discriminate Hrun.
  injection Hrun as <-.
  apply for_each_locate in Hloop as (ranges & spans & -> & Hlocated & Hspans).
  exists ranges. split; [done |]. simpl.
  pose proof (located_Forall2 _ _ _ _ Hlocated) as Hranges.
  apply Forall2_same_length_lookup. split.
  { apply Forall2_length in Hspans. done. }
  intros i r span Hr Hspan.
  destruct (Forall2_lookup_r _ _ _ _ _ Hranges Hr) as (token & Htoken & _ & Hend & Hfound).
  eapply Forall_lookup_1 in Hstems; [| exact Htoken].
  pose proof (occurrence_in_bounds _ _ _ Hstems Hfound) as Hbound.
  assert (0 < length (stem token))%nat as Hlen by (destruct (stem token); [done | simpl; lia]).
  destruct (Forall2_lookup_l _ _ _ _ _ Hspans Hr) as (span' & Hspan' & Ha & b & Hb & Hsb).
  assert (span' = span) as -> by congruence.
  apply getitem_nonneg in Ha.
  replace (Z.of_nat r.2 - 1) with (Z.of_nat (r.2 - 1)) in Hb by lia.
  apply getitem_nonneg in Hb.
  split_and!; [lia | lia | done | | lia].
  rewrite Hsb. by replace (S b - 1)%nat with b by lia.
Qed.
End SpanFacts.

(** X12: when no token is empty once its [##] is stripped, every span
    [rematch] returns is non-empty and lies inside the text; spans start in
    the order of the tokens, and a span ends at most one character after
    the next one starts (one, when a single source character normalizes to
    characters of two tokens). *)
Theorem rematch_spans_ordered `{Tokenizer} (text : str) (token_mapping : list span) :
  rematch text = Ok token_mapping →
  Forall (λ token, stem token ≠ []) (custom_tokenize text) →
  Forall (λ span, (span.1 < span.2 ≤ length text)%nat) token_mapping
  ∧ ∀ i span span', token_mapping !! i = Some span → token_mapping !! S i = Some span' →
      (span.1 ≤ span'.1)%nat ∧ (span.2 ≤ S span'.1)%nat.
Proof.
  intros Hrun Hstems.
  destruct (build_char_mapping text) as [normalized_text char_mapping] eqn:Hmap.
  destruct (char_mapping_facts _ _ _ Hmap) as (Hlen & Hbound & Hsorted).
  destruct (rematch_spans _ _ _ _ Hmap Hrun Hstems) as (ranges & Hlocated & Hspans).
  split.
  - apply Forall_lookup. intros i span Hspan.
    destruct (Forall2_lookup_r _ _ _ _ _ Hspans Hspan) as (r & Hr & Hin & Ha & Hb & Hpos).
    pose proof (Hbound _ _ Hb). pose proof (Hsorted r.1 (r.2 - 1)%nat _ _ ltac:(lia) Ha Hb). lia.
  - intros i span span' Hspan Hspan'.
    destruct (Forall2_lookup_r _ _ _ _ _ Hspans Hspan) as (r & Hr & Hin & Ha & Hb & Hpos).
    destruct (Forall2_lookup_r _ _ _ _ _ Hspans Hspan') as (r' & Hr' & Hin' & Ha' & Hb' & Hpos').
    pose proof (located_consecutive _ _ _ _ Hlocated i r r' Hr Hr') as Hnext.
    pose proof (Hsorted r.1 r'.1 _ _ ltac:(lia) Ha Ha').
    pose proof (Hsorted (r.2 - 1)%nat r'.1 _ _ ltac:(lia) Hb Ha'). lia.
Qed.

Lemma rematch_spans_ordered_witness :
  Forall (λ span, (span.1 < span.2 ≤ length sample_mixed)%nat) [(0, 1); (1, 2); (2, 3)]%nat
  ∧ ∀ i span span', [(0, 1); (1, 2); (2, 3)]%nat !! i = Some span →
      [(0, 1); (1, 2); (2, 3)]%nat !! S i = Some span' →
      (span.1 ≤ span'.1)%nat ∧ (span.2 ≤ S span'.1)%nat.
Proof.
  apply (@rematch_spans_ordered sample_bert [97; 66; 99] [(0, 1); (1, 2); (2, 3)]%nat).
  - reflexivity.
  - repeat constructor; discriminate.
Defined.

Section PlainTextFacts.
Context `{Tokenizer}.

(** When normalization changes no character, the normalized text is the
    text and [char_mapping] counts from 0. *)
Lemma char_mapping_plain (text : str) : ∀ (k : nat),
  (∀ ch, ch ∈ text → normalize_char ch = [ch]) →
  mjoin (normalize_char <$> text) = text
  ∧ mjoin (imap (λ i ch, replicate (length (normalize_char ch)) (k + i)%nat) text)
    = seq k (length text).
Proof.
  induction text as [| ch text IH]; intros k Hplain; [done |].
  csimpl.
  rewrite (imap_ext _ (λ i x, replicate (length (normalize_char x)) (S k + i)%nat))
    by (intros; simpl; f_equal; lia).
  destruct (IH (S k)) as [-> ->].
  { intros c Hc. apply Hplain. by apply list_elem_of_further. }
  rewrite (Hplain ch) by apply list_elem_of_here. simpl. by rewrite Nat.add_0_r.
Qed.

Lemma build_char_mapping_plain (text : str) :
  (∀ ch, ch ∈ text → normalize_char ch = [ch]) →
  build_char_mapping text = (text, seq 0 (length text)).
Proof.
  intros Hplain. rewrite build_char_mapping_eq.
  destruct (char_mapping_plain text O Hplain) as [Htext Hmap].
  change (λ (i : nat) (ch : Z), replicate (length (normalize_char ch)) (0 + i)%nat)
    with (λ (i : nat) (ch : Z), replicate (length (normalize_char ch)) i) in Hmap.
  by rewrite Htext, Hmap.
Qed.

(** The loop of [rematch] on tokens that can all be located. *)
Lemma for_each_located normalized_text char_mapping :
  length char_mapping = length normalized_text →
  ∀ tokens offset ranges token_mapping,
    located normalized_text offset tokens ranges →
    Forall (λ token, stem token ≠ []) tokens →
    ∃ st,
      for_each (locate_token normalized_text char_mapping) tokens (token_mapping, offset) = Ok st.
Proof.
  intros Hlen tokens offset ranges token_mapping Hlocated. revert token_mapping.
  induction Hlocated as [| offset token tokens start ranges Hstart Hfound Hfirst _ IH];
    intros token_mapping Hstems; [simpl; eauto |].
  apply Forall_cons in Hstems as [Hstem Hstems].
  change (for_each ?f (?x :: ?xs) ?s) with (f s x ≫= for_each f xs).
  assert (∃ a b,
            locate_token normalized_text char_mapping (token_mapping, offset) token
            = Ok (token_mapping ++ [(a, (b + 1)%nat)], (start + length (stem token))%nat))
    as (a & b & ->); [| simpl; by apply IH].
  unfold locate_token.
  destruct (str_index_found (drop offset normalized_text) (stem token) (start - offset))
    as (i & Hi & Hle).
  { rewrite drop_drop. by replace (offset + (start - offset))%nat with start by lia. }
  pose proof (str_index_Ok _ _ _ Hi) as [Hat _]. rewrite drop_drop in Hat.
  assert (i + offset = start)%nat as Hstart'.
  { destruct (decide (offset + i < start)%nat) as [Hlt | Hge]; [| lia].
    exfalso. by apply (Hfirst (offset + i)%nat ltac:(lia)). }
  rewrite Hi. simpl. rewrite Hstart'.
  pose proof (occurrence_in_bounds _ _ _ Hstem Hfound) as Hbound.
  assert (0 < length (stem token))%nat by (destruct (stem token); [done | simpl; lia]).
  destruct (lookup_lt_is_Some_2 char_mapping start ltac:(lia)) as [a Ha].
  destruct (lookup_lt_is_Some_2 char_mapping (start + length (stem token) - 1) ltac:(lia))
    as [b Hb].
  apply getitem_nonneg in Ha, Hb. rewrite Ha. simpl.
  replace (Z.of_nat (start + length (stem token)) - 1)
    with (Z.of_nat (start + length (stem token) - 1)) by lia.
  rewrite Hb. simpl. eauto.
Qed.
End PlainTextFacts.

(** X13: [rematch] fails only for a token it cannot find: if every token
    (non-empty once its [##] is stripped) occurs in the normalized text
    after the one before, [rematch] returns, and never reads [char_mapping]
    out of range. *)
Theorem rematch_returns_when_located `{Tokenizer} (text : str) (ranges : list (nat * nat)) :
  located (build_char_mapping text).1 O (custom_tokenize text) ranges →
  Forall (λ token, stem token ≠ []) (custom_tokenize text) →
  ∃ token_mapping, rematch text = Ok token_mapping.
Proof.
  intros Hlocated Hstems. unfold rematch.
  destruct (build_char_mapping text) as [normalized_text char_mapping] eqn:Hmap.
  destruct (char_mapping_facts _ _ _ Hmap) as (Hlen & _).
  destruct (for_each_located normalized_text char_mapping Hlen _ _ _ [] Hlocated Hstems)
    as [st ->].
  simpl. eauto.
Qed.

Lemma rematch_returns_when_located_witness :
  ∃ token_mapping, @rematch sample_bert [97; 98] = Ok token_mapping.
Proof.
  apply (@rematch_returns_when_located sample_bert [97; 98] [(0, 1); (1, 2)]%nat).
  - apply (located_cons [97; 98] O [97] [[98]] O [(1, 2)%nat]); [lia | reflexivity | lia |].
    apply (located_cons [97; 98] 1%nat [98] [] 1%nat []); [lia | reflexivity | lia |].
    apply located_nil.
  - repeat constructor; discriminate.
Defined.

(** X14: on a text that normalization leaves as it is, the spans are
    positions in the text itself: cutting the text at a token's span gives
    back the token (without its [##]), and the spans do not overlap. *)
Theorem rematch_plain_text `{Tokenizer} (text : str) (token_mapping : list span) :
  (∀ ch, ch ∈ text → normalize_char ch = [ch]) →
  Forall (λ token, stem token ≠ []) (custom_tokenize text) →
  rematch text = Ok token_mapping →
  Forall2 (λ token span, pair_range span text = stem token) (custom_tokenize text) token_mapping
  ∧ ∀ i span span', token_mapping !! i = Some span → token_mapping !! S i = Some span' →
      (span.2 ≤ span'.1)%nat.
Proof.
  intros Hplain Hstems Hrun.
  pose proof (build_char_mapping_plain text Hplain) as Hmap.
  destruct (rematch_spans _ _ _ _ Hmap Hrun Hstems) as (ranges & Hlocated & Hspans).
  assert (Forall2 (λ r span, r = span) ranges token_mapping) as Hsame.
  { eapply Forall2_impl; [exact Hspans |].
    intros [r1 r2] [a b] (Hin & Ha & Hb & Hpos). simpl in *.
    apply lookup_seq in Ha as [-> _]. apply lookup_seq in Hb as [Hb _]. f_equal; lia. }
  assert (ranges = token_mapping) as ->.
  { apply list_eq_Forall2. eapply Forall2_impl; [exact Hsame |]. done. }
  split.
  - eapply Forall2_impl; [exact (located_Forall2 _ _ _ _ Hlocated) |].
    intros token [a b] (_ & Hend & Hfound). simpl in *. unfold pair_range. simpl.
    by replace (b - a)%nat with (length (stem token)) by lia.
  - apply (located_consecutive _ _ _ _ Hlocated).
Qed.

Lemma rematch_plain_text_witness :
  Forall2 (λ token span, pair_range span [97; 98] = stem token)
    (@custom_tokenize sample_bert [97; 98]) [(0, 1); (1, 2)]%nat
  ∧ ∀ i span span', [(0, 1); (1, 2)]%nat !! i = Some span →
      [(0, 1); (1, 2)]%nat !! S i = Some span' → (span.2 ≤ span'.1)%nat.
Proof.
  apply (@rematch_plain_text sample_bert [97; 98] [(0, 1); (1, 2)]%nat).
  - intros ch Hch.
    repeat (apply elem_of_cons in Hch as [-> | Hch]; [reflexivity |]).
    by apply elem_of_nil in Hch.
  - repeat constructor; discriminate.
  - reflexivity.
Defined.

Lemma zip_with_left {A B : Type} (f : A → B → A) (l : list A) (k : list B) :
  length k = length l → Forall (λ x, ∀ y, f x y = x) l → zip_with f l k = l.
Proof.
  revert k. induction l as [| x l IH]; intros [| y k] Hlen Hf; try done.
  apply Forall_cons in Hf as [Hx Hf]. simpl. rewrite Hx. f_equal. apply IH; [| done].
  simpl in Hlen. lia.
Qed.

(** X15: where the WordPiece tokenizer gives no unknown token,
    [custom_tokenize] is [tokenize]: the tokens [rematch] looks for are
    exactly the ones the ids come from. *)
Theorem custom_tokenize_known `{Tokenizer} (text : str) :
  Forall (λ token, token ≠ unk_token) (tokenize text) →
  custom_tokenize text = tokenize text.
Proof.
  intros Hknown. destruct (custom_tokenize_zip text) as [Hlen ->].
  apply zip_with_left; [done |].
  eapply Forall_impl; [exact Hknown |].
  intros token Hne word. unfold searched_token. by destruct (decide (token = unk_token)).
Qed.

Lemma custom_tokenize_known_witness :
  @custom_tokenize sample_bert sample_text = @tokenize sample_bert sample_text.
Proof.
  apply (@custom_tokenize_known sample_bert sample_text).
  repeat constructor; discriminate.
Defined.

(** ** The fields of one window *)

Section WindowLayout.
Context `{Tokenizer}.

Ltac layout_case padl padr :=
  solve
    [ exists padl, padr;
      repeat match goal with
             | Hside : String.eqb _ _ = true |- _ => apply String.eqb_eq in Hside
             | Hside : String.eqb _ _ = false |- _ => apply String.eqb_neq in Hside
             end;
      cbn -[Z.leb Z.ltb Z.eqb String.eqb len times range];
      unfold times, len in *;
      rewrite ?app_nil_r, ?length_app, ?length_replicate, ?Nat.add_0_r, ?Nat2Z.id;
      split_and!;
      first [ reflexivity | lia | done | congruence
            | (intros ? [= <-]; reflexivity)
            | (intros _ _; split_and!; first [done | lia])
            | (intros; first [done | congruence | lia])
            | intros; congruence
            | (intros _ [? | ?]; congruence)
            | (left; split; [lia | done])
            | (right; split_and!; first [done | lia | (left; split_and!; first [done | lia])
                                        | (right; split_and!; first [done | lia])]) ] ].

(** Everything one pass writes, with the padding it adds: [padl] pad
    entries in front and [padr] behind, one of them zero. *)
Lemma encode_window_layout args example_id ids mapping pair_ids pair_mapping encoded_inputs :
  encode_window args example_id ids mapping pair_ids pair_mapping = Ok encoded_inputs →
  ∃ padl padr : nat,
    ((padl = O ∧ padr = O)
     ∨ (pad_to_max_seq_len args = true
        ∧ len (build_inputs_with_special_tokens ids (Some pair_ids)) < max_seq_len args
        ∧ ((padding_side = "right" ∧ padl = O
            ∧ len (build_inputs_with_special_tokens ids (Some pair_ids)) + Z.of_nat padr
              = max_seq_len args)
           ∨ (padding_side = "left" ∧ padr = O
              ∧ Z.of_nat padl + len (build_inputs_with_special_tokens ids (Some pair_ids))
                = max_seq_len args))))
    ∧ len (build_inputs_with_special_tokens ids (Some pair_ids)) ≤ max_seq_len args
    ∧ (pad_to_max_seq_len args = true → padding_side = "right" ∨ padding_side = "left" →
       Z.of_nat padl + len (build_inputs_with_special_tokens ids (Some pair_ids)) + Z.of_nat padr
       = max_seq_len args)
    ∧ input_ids encoded_inputs
      = Some (replicate padl pad_token_id
                ++ build_inputs_with_special_tokens ids (Some pair_ids)
                ++ replicate padr pad_token_id)
    ∧ offset_mapping encoded_inputs
      = Some (replicate padl (0, 0)%nat
                ++ build_offset_mapping_with_special_tokens mapping (Some pair_mapping)
                ++ replicate padr (0, 0)%nat)
    ∧ token_type_ids encoded_inputs
      = (if return_token_type_ids args
         then Some (replicate padl pad_token_type_id
                      ++ create_token_type_ids_from_sequences ids (Some pair_ids)
                      ++ replicate padr pad_token_type_id)
         else None)
    ∧ (Ok <$> special_tokens_mask encoded_inputs)
      = (if return_special_tokens_mask args
         then Some (mask ← get_special_tokens_mask ids (Some pair_ids) false;
                    Ok (replicate padl 1 ++ mask ++ replicate padr 1))
         else None)
    ∧ (∀ mask, attention_mask encoded_inputs = Some mask →
         mask = replicate padl 0
                  ++ replicate (length (build_inputs_with_special_tokens ids (Some pair_ids))) 1
                  ++ replicate padr 0)
    ∧ (return_attention_mask args = true →
       attention_mask encoded_inputs = None →
       pad_to_max_seq_len args = true
       ∧ len (build_inputs_with_special_tokens ids (Some pair_ids)) < max_seq_len args
       ∧ padding_side ≠ "right" ∧ padding_side ≠ "left")
    ∧ (return_attention_mask args = false → attention_mask encoded_inputs = None)
    ∧ (pad_to_max_seq_len args = true →
       len (build_inputs_with_special_tokens ids (Some pair_ids)) < max_seq_len args →
       padding_side ≠ "right" → padding_side ≠ "left" →
       attention_mask encoded_inputs = None)
    ∧ position_ids encoded_inputs
      = (if return_position_ids args
         then Some (range (padl + length (build_inputs_with_special_tokens ids (Some pair_ids))
                           + padr))
         else None)
    ∧ seq_len encoded_inputs
      = (if return_length args
         then Some (len (build_inputs_with_special_tokens ids (Some pair_ids)))
         else None)
    ∧ overflow_to_sample encoded_inputs = Some (Z.of_nat example_id).
Proof.
  unfold encode_window.
  change (get_special_tokens_mask ids (Some pair_ids) false)
    with (Ok ([1] ++ times (len ids) 0 ++ [1] ++ times (len pair_ids) 0 ++ [1])).
  set (mask := [1] ++ times (len ids) 0 ++ [1] ++ times (len pair_ids) 0 ++ [1]).
  set (sequence := build_inputs_with_special_tokens ids (Some pair_ids)).
  set (tti := create_token_type_ids_from_sequences ids (Some pair_ids)).
  set (om := build_offset_mapping_with_special_tokens mapping (Some pair_mapping)).
  clearbody mask sequence tti om.
  destruct (return_token_type_ids args), (return_special_tokens_mask args),
    (return_length args), (return_attention_mask args), (return_position_ids args),
    (pad_to_max_seq_len args).
  all: cbn -[Z.leb Z.ltb Z.eqb String.eqb len times range].
  all: destruct (len sequence <=? max_seq_len args) eqn:Hle;
    cbn -[Z.leb Z.ltb Z.eqb String.eqb len times range]; [| discriminate].
  all: repeat match goal with
         | |- context [if ?c then _ else _] =>
           destruct c eqn:?; cbn -[Z.leb Z.ltb Z.eqb String.eqb len times range]
         end.
  all: intros [= <-].
  all: first
    [ layout_case O O
    | layout_case O (Z.to_nat (max_seq_len args - len sequence))
    | layout_case (Z.to_nat (max_seq_len args - len sequence)) O ].
Qed.
End WindowLayout.

(** X16: whatever one pass pads, it pads every field on the same side by
    the same amount: [input_ids] with the pad id, [token_type_ids] with the
    pad type id, [special_tokens_mask] with 1, [attention_mask] with 0
    around a run of 1, [offset_mapping] with (0, 0). *)
Theorem window_padding `{Tokenizer} (args : batch_args) (example_id : nat)
    (ids pair_ids : list Z) (mapping pair_mapping : list span) (encoded_inputs : encoded) :
  encode_window args example_id ids mapping pair_ids pair_mapping = Ok encoded_inputs →
  ∃ padl padr : nat,
    (padl = O ∨ padr = O)
    ∧ input_ids encoded_inputs
      = Some (replicate padl pad_token_id
                ++ build_inputs_with_special_tokens ids (Some pair_ids)
                ++ replicate padr pad_token_id)
    ∧ offset_mapping encoded_inputs
      = Some (replicate padl (0, 0)%nat
                ++ build_offset_mapping_with_special_tokens mapping (Some pair_mapping)
                ++ replicate padr (0, 0)%nat)
    ∧ (∀ l, token_type_ids encoded_inputs = Some l →
         l = replicate padl pad_token_type_id
               ++ create_token_type_ids_from_sequences ids (Some pair_ids)
               ++ replicate padr pad_token_type_id)
    ∧ (∀ l, special_tokens_mask encoded_inputs = Some l →
         ∃ mask, get_special_tokens_mask ids (Some pair_ids) false = Ok mask
           ∧ l = replicate padl 1 ++ mask ++ replicate padr 1)
    ∧ (∀ l, attention_mask encoded_inputs = Some l →
         l = replicate padl 0
               ++ replicate (length (build_inputs_with_special_tokens ids (Some pair_ids))) 1
               ++ replicate padr 0).
Proof.
  intros Hrun.
  destruct (encode_window_layout _ _ _ _ _ _ _ Hrun)
    as (padl & padr & Hpad & _ & _ & Hids & Hom & Htti & Hmask & Hatt & _).
  exists padl, padr. split_and!; [| done | done | | | done].
  - destruct Hpad as [[-> _] | (_ & _ & [(_ & -> & _) | (_ & -> & _)])]; auto.
  - intros l Hl. rewrite Hl in Htti. destruct (return_token_type_ids args); congruence.
  - intros l Hl. rewrite Hl in Hmask. simpl in Hmask.
    destruct (return_special_tokens_mask args); [| done].
    injection Hmask as ->. eexists. split; reflexivity.
Qed.

Lemma window_padding_witness :
  ∃ padl padr : nat,
    (padl = O ∨ padr = O)
    ∧ Some [2; 97; 3; 98; 3; 0; 0]
      = Some (replicate padl (@pad_token_id sample_bert)
                ++ @build_inputs_with_special_tokens sample_bert [97] (Some [98])
                ++ replicate padr (@pad_token_id sample_bert))
    ∧ Some [(0, 0); (0, 1); (0, 0); (0, 1); (0, 0); (0, 0); (0, 0)]%nat
      = Some (replicate padl (0, 0)%nat
                ++ build_offset_mapping_with_special_tokens [(0, 1)%nat] (Some [(0, 1)%nat])
                ++ replicate padr (0, 0)%nat)
    ∧ (∀ l, Some [2; 0; 0; 1; 1; 0; 0] = Some l →
         l = replicate padl (@pad_token_type_id sample_bert)
               ++ @create_token_type_ids_from_sequences sample_bert [97] (Some [98])
               ++ replicate padr (@pad_token_type_id sample_bert))
    ∧ (∀ l, Some [1; 0; 1; 0; 1; 1; 1] = Some l →
         ∃ mask, @get_special_tokens_mask sample_bert [97] (Some [98]) false = Ok mask
           ∧ l = replicate padl 1 ++ mask ++ replicate padr 1)
    ∧ (∀ l, Some [1; 1; 1; 1; 1; 0; 0] = Some l →
         l = replicate padl 0
               ++ replicate
                    (length (@build_inputs_with_special_tokens sample_bert [97] (Some [98]))) 1
               ++ replicate padr 0).
Proof.
  apply (@window_padding sample_bert (sample_args 7 1 true) 0 [97] [98]
           [(0, 1)%nat] [(0, 1)%nat]
           {| input_ids := Some [2; 97; 3; 98; 3; 0; 0];
              token_type_ids := Some [2; 0; 0; 1; 1; 0; 0];
              special_tokens_mask := Some [1; 0; 1; 0; 1; 1; 1];
              seq_len := Some 5;
              offset_mapping := Some [(0, 0); (0, 1); (0, 0); (0, 1); (0, 0); (0, 0); (0, 0)]%nat;
              attention_mask := Some [1; 1; 1; 1; 1; 0; 0];
              position_ids := Some [0; 1; 2; 3; 4; 5; 6];
              overflow_to_sample := Some 0 |}).
  reflexivity.
Defined.

(** X17: no window is longer than [max_seq_len] (a longer one fails the
    assertion), and with [pad_to_max_seq_len] and a padding side of "right"
    or "left" every window has exactly [max_seq_len] input ids. *)
Theorem window_length `{Tokenizer} (args : batch_args) (example_id : nat)
    (ids pair_ids : list Z) (mapping pair_mapping : list span) :
  (max_seq_len args < len (build_inputs_with_special_tokens ids (Some pair_ids)) →
   encode_window args example_id ids mapping pair_ids pair_mapping = Raise AssertionError)
  ∧ ∀ encoded_inputs,
      encode_window args example_id ids mapping pair_ids pair_mapping = Ok encoded_inputs →
      ∃ l, input_ids encoded_inputs = Some l
        ∧ len l ≤ max_seq_len args
        ∧ (pad_to_max_seq_len args = true →
           padding_side = "right" ∨ padding_side = "left" →
           len l = max_seq_len args).
Proof.
  split.
  - intros Hlong.
    pose proof (encode_window_spec args example_id ids mapping pair_ids pair_mapping) as Hspec.
    cbv zeta in Hspec.
    destruct (len (build_inputs_with_special_tokens ids (Some pair_ids)) <=? max_seq_len args)
      eqn:E; [lia | done].
  - intros encoded_inputs Hrun.
    destruct (encode_window_layout _ _ _ _ _ _ _ Hrun)
      as (padl & padr & Hpad & Hle & Hfull & Hids & _).
    eexists. split; [exact Hids |].
    unfold len in *. rewrite !length_app, !length_replicate. split.
    + destruct Hpad as [[-> ->] | (_ & _ & [(_ & -> & ?) | (_ & -> & ?)])]; lia.
    + intros Hflag Hside. specialize (Hfull Hflag Hside). lia.
Qed.

Lemma window_length_witness :
  @encode_window sample_bert (sample_args 4 1 true) 0 [97] [(0, 1)%nat] [98] [(0, 1)%nat]
  = Raise AssertionError
  ∧ ∃ l, Some [2; 97; 3; 98; 3; 0; 0] = Some l
      ∧ len l ≤ max_seq_len (sample_args 7 1 true)
      ∧ (pad_to_max_seq_len (sample_args 7 1 true) = true →
         @padding_side sample_bert = "right" ∨ @padding_side sample_bert = "left" →
         len l = max_seq_len (sample_args 7 1 true)).
Proof.
  split.
  - apply (proj1 (@window_length sample_bert (sample_args 4 1 true) 0 [97] [98]
                    [(0, 1)%nat] [(0, 1)%nat])).
    reflexivity.
  - apply (proj2 (@window_length sample_bert (sample_args 7 1 true) 0 [97] [98]
                    [(0, 1)%nat] [(0, 1)%nat])
             {| input_ids := Some [2; 97; 3; 98; 3; 0; 0];
                token_type_ids := Some [2; 0; 0; 1; 1; 0; 0];
                special_tokens_mask := Some [1; 0; 1; 0; 1; 1; 1];
                seq_len := Some 5;
                offset_mapping :=
                  Some [(0, 0); (0, 1); (0, 0); (0, 1); (0, 0); (0, 0); (0, 0)]%nat;
                attention_mask := Some [1; 1; 1; 1; 1; 0; 0];
                position_ids := Some [0; 1; 2; 3; 4; 5; 6];
                overflow_to_sample := Some 0 |}).
    reflexivity.
Defined.

(** X18: which keys a window has: [input_ids], [offset_mapping] and
    [overflow_to_sample] always; [token_type_ids], [special_tokens_mask],
    [seq_len] and [position_ids] exactly when asked for; [attention_mask]
    when asked for, except that it is left out when padding is due and the
    padding side is neither "right" nor "left" (and then nothing is padded). *)
Theorem window_keys `{Tokenizer} (args : batch_args) (example_id : nat)
    (ids pair_ids : list Z) (mapping pair_mapping : list span) (encoded_inputs : encoded) :
  encode_window args example_id ids mapping pair_ids pair_mapping = Ok encoded_inputs →
  is_Some (input_ids encoded_inputs)
  ∧ is_Some (offset_mapping encoded_inputs)
  ∧ overflow_to_sample encoded_inputs = Some (Z.of_nat example_id)
  ∧ (is_Some (token_type_ids encoded_inputs) ↔ return_token_type_ids args = true)
  ∧ (is_Some (special_tokens_mask encoded_inputs) ↔ return_special_tokens_mask args = true)
  ∧ (is_Some (seq_len encoded_inputs) ↔ return_length args = true)
  ∧ (is_Some (position_ids encoded_inputs) ↔ return_position_ids args = true)
  ∧ (is_Some (attention_mask encoded_inputs) ↔
     return_attention_mask args = true
     ∧ ¬ (pad_to_max_seq_len args = true
          ∧ len (build_inputs_with_special_tokens ids (Some pair_ids)) < max_seq_len args
          ∧ padding_side ≠ "right" ∧ padding_side ≠ "left"))
  ∧ (pad_to_max_seq_len args = true →
     len (build_inputs_with_special_tokens ids (Some pair_ids)) < max_seq_len args →
     padding_side ≠ "right" → padding_side ≠ "left" →
     input_ids encoded_inputs = Some (build_inputs_with_special_tokens ids (Some pair_ids))).
Proof.
  intros Hrun.
  destruct (encode_window_layout _ _ _ _ _ _ _ Hrun)
    as (padl & padr & Hpad & _ & _ & Hids & Hom & Htti & Hmask & _ & Hatt1 & Hatt2 & Hatt3
        & Hpos & Hlen & Hsample).
  split_and!; [by rewrite Hids | by rewrite Hom | done | | | | | |].
  - rewrite Htti. destruct (return_token_type_ids args); split; (done || by intros []).
  - destruct (special_tokens_mask encoded_inputs), (return_special_tokens_mask args);
      simpl in Hmask; split; (done || by intros [] || eauto).
  - rewrite Hlen. destruct (return_length args); split; (done || by intros []).
  - rewrite Hpos. destruct (return_position_ids args); split; (done || by intros []).
  - destruct (attention_mask encoded_inputs) as [l |] eqn:Hl.
    + split; [| eauto]. intros _.
      destruct (return_attention_mask args) eqn:Hflag; [| by specialize (Hatt2 eq_refl)].
      split; [done |]. intros (Hp & Hlt & Hr & Hl'). by specialize (Hatt3 Hp Hlt Hr Hl').
    + split; [by intros [] |]. intros [Hflag Hnot]. destruct Hnot. by apply Hatt1.
  - intros Hp Hlt Hr Hl.
    destruct Hpad as [[-> ->] | (_ & _ & [(? & _) | (? & _)])]; [| done | done].
    rewrite Hids. simpl. by rewrite app_nil_r.
Qed.

Lemma window_keys_witness :
  is_Some (attention_mask
             {| input_ids := Some [2; 97; 3; 98; 3];
                token_type_ids := Some [2; 0; 0; 1; 1];
                special_tokens_mask := Some [1; 0; 1; 0; 1];
                seq_len := Some 5;
                offset_mapping := Some [(0, 0); (0, 1); (0, 0); (0, 1); (0, 0)]%nat;
                attention_mask := None;
                position_ids := Some [0; 1; 2; 3; 4];
                overflow_to_sample := Some 0 |}) ↔
  return_attention_mask (sample_args 7 1 true) = true
  ∧ ¬ (pad_to_max_seq_len (sample_args 7 1 true) = true
       ∧ len (@build_inputs_with_special_tokens (sample_tokenizer [3] "middle") [97] (Some [98]))
         < max_seq_len (sample_args 7 1 true)
       ∧ @padding_side (sample_tokenizer [3] "middle") ≠ "right"
       ∧ @padding_side (sample_tokenizer [3] "middle") ≠ "left").
Proof.
  apply (@window_keys (sample_tokenizer [3] "middle") (sample_args 7 1 true) 0 [97] [98]
           [(0, 1)%nat] [(0, 1)%nat]).
  reflexivity.
Defined.

(** X19: [seq_len] is the length before padding, so a padded window has
    [seq_len] below the length of its [input_ids], while [position_ids]
    counts the padded [input_ids] from 0. *)
Theorem window_seq_len `{Tokenizer} (args : batch_args) (example_id : nat)
    (ids pair_ids : list Z) (mapping pair_mapping : list span) (encoded_inputs : encoded) :
  encode_window args example_id ids mapping pair_ids pair_mapping = Ok encoded_inputs →
  ∃ l, input_ids encoded_inputs = Some l
    ∧ (∀ n, seq_len encoded_inputs = Some n →
         n = len (build_inputs_with_special_tokens ids (Some pair_ids)) ∧ n ≤ len l)
    ∧ (∀ p, position_ids encoded_inputs = Some p → p = range (length l))
    ∧ (pad_to_max_seq_len args = true →
       padding_side = "right" ∨ padding_side = "left" →
       ∀ n, seq_len encoded_inputs = Some n → n < max_seq_len args → n < len l).
Proof.
  intros Hrun.
  destruct (encode_window_layout _ _ _ _ _ _ _ Hrun)
    as (padl & padr & _ & _ & Hfull & Hids & _ & _ & _ & _ & _ & _ & _ & Hpos & Hlen & _).
  eexists. split; [exact Hids |].
  unfold len in *. rewrite !length_app, !length_replicate. split_and!.
  - intros n Hn. rewrite Hn in Hlen. destruct (return_length args); [| done].
    injection Hlen as ->. lia.
  - intros p Hp. rewrite Hp in Hpos. destruct (return_position_ids args); [| done].
    injection Hpos as ->. f_equal. lia.
  - intros Hflag Hside n Hn Hlt. specialize (Hfull Hflag Hside).
    rewrite Hn in Hlen. destruct (return_length args); [| done].
    injection Hlen as ->. lia.
Qed.

Lemma window_seq_len_witness :
  ∃ l, Some [2; 97; 3; 98; 3; 0; 0] = Some l
    ∧ (∀ n, Some 5 = Some n →
         n = len (@build_inputs_with_special_tokens sample_bert [97] (Some [98])) ∧ n ≤ len l)
    ∧ (∀ p, Some [0; 1; 2; 3; 4; 5; 6] = Some p → p = range (length l))
    ∧ (pad_to_max_seq_len (sample_args 7 1 true) = true →
       @padding_side sample_bert = "right" ∨ @padding_side sample_bert = "left" →
       ∀ n, Some 5 = Some n → n < max_seq_len (sample_args 7 1 true) → n < len l).
Proof.
  apply (@window_seq_len sample_bert (sample_args 7 1 true) 0 [97] [98]
           [(0, 1)%nat] [(0, 1)%nat]
           {| input_ids := Some [2; 97; 3; 98; 3; 0; 0];
              token_type_ids := Some [2; 0; 0; 1; 1; 0; 0];
              special_tokens_mask := Some [1; 0; 1; 0; 1; 1; 1];
              seq_len := Some 5;
              offset_mapping := Some [(0, 0); (0, 1); (0, 0); (0, 1); (0, 0); (0, 0); (0, 0)]%nat;
              attention_mask := Some [1; 1; 1; 1; 1; 0; 0];
              position_ids := Some [0; 1; 2; 3; 4; 5; 6];
              overflow_to_sample := Some 0 |}).
  reflexivity.
Defined.

(** ** The whole batch *)

Section BatchFacts.
Context `{Tokenizer}.

Lemma slice_to_both {A B : Type} (l : list A) (l' : list B) (k : Z) :
  length l = length l' → ∃ j, slice_to l k = take j l ∧ slice_to l' k = take j l'.
Proof. intros Hlen. unfold slice_to. rewrite Hlen. destruct (0 <=? k); eauto. Qed.

Lemma slice_from_both {A B : Type} (l : list A) (l' : list B) (k : Z) :
  length l = length l' → ∃ j, slice_from l k = drop j l ∧ slice_from l' k = drop j l'.
Proof. intros Hlen. unfold slice_from. rewrite Hlen. destruct (0 <=? k); eauto. Qed.

Lemma pair_range_end {A : Type} (o n : nat) (l : list A) :
  length l = n → pair_range (o, n) l = drop o l.
Proof.
  intros Hlen. unfold pair_range. simpl. rewrite take_ge; [done |]. rewrite length_drop. lia.
Qed.

Lemma pair_range_take {A : Type} (o j : nat) (l : list A) :
  pair_range (o, (o + j)%nat) l = take j (drop o l).
Proof. unfold pair_range. simpl. by replace (o + j - o)%nat with j by lia. Qed.

Lemma pair_range_zip {A B : Type} (r : nat * nat) (l : list A) (l' : list B) :
  pair_range r (zip l l') = zip (pair_range r l) (pair_range r l').
Proof. unfold pair_range. by rewrite zip_with_drop, zip_with_take. Qed.

Lemma length_pair_range {A B : Type} (r : nat * nat) (l : list A) (l' : list B) :
  length l = length l' → length (pair_range r l) = length (pair_range r l').
Proof. intros Hlen. unfold pair_range. rewrite !length_take, !length_drop. lia. Qed.

(** Whatever the loop returns: at least one window, each made of
    [first_ids] and of one range of the pair, ids and spans alike. *)
Lemma sliding_windows_ranges args example_id first_ids token_offset_mapping max_len_for_pair
    (second_ids : list Z) (token_pair_offset_mapping : list span) :
  length token_pair_offset_mapping = length second_ids →
  ∀ fuel o batch_encode_inputs out,
    sliding_windows fuel args example_id first_ids token_offset_mapping max_len_for_pair
      (drop o second_ids) (drop o token_pair_offset_mapping) batch_encode_inputs = Ok out →
    ∃ encoded_inputs wins,
      out = batch_encode_inputs ++ encoded_inputs :: wins
      ∧ Forall (λ e, ∃ r,
                  encode_window args example_id first_ids token_offset_mapping
                    (pair_range r second_ids) (pair_range r token_pair_offset_mapping)
                  = Ok e)
               (encoded_inputs :: wins).
Proof.
  intros Hlen. induction fuel as [| fuel IH]; intros o batch_encode_inputs out Hrun; [done |].
  rewrite sliding_windows_S in Hrun.
  assert (length (drop o second_ids) = length (drop o token_pair_offset_mapping)) as Hdrop
    by (rewrite !length_drop; lia).
  destruct (len (drop o second_ids) <=? max_len_for_pair) eqn:Hfit.
  - bind_ok Hrun. injection Hrun as <-.
    eexists _, []. split; [done |]. constructor; [| done].
    exists (o, length second_ids). by rewrite !pair_range_end.
  - destruct (slice_to_both _ _ max_len_for_pair Hdrop) as (j & Hj & Hj').
    destruct (slice_from_both _ _ (max_len_for_pair - stride args) Hdrop) as (j' & Hk & Hk').
    rewrite Hj, Hj', Hk, Hk', !drop_drop in Hrun.
    bind_ok Hrun. apply IH in Hrun as (w & wins & -> & Hwins).
    eexists _, (w :: wins). split; [by rewrite <- (assoc_L (++)) |].
    constructor; [| done]. exists (o, (o + j)%nat). by rewrite !pair_range_take.
Qed.

Lemma encode_item_ranges fuel args example_id text text_pair batch_encode_inputs out :
  0 < stride args →
  encode_item fuel args example_id text (Some text_pair) batch_encode_inputs = Ok out →
  ∃ token_offset_mapping token_pair_offset_mapping encoded_inputs wins,
    rematch text = Ok token_offset_mapping
    ∧ rematch text_pair = Ok token_pair_offset_mapping
    ∧ out = batch_encode_inputs ++ encoded_inputs :: wins
    ∧ Forall (λ e, ∃ r,
                encode_window args example_id (get_input_ids text) token_offset_mapping
                  (pair_range r (get_input_ids text_pair))
                  (pair_range r token_pair_offset_mapping)
                = Ok e)
             (encoded_inputs :: wins).
Proof.
  intros Hstride Hrun. unfold encode_item in Hrun.
  destruct (0 <? stride args) eqn:E0; [| lia].
  destruct (rematch text) as [token_offset_mapping | |] eqn:Htext; try discriminate Hrun.
  destruct (rematch text_pair) as [token_pair_offset_mapping | |] eqn:Hpair;
    try discriminate Hrun.
  cbn [mbind result_bind] in Hrun.
  destruct (sliding_windows_ranges args example_id (get_input_ids text) token_offset_mapping
              (max_len_for_pair_of args (get_input_ids text)) (get_input_ids text_pair)
              token_pair_offset_mapping (rematch_length _ _ Hpair) fuel O
              batch_encode_inputs out Hrun) as (w & wins & Hout & Hwins).
  by exists token_offset_mapping, token_pair_offset_mapping, w, wins.
Qed.

(** The windows of a batch of pairs, item by item. *)
Lemma batch_encode_items fuel args :
  0 < stride args →
  ∀ (items : list (str * option str)) (k : nat) batch_encode_inputs out,
    Forall (λ item, is_Some item.2) items →
    for_each (λ batch_encode_inputs '(example_id, (text, text_pair)),
                encode_item fuel args example_id text text_pair batch_encode_inputs)
      (imap (λ i item, ((k + i)%nat, item)) items) batch_encode_inputs = Ok out →
    ∃ groups : list (list encoded),
      out = batch_encode_inputs ++ mjoin groups
      ∧ length groups = length items
      ∧ ∀ j group, groups !! j = Some group →
          group ≠ []
          ∧ ∃ text text_pair token_offset_mapping token_pair_offset_mapping,
              items !! j = Some (text, Some text_pair)
              ∧ rematch text = Ok token_offset_mapping
              ∧ rematch text_pair = Ok token_pair_offset_mapping
              ∧ Forall (λ e, ∃ r,
                          encode_window args (k + j) (get_input_ids text) token_offset_mapping
                            (pair_range r (get_input_ids text_pair))
                            (pair_range r token_pair_offset_mapping)
                          = Ok e)
                       group.
Proof.
  intros Hstride.
  induction items as [| [text text_pair] items IH]; intros k batch_encode_inputs out Hpairs Hrun.
  { simpl in Hrun. injection Hrun as <-. exists []. simpl. rewrite app_nil_r.
    split_and!; [done | done |]. intros j group Hj. by rewrite lookup_nil in Hj. }
  apply Forall_cons in Hpairs as [[pair Hsome] Hpairs]. simpl in Hsome. subst text_pair.
  rewrite imap_cons in Hrun.
  change (for_each ?f (?x :: ?xs) ?s) with (f s x ≫= for_each f xs) in Hrun.
  cbv beta iota in Hrun.
  destruct (encode_item fuel args (k + 0) text (Some pair) batch_encode_inputs)
    as [mid | |] eqn:Hitem; try discriminate Hrun.
  cbn [mbind result_bind] in Hrun.
  rewrite (imap_ext _ (λ i item, ((S k + i)%nat, item))) in Hrun
    by (intros i item _; simpl; f_equal; lia).
  apply IH in Hrun as (groups & -> & Hlen & Hgroups); [| done].
  apply encode_item_ranges in Hitem
    as (token_offset_mapping & token_pair_offset_mapping & w & wins
        & Htext & Hpair & -> & Hwins); [| done].
  exists ((w :: wins) :: groups). split_and!.
  - simpl. by rewrite <- !(assoc_L (++)).
  - simpl. by rewrite Hlen.
  - intros [| j] group Hj; simpl in Hj.
    + injection Hj as <-. split; [done |].
      by exists text, pair, token_offset_mapping, token_pair_offset_mapping.
    + destruct (Hgroups j group Hj) as [Hne (text' & pair' & tom & tpom & Hj' & Ht & Hp & Hw)].
      split; [done |]. exists text', pair', tom, tpom.
      replace (k + S j)%nat with (S k + j)%nat by lia. done.
Qed.

(** A window under the layout [[cls] A [sep] B [sep]]: ids and spans side
    by side. *)
Lemma encode_window_zip args example_id ids mapping pair_ids pair_mapping encoded_inputs :
  (∀ a b, build_inputs_with_special_tokens a (Some b)
          = bert_build_inputs_with_special_tokens cls_token_id sep_token_id a (Some b)) →
  length mapping = length ids → length pair_mapping = length pair_ids →
  encode_window args example_id ids mapping pair_ids pair_mapping = Ok encoded_inputs →
  ∃ (padl padr : nat) sequence spans,
    input_ids encoded_inputs = Some sequence
    ∧ offset_mapping encoded_inputs = Some spans
    ∧ zip sequence spans
      = replicate padl (pad_token_id, (0, 0)%nat)
          ++ [(cls_token_id, (0, 0)%nat)] ++ zip ids mapping
          ++ [(sep_token_id, (0, 0)%nat)] ++ zip pair_ids pair_mapping
          ++ [(sep_token_id, (0, 0)%nat)]
          ++ replicate padr (pad_token_id, (0, 0)%nat).
Proof.
  intros Hbert Hmapping Hpair Hrun.
  destruct (encode_window_layout _ _ _ _ _ _ _ Hrun)
    as (padl & padr & _ & _ & _ & Hids & Hom & _).
  exists padl, padr. eexists _, _. split_and!; [exact Hids | exact Hom |].
  rewrite Hbert. unfold bert_build_inputs_with_special_tokens,
    build_offset_mapping_with_special_tokens.
  rewrite zip_with_app by (by rewrite !length_replicate).
  rewrite zip_with_replicate. f_equal.
  rewrite zip_with_app.
  - rewrite zip_layout by done. rewrite zip_with_replicate.
    by rewrite <- !(assoc_L (++)).
  - simpl. rewrite ?length_app. simpl. rewrite ?length_app. simpl. lia.
Qed.
End BatchFacts.

(** X20: on a batch of pairs with a positive stride the output lists the
    windows of item 0, then those of item 1, and so on: every item gives
    at least one window, and [overflow_to_sample] of each window is the
    index of its item. *)
Theorem batch_encode_groups `{Tokenizer} (fuel : nat) (args : batch_args)
    (batch : list (str * option str)) (outs : list encoded) :
  0 < stride args →
  Forall (λ item, is_Some item.2) batch →
  batch_encode fuel args batch = Ok outs →
  ∃ groups : list (list encoded),
    outs = mjoin groups
    ∧ length groups = length batch
    ∧ ∀ i group, groups !! i = Some group →
        group ≠ [] ∧ Forall (λ e, overflow_to_sample e = Some (Z.of_nat i)) group.
Proof.
  intros Hstride Hpairs Hrun. unfold batch_encode, enumerate in Hrun.
  apply (batch_encode_items fuel args Hstride batch O) in Hrun
    as (groups & -> & Hlen & Hgroups); [| done].
  exists groups. split_and!; [done | done |].
  intros i group Hi.
  destruct (Hgroups i group Hi) as [Hne (text & pair & tom & tpom & _ & _ & _ & Hwins)].
  split; [done |]. eapply Forall_impl; [exact Hwins |].
  intros e [r Hwin]. by apply encode_window_emitted in Hwin as [_ Hsample].
Qed.

Lemma batch_encode_groups_witness :
  ∃ groups : list (list encoded),
    sample_batch_windows = mjoin groups
    ∧ length groups = length sample_batch
    ∧ ∀ i group, groups !! i = Some group →
        group ≠ [] ∧ Forall (λ e, overflow_to_sample e = Some (Z.of_nat i)) group.
Proof.
  apply (@batch_encode_groups sample_bert 3 (sample_args 6 1 false) sample_batch).
  - reflexivity.
  - repeat constructor; simpl; eauto.
  - reflexivity.
Defined.

(** X21: under the layout [[cls] A [sep] B [sep]] every window of a batch
    of pairs carries, position by position, each token id with the span
    [rematch] gave that very token: (0, 0) with CLS, SEP and the padding,
    the spans of the first text with its ids, and with the pair ids of the
    window's range the spans of the same range. *)
Theorem window_offsets_follow_tokens `{Tokenizer} (fuel : nat) (args : batch_args)
    (batch : list (str * option str)) (outs : list encoded) :
  (∀ a b, build_inputs_with_special_tokens a (Some b)
          = bert_build_inputs_with_special_tokens cls_token_id sep_token_id a (Some b)) →
  0 < stride args →
  Forall (λ item, is_Some item.2) batch →
  batch_encode fuel args batch = Ok outs →
  Forall (λ e,
            ∃ (i : nat) text text_pair token_offset_mapping token_pair_offset_mapping
              (r : nat * nat) (padl padr : nat) sequence spans,
              overflow_to_sample e = Some (Z.of_nat i)
              ∧ batch !! i = Some (text, Some text_pair)
              ∧ rematch text = Ok token_offset_mapping
              ∧ rematch text_pair = Ok token_pair_offset_mapping
              ∧ input_ids e = Some sequence
              ∧ offset_mapping e = Some spans
              ∧ zip sequence spans
                = replicate padl (pad_token_id, (0, 0)%nat)
                    ++ [(cls_token_id, (0, 0)%nat)]
                    ++ zip (get_input_ids text) token_offset_mapping
                    ++ [(sep_token_id, (0, 0)%nat)]
                    ++ pair_range r (zip (get_input_ids text_pair) token_pair_offset_mapping)
                    ++ [(sep_token_id, (0, 0)%nat)]
                    ++ replicate padr (pad_token_id, (0, 0)%nat))
         outs.
Proof.
  intros Hbert Hstride Hpairs Hrun. unfold batch_encode, enumerate in Hrun.
  apply (batch_encode_items fuel args Hstride batch O) in Hrun
    as (groups & -> & Hlen & Hgroups); [| done].
  apply Forall_forall. intros e He. simpl in He.
  apply list_elem_of_join in He as (group & He & Hgroup).
  apply list_elem_of_lookup in Hgroup as [i Hi].
  destruct (Hgroups i group Hi) as [_ (text & pair & tom & tpom & Hitem & Ht & Hp & Hwins)].
  rewrite Forall_forall in Hwins. destruct (Hwins e He) as [r Hwin].
  pose proof (rematch_length _ _ Ht) as Hlt. pose proof (rematch_length _ _ Hp) as Hlp.
  destruct (encode_window_zip _ _ _ _ _ _ _ Hbert Hlt
              (length_pair_range r _ _ Hlp) Hwin)
    as (padl & padr & sequence & spans & Hids & Hom & Hzip).
  apply encode_window_emitted in Hwin as [_ Hsample].
  exists i, text, pair, tom, tpom, r, padl, padr, sequence, spans.
  by rewrite pair_range_zip.
Qed.

Lemma window_offsets_follow_tokens_witness :
  Forall (λ e,
            ∃ (i : nat) text text_pair token_offset_mapping token_pair_offset_mapping
              (r : nat * nat) (padl padr : nat) sequence spans,
              overflow_to_sample e = Some (Z.of_nat i)
              ∧ sample_batch !! i = Some (text, Some text_pair)
              ∧ @rematch sample_bert text = Ok token_offset_mapping
              ∧ @rematch sample_bert text_pair = Ok token_pair_offset_mapping
              ∧ input_ids e = Some sequence
              ∧ offset_mapping e = Some spans
              ∧ zip sequence spans
                = replicate padl (@pad_token_id sample_bert, (0, 0)%nat)
                    ++ [(@cls_token_id sample_bert, (0, 0)%nat)]
                    ++ zip (@get_input_ids sample_bert text) token_offset_mapping
                    ++ [(@sep_token_id sample_bert, (0, 0)%nat)]
                    ++ pair_range r (zip (@get_input_ids sample_bert text_pair)
                                       token_pair_offset_mapping)
                    ++ [(@sep_token_id sample_bert, (0, 0)%nat)]
                    ++ replicate padr (@pad_token_id sample_bert, (0, 0)%nat))
         sample_batch_windows.
Proof.
  apply (@window_offsets_follow_tokens sample_bert 3 (sample_args 6 1 false) sample_batch).
  - intros a b. reflexivity.
  - reflexivity.
  - repeat constructor; simpl; eauto.
  - reflexivity.
Defined.

Section EncodePath.
Context `{Tokenizer}.

(** Without a positive stride, or without a second text, an item is handed
    to [encode]. *)
Lemma for_each_encode fuel args :
  ∀ (items : list (str * option str)) (k : nat) batch_encode_inputs out,
    stride args ≤ 0 ∨ Forall (λ item, item.2 = None) items →
    for_each (λ batch_encode_inputs '(example_id, (text, text_pair)),
                encode_item fuel args example_id text text_pair batch_encode_inputs)
      (imap (λ i item, ((k + i)%nat, item)) items) batch_encode_inputs = Ok out
    ↔ ∃ outs,
        out = batch_encode_inputs ++ outs
        ∧ Forall2 (λ item encoded_inputs,
                     encode (get_input_ids item.1) (get_input_ids <$> item.2) args
                     = Ok encoded_inputs)
                  items outs.
Proof.
  induction items as [| [text text_pair] items IH]; intros k batch_encode_inputs out Hpath.
  { simpl. split.
    - intros [= <-]. exists []. by rewrite app_nil_r.
    - intros (outs & -> & Houts). apply Forall2_nil_inv_l in Houts as ->.
      by rewrite app_nil_r. }
  rewrite imap_cons.
  change (for_each ?f (?x :: ?xs) ?s) with (f s x ≫= for_each f xs).
  cbv beta iota.
  rewrite (imap_ext _ (λ i item, ((S k + i)%nat, item)))
    by (intros i item _; simpl; f_equal; lia).
  assert (encode_item fuel args (k + 0) text text_pair batch_encode_inputs
          = encoded_inputs ← encode (get_input_ids text) (get_input_ids <$> text_pair) args;
            Ok (batch_encode_inputs ++ [encoded_inputs])) as ->.
  { unfold encode_item. destruct text_pair as [text_pair |]; [| done].
    destruct (0 <? stride args) eqn:E; [| done].
    destruct Hpath as [Hstride | Hnone]; [lia |].
    by apply Forall_cons in Hnone as [Hnone _]. }
  assert (stride args ≤ 0 ∨ Forall (λ item, item.2 = None) items) as Hrest.
  { destruct Hpath as [Hstride | Hnone]; [by left | right].
    by apply Forall_cons in Hnone as [_ Hnone]. }
  destruct (encode (get_input_ids text) (get_input_ids <$> text_pair) args)
    as [encoded_inputs | e |] eqn:Hencode; cbn [mbind result_bind].
  - rewrite (IH (S k) _ out Hrest). split.
    + intros (outs & -> & Houts). exists (encoded_inputs :: outs).
      split; [by rewrite <- (assoc_L (++)) |]. by constructor.
    + intros (outs & -> & Houts).
      apply Forall2_cons_inv_l in Houts as (e' & outs' & Hhead & Houts & ->).
      simpl in Hhead. rewrite Hencode in Hhead. injection Hhead as <-.
      exists outs'. split; [by rewrite <- (assoc_L (++)) | done].
  - split; [done |]. intros (outs & _ & Houts).
    apply Forall2_cons_inv_l in Houts as (e' & outs' & Hhead & _). simpl in Hhead. congruence.
  - split; [done |]. intros (outs & _ & Houts).
    apply Forall2_cons_inv_l in Houts as (e' & outs' & Hhead & _). simpl in Hhead. congruence.
Qed.
End EncodePath.

(** X22: with a stride of 0 or less, or when no item has a second text,
    [batch_encode] returns exactly what [encode] returns for each item, one
    encoding per item in the order of the batch; it returns if and only if
    [encode] returns for every item, and [rematch] is not run. *)
Theorem batch_encode_without_stride `{Tokenizer} (fuel : nat) (args : batch_args)
    (batch : list (str * option str)) (outs : list encoded) :
  stride args ≤ 0 ∨ Forall (λ item, item.2 = None) batch →
  batch_encode fuel args batch = Ok outs
  ↔ Forall2 (λ item encoded_inputs,
               encode (get_input_ids item.1) (get_input_ids <$> item.2) args
               = Ok encoded_inputs)
            batch outs.
Proof.
  intros Hpath. unfold batch_encode, enumerate.
  rewrite (for_each_encode fuel args batch O [] outs Hpath). simpl. split.
  - by intros (outs' & -> & Houts).
  - intros Houts. by exists outs.
Qed.

Lemma batch_encode_without_stride_witness :
  @batch_encode sample_bert 0 (sample_args 6 0 false) sample_batch
  = Ok [set_input_ids [2; 97; 3; 98; 99; 100; 3] empty_inputs;
        set_input_ids [2; 98; 3; 99; 3] empty_inputs].
Proof.
  apply (@batch_encode_without_stride sample_bert 0 (sample_args 6 0 false) sample_batch).
  - left. simpl. lia.
  - repeat constructor.
Defined.

(** X23: on the sliding-window path the first text is never shortened:
    when it leaves no room for the pair (its ids and the special tokens
    alone exceed [max_seq_len]) the first pass fails its length assertion,
    whatever the truncation strategy, the stride and the second text. *)
Theorem first_text_too_long `{Tokenizer} (fuel : nat) (args : batch_args) (example_id : nat)
    (text text_pair : str) (pre mid post : list Z)
    (token_offset_mapping token_pair_offset_mapping : list span)
    (batch_encode_inputs : list encoded) :
  pair_layout pre mid post →
  0 < stride args →
  rematch text = Ok token_offset_mapping →
  rematch text_pair = Ok token_pair_offset_mapping →
  max_seq_len args < len (get_input_ids text) + num_special_tokens_to_add true →
  encode_item (S fuel) args example_id text (Some text_pair) batch_encode_inputs
  = Raise AssertionError.
Proof.
  intros Hlayout Hstride Htext Hpair Hlong.
  unfold encode_item. rewrite Htext, Hpair.
  destruct (0 <? stride args) eqn:E; [| lia].
  cbn [mbind result_bind]. rewrite sliding_windows_S.
  assert (∀ pair_ids pair_mapping,
            encode_window args example_id (get_input_ids text) token_offset_mapping
              pair_ids pair_mapping = Raise AssertionError) as Hwindow.
  { intros pair_ids pair_mapping.
    pose proof (encode_window_spec args example_id (get_input_ids text) token_offset_mapping
                  pair_ids pair_mapping) as Hspec.
    cbv zeta in Hspec.
    rewrite (pair_layout_length pre mid post) in Hspec by done.
    destruct (_ <=? max_seq_len args) eqn:Hfit in Hspec; [| done].
    unfold len in *. lia. }
  destruct (len (get_input_ids text_pair) <=? _); by rewrite Hwindow.
Qed.

Lemma first_text_too_long_witness :
  @encode_item sample_bert 1 (sample_args 7 1 false) 0 sample_text (Some [97]) []
  = Raise AssertionError.
Proof.
  apply (@first_text_too_long sample_bert 0 (sample_args 7 1 false) 0 sample_text [97]
           [2] [3] [3] [(0, 1); (1, 2); (2, 3); (3, 4); (4, 5)]%nat [(0, 1)%nat] []).
  - intros a b. reflexivity.
  - reflexivity.
  - reflexivity.
  - reflexivity.
  - reflexivity.
Defined.

(** ** Detokenizer *)

Section ReplaceFacts.
Variables (old new : str).

Lemma replace_from_skip (passed s : str) :
  replace_from old new (length passed) (passed ++ s) = replace_from old new O s.
Proof. induction passed as [| c passed IH]; [done | exact IH]. Qed.

(** An occurrence at the head is replaced, and the scan goes on behind it. *)
Lemma replace_from_hit (s : str) :
  old ≠ [] → replace_from old new O (old ++ s) = new ++ replace_from old new O s.
Proof.
  intros Hold. destruct old as [| c old'] eqn:E; [done |]. rewrite <- E.
  assert (replace_from old new O (old ++ s)
          = if decide (take (length old) (old ++ s) = old)
            then new ++ replace_from old new (length old - 1) (old' ++ s)
            else c :: replace_from old new O (old' ++ s)) as -> by (by rewrite E).
  rewrite take_app_length. destruct (decide (old = old)); [| done].
  f_equal. replace (length old - 1)%nat with (length old') by (rewrite E; simpl; lia).
  apply replace_from_skip.
Qed.

(** No occurrence at the head: the character is kept. *)
Lemma replace_from_miss (c : Z) (s : str) :
  take (length old) (c :: s) ≠ old →
  replace_from old new O (c :: s) = c :: replace_from old new O s.
Proof. intros Hmiss. simpl. by destruct (decide _). Qed.

(** Characters other than the first of [old] are copied. *)
Lemma replace_from_copy (x : Z) (u s : str) :
  head old = Some x → Forall (λ c, c ≠ x) u →
  replace_from old new O (u ++ s) = u ++ replace_from old new O s.
Proof.
  intros Hx. induction 1 as [| c u Hc _ IH]; [done |].
  change ((c :: u) ++ s) with (c :: (u ++ s)).
  rewrite replace_from_miss; [by rewrite IH |].
  destruct old as [| y o]; [done |]. injection Hx as ->. simpl. congruence.
Qed.

(** A string without some character of [old] is left as it is. *)
Lemma replace_from_absent (x : Z) (s : str) :
  x ∈ old → x ∉ s → replace_from old new O s = s.
Proof.
  intros Hx. induction s as [| c s IH]; intros Hs; [done |].
  rewrite replace_from_miss.
  - f_equal. apply IH. intros Hin. apply Hs. by right.
  - intros Heq. apply Hs. rewrite <- Heq in Hx.
    by apply (subseteq_take (length old) (c :: s)).
Qed.
End ReplaceFacts.

Section DetokenizeFacts.

Lemma str_join_cons (token : str) (tokens : list str) :
  str_join [32] (token :: tokens) = token ++ (t ← tokens; 32 :: t).
Proof.
  revert token. induction tokens as [| t tokens IH]; intros token.
  - simpl. by rewrite app_nil_r.
  - change (str_join [32] (token :: t :: tokens))
      with (token ++ [32] ++ str_join [32] (t :: tokens)).
    by rewrite IH.
Qed.

Lemma mark_cases (token : str) :
  token ∈ marks → token = [44] ∨ token = [33] ∨ token = [63] ∨ token = [46].
Proof. unfold marks. rewrite !elem_of_cons, elem_of_nil. tauto. Qed.

(** What the statements ask of a token, character by character. *)
Lemma token_chars (token : str) :
  token ∈ marks ∨ token ≠ [] ∧ Forall word_char token →
  token ≠ [] ∧ Forall (λ c, is_space c = false ∧ c ≠ 32 ∧ c ≠ 39) token.
Proof.
  intros [Hmark | [Hne Hchars]].
  - apply mark_cases in Hmark as [-> | [-> | [-> | ->]]];
      (split; [done |]); repeat constructor; done.
  - split; [done |]. eapply Forall_impl; [exact Hchars |].
    intros c [Hspace Hc]. split_and!; [done | by intros -> |].
    intros ->. apply Hc. rewrite !elem_of_cons. tauto.
Qed.

Lemma token_no_space (token : str) :
  token ∈ marks ∨ token ≠ [] ∧ Forall word_char token → Forall (λ c, c ≠ 32) token.
Proof.
  intros Htoken. apply token_chars in Htoken as [_ Hchars].
  eapply Forall_impl; [exact Hchars |]. by intros c (_ & Hc & _).
Qed.

(** The first replacement glues the continuation pieces. *)
Lemma glue_pass (tokens : list str) :
  Forall (λ token, token ∈ marks ∨ token ≠ [] ∧ Forall word_char token) tokens →
  replace_from [32; 35; 35] [] O (t ← tokens; 32 :: t) = tokens ≫= detokenized_up_to [].
Proof.
  induction 1 as [| t tokens Ht Htokens IH]; [done |].
  rewrite !bind_cons.
  pose proof (token_no_space t Ht) as Hspace.
  apply token_chars in Ht as [Hne _].
  unfold detokenized_up_to at 1. destruct (decide (take 2 t = [35; 35])) as [Hpiece | Hpiece].
  - rewrite <- (take_drop 2 t) at 1. rewrite Hpiece.
    change ((32 :: [35; 35] ++ drop 2 t) ++ ?s) with ([32; 35; 35] ++ (drop 2 t ++ s)).
    rewrite replace_from_hit by done.
    rewrite (replace_from_copy _ _ 32) by (done || by apply Forall_drop).
    by rewrite IH.
  - destruct (decide (t ∈ [])) as [Hin | _]; [by apply elem_of_nil in Hin |].
    change ((32 :: t) ++ ?s) with (32 :: (t ++ s)).
    rewrite replace_from_miss.
    + rewrite (replace_from_copy _ _ 32) by done. by rewrite IH.
    + destruct t as [| c [| c' t]]; [done | |].
      * destruct tokens as [| t' tokens]; [simpl; congruence |].
        rewrite bind_cons. simpl. by intros [=].
      * simpl. intros [= -> ->]. by apply Hpiece.
Qed.

(** A later replacement attaches one more mark. *)
Lemma mark_pass (p : Z) (attached : list str) (tokens : list str) :
  p ∈ [46; 63; 33; 44] →
  Forall (λ token, token ∈ marks ∨ token ≠ [] ∧ Forall word_char token) tokens →
  replace_from [32; p] [p] O (tokens ≫= detokenized_up_to attached)
  = tokens ≫= detokenized_up_to ([p] :: attached).
Proof.
  intros Hp. induction 1 as [| t tokens Ht Htokens IH]; [done |].
  rewrite !bind_cons.
  pose proof (token_no_space t Ht) as Hspace.
  unfold detokenized_up_to at 1 3.
  destruct (decide (take 2 t = [35; 35])) as [Hpiece | Hpiece].
  { rewrite (replace_from_copy _ _ 32) by (done || by apply Forall_drop). by rewrite IH. }
  destruct (decide (t ∈ attached)) as [Hin | Hout].
  { rewrite (replace_from_copy _ _ 32) by done. rewrite IH.
    destruct (decide (t ∈ [p] :: attached)) as [_ | Hno]; [done |].
    destruct Hno. by right. }
  destruct (decide (t = [p])) as [-> | Hother].
  - destruct (decide ([p] ∈ [p] :: attached)) as [_ | Hno]; [| destruct Hno; by left].
    change ((32 :: [p]) ++ ?s) with ([32; p] ++ s).
    rewrite replace_from_hit by done. by rewrite IH.
  - destruct (decide (t ∈ [p] :: attached)) as [Hin | _].
    { apply elem_of_cons in Hin as [-> | Hin]; done. }
    change ((32 :: t) ++ ?s) with (32 :: (t ++ s)).
    rewrite replace_from_miss.
    + rewrite (replace_from_copy _ _ 32) by done. by rewrite IH.
    + destruct t as [| c t].
      { destruct Ht as [Ht | [Ht _]]; [| done].
        by apply mark_cases in Ht as [? | [? | [? | ?]]]. }
      simpl. intros [= ->].
      destruct Ht as [Hmark | [_ Hchars]].
      * apply mark_cases in Hmark as [Hm | [Hm | [Hm | Hm]]];
          injection Hm as -> ->; by destruct Hother.
      * apply Forall_cons in Hchars as [[_ Hc] _]. apply Hc.
        rewrite !elem_of_cons, elem_of_nil in Hp. rewrite !elem_of_cons. tauto.
Qed.

(** No apostrophe comes in. *)
Lemma detokenized_no_apostrophe (attached : list str) (token : str) (tokens : list str) :
  Forall (λ token, token ∈ marks ∨ token ≠ [] ∧ Forall word_char token) (token :: tokens) →
  39 ∉ token ++ (tokens ≫= detokenized_up_to attached).
Proof.
  intros Hall.
  assert (Forall (λ t : str, 39 ∉ t) (token :: tokens)) as Hfree.
  { eapply Forall_impl; [exact Hall |]. intros t Ht.
    apply token_chars in Ht as [_ Hchars]. rewrite Forall_forall in Hchars.
    intros Hin. by destruct (Hchars _ Hin) as (_ & _ & ?). }
  apply Forall_cons in Hfree as [Htoken Htokens].
  rewrite elem_of_app. intros [Hin | Hin]; [done |].
  apply list_elem_of_bind in Hin as (t & Hin & Ht).
  rewrite Forall_forall in Htokens. specialize (Htokens t Ht).
  unfold detokenized_up_to in Hin.
  destruct (decide (take 2 t = [35; 35])).
  - apply Htokens. by apply (subseteq_drop 2 t).
  - destruct (decide (t ∈ attached)); [done |].
    apply elem_of_cons in Hin as [Hin | Hin]; done.
Qed.

(** Nothing for [strip] to remove. *)
Lemma str_rstrip_kept (s : str) (c : Z) :
  is_space c = false → str_rstrip (s ++ [c]) = s ++ [c].
Proof.
  intros Hc. unfold str_rstrip. rewrite reverse_app. simpl.
  rewrite Hc. change (c :: reverse s) with (reverse [c] ++ reverse s).
  by rewrite <- reverse_app, reverse_involutive.
Qed.

Lemma ends_in_word (attached : list str) (tokens : list str) :
  Forall (λ token, token ∈ marks ∨ token ≠ [] ∧ Forall word_char token) tokens →
  ∀ (s : str) (c : Z), is_space c = false →
    ∃ s' c', s ++ [c] ++ (tokens ≫= detokenized_up_to attached) = s' ++ [c']
             ∧ is_space c' = false.
Proof.
  induction 1 as [| t tokens Ht Htokens IH]; intros s c Hc.
  { by exists s, c. }
  rewrite bind_cons.
  apply token_chars in Ht as [Hne Hchars].
  assert (∀ u : str, u ≠ [] → Forall (λ c, is_space c = false ∧ c ≠ 32 ∧ c ≠ 39) u →
            ∀ s : str, ∃ s' c', s ++ u = s' ++ [c'] ∧ is_space c' = false) as Hword.
  { clear. intros u Hne Hu s. destruct u as [| x u _] using rev_ind; [done |].
    apply Forall_app in Hu as [_ Hx]. apply Forall_singleton in Hx as [Hx _].
    exists (s ++ u), x. by rewrite <- !(assoc_L (++)). }
  assert (∃ s' c', s ++ [c] ++ detokenized_up_to attached t = s' ++ [c']
                   ∧ is_space c' = false) as (s' & c' & Heq & Hc').
  { unfold detokenized_up_to.
    destruct (decide (take 2 t = [35; 35])).
    - destruct (decide (drop 2 t = [])) as [-> | Hrest]; [by exists s, c |].
      destruct (Hword (drop 2 t) Hrest (Forall_drop _ 2 _ Hchars) (s ++ [c]))
        as (s' & c' & Heq & Hc').
      exists s', c'. by rewrite (assoc_L (++)).
    - destruct (decide (t ∈ attached)).
      + destruct (Hword t Hne Hchars (s ++ [c])) as (s' & c' & Heq & Hc').
        exists s', c'. by rewrite (assoc_L (++)).
      + destruct (Hword t Hne Hchars (s ++ [c] ++ [32])) as (s' & c' & Heq & Hc').
        exists s', c'. by rewrite <- Heq, <- !(assoc_L (++)). }
  destruct (IH s' c' Hc') as (s'' & c'' & Heq' & Hc'').
  exists s'', c''. split; [| done].
  rewrite <- Heq', (assoc_L (++) s' [c']), <- Heq. by rewrite <- !(assoc_L (++)).
Qed.
End DetokenizeFacts.

(** X24: for tokens that are marks (".", "?", "!", ",") or non-empty words
    without white space, marks and apostrophes, the detokenized string is
    the first token as it is (a leading "##" stays) followed by every
    other token: a "##" piece glued on without its marker, a mark attached
    without a space, any other token after one space. *)
Theorem convert_tokens_to_string_pieces (token : str) (tokens : list str) :
  Forall (λ token, token ∈ marks ∨ token ≠ [] ∧ Forall word_char token) (token :: tokens) →
  convert_tokens_to_string (token :: tokens) = token ++ (tokens ≫= detokenized).
Proof.
  intros Hall. pose proof Hall as Hall'. apply Forall_cons in Hall' as [Htoken Htokens].
  pose proof (token_no_space token Htoken) as Hspace.
  unfold convert_tokens_to_string. cbv zeta. rewrite str_join_cons.
  unfold str_replace.
  rewrite (replace_from_copy _ _ 32) by done. rewrite glue_pass by done.
  assert (str_strip (token ++ (tokens ≫= detokenized_up_to []))
          = token ++ (tokens ≫= detokenized_up_to [])) as ->.
  { apply token_chars in Htoken as [Hne Hchars]. unfold str_strip.
    assert (str_lstrip (token ++ (tokens ≫= detokenized_up_to []))
            = token ++ (tokens ≫= detokenized_up_to [])) as ->.
    { destruct token as [| x token]; [done |].
      apply Forall_cons in Hchars as [[Hx _] _]. simpl. by rewrite Hx. }
    destruct token as [| x token _] using rev_ind; [done |].
    apply Forall_app in Hchars as [_ Hx]. apply Forall_singleton in Hx as [Hx _].
    destruct (ends_in_word [] tokens Htokens token x Hx) as (s' & c' & Heq & Hc').
    rewrite <- (assoc_L (++)), Heq. by apply str_rstrip_kept. }
  rewrite (replace_from_copy _ _ 32) by done.
  rewrite (mark_pass 46) by first [done | repeat constructor].
  rewrite (replace_from_copy _ _ 32) by done.
  rewrite (mark_pass 63) by first [done | repeat constructor].
  rewrite (replace_from_copy _ _ 32) by done.
  rewrite (mark_pass 33) by first [done | repeat constructor].
  rewrite (replace_from_copy _ _ 32) by done.
  rewrite (mark_pass 44) by first [done | repeat constructor].
  pose proof (detokenized_no_apostrophe [[44]; [33]; [63]; [46]] token tokens Hall) as Hfree.
  rewrite (replace_from_absent [32; 39; 32] _ 39) by first [done | repeat constructor].
  rewrite (replace_from_absent [32; 110; 39; 116] _ 39) by first [done | repeat constructor].
  rewrite (replace_from_absent [32; 39; 109] _ 39) by first [done | repeat constructor].
  rewrite (replace_from_absent [32; 39; 115] _ 39) by first [done | repeat constructor].
  rewrite (replace_from_absent [32; 39; 118; 101] _ 39) by first [done | repeat constructor].
  rewrite (replace_from_absent [32; 39; 114; 101] _ 39) by first [done | repeat constructor].
  reflexivity.
Qed.

Lemma convert_tokens_to_string_pieces_witness :
  convert_tokens_to_string [[104; 101]; [35; 35; 108; 108; 111]; [119]; [46]]
  = [104; 101; 108; 108; 111; 32; 119; 46].
Proof.
  apply (convert_tokens_to_string_pieces [104; 101] [[35; 35; 108; 108; 111]; [119]; [46]]).
  unfold word_char. by apply (bool_decide_unpack _).
Defined.
